(** * dsl_parser: lexer, recursive-descent parser and inline semantic checks

    A shallow embedding of [dsl_parser.py].  A Python [str] is a Rocq
    [string]; its characters are the code points below 256, on which the
    class [\d] of Python's [re] is exactly [0-9].  Python integers are [Z].
    Exceptions are an explicit result type, and the [Parser] object is a
    record threaded through a state-and-exception monad. *)

From Stdlib Require Import ZArith Ascii String Lia.
From stdpp Require Import base strings gmap list.

Open Scope string_scope.
Open Scope Z_scope.
Open Scope list_scope.

(** ** Token model *)

(** The values the field [Token.type] takes in the source. *)
Inductive TokenType :=
  | NL | LBRACE | RBRACE | LPAREN | RPAREN | LBRACKET | RBRACKET
  | COLON | COMMA | SEMI | STRING | DECIMAL | INT | KW | ID | EOF.

#[global] Instance TokenType_eq_dec : EqDecision TokenType.
Proof. solve_decision. Defined.

Record Token := mkToken { type : TokenType; value : string; line : Z; col : Z }.

#[global] Instance Token_eq_dec : EqDecision Token.
Proof. solve_decision. Defined.

(** ** Errors and results *)

(** The three families of messages of [DSLParseError]: every [raise] of the
    source is one constructor, carrying what its f-string interpolates. *)
Inductive SyntaxMsg :=
  | Esperaba (ttype : TokenType) (val : option string)
             (got_type : TokenType) (got_value : string)
  | EsperabaFin
  | CriticidadInvalida
  | FaltaFinTrasCorchete
  | EsperabaTx
  | ConsultaInvalida.

Inductive SemanticMsg :=
  | ReservadaComoId (name : string)
  | CarruselDuplicado (cid : string)
  | ProductoDuplicado (pid : string)
  | EspaciosNoPositivo
  | CapacidadNoPositiva
  | PrecioNegativo
  | MinimoMayorQueMaximo
  | ProductoNoDefinido (pid : string)
  | CantidadNoPositiva.

Inductive DSLParseError :=
  | ErrorLexico (ln cl : Z) (ch : ascii)
  | ErrorSintactico (ln cl : Z) (msg : SyntaxMsg)
  | ErrorSemantico (msg : SemanticMsg).

(** Python exceptions the code can raise; only the first is caught by the
    runner. *)
Inductive Exn :=
  | ParseError (e : DSLParseError)
  | IndexError
  | ValueError.

(** [OutOfFuel] is not a behaviour of the program: it marks a loop of the
    model that was given too few iterations. *)
Inductive Result (A : Type) :=
  | Ok (a : A)
  | Raise (e : Exn)
  | OutOfFuel.
Arguments Ok {A} a.
Arguments Raise {A} e.
Arguments OutOfFuel {A}.

(** ** Lexer tables *)

Definition RESERVED : list string :=
  [ "CARRUSEL"; "PRODUCTO"; "ESPACIOS"; "CAPACIDAD";
    "PRECIO"; "MINIMO"; "MAXIMO"; "CRITICIDAD";
    "ALTA"; "MEDIA"; "BAJA";
    "SIMULAR"; "TRANSACCIONES";
    "RETIRAR"; "RESURTIR"; "CONTAR";
    "ESTADO"; "ESTADISTICAS"; "REPORTE" ].

(** [val in RESERVED] *)
Definition in_RESERVED (val : string) : bool := bool_decide (val ∈ RESERVED).

Definition ch_newline : ascii := "010"%char.
Definition ch_tab : ascii := "009"%char.
Definition ch_quote : ascii := "034"%char.
Definition ch_backslash : ascii := "\"%char.

Definition SYMBOLS (ch : ascii) : option TokenType :=
  if bool_decide (ch = "{"%char) then Some LBRACE
  else if bool_decide (ch = "}"%char) then Some RBRACE
  else if bool_decide (ch = "("%char) then Some LPAREN
  else if bool_decide (ch = ")"%char) then Some RPAREN
  else if bool_decide (ch = "["%char) then Some LBRACKET
  else if bool_decide (ch = "]"%char) then Some RBRACKET
  else if bool_decide (ch = ":"%char) then Some COLON
  else if bool_decide (ch = ","%char) then Some COMMA
  else if bool_decide (ch = ";"%char) then Some SEMI
  else None.

(** ** Character classes and regular expressions

    Each [RE_x chunk] is [RE_x.match(chunk)]: [Some] of [m.group(0)], the
    prefix of [chunk] the pattern matches, or [None].  The patterns are
    deterministic (no alternative of a repetition can start where another
    one can), so the backtracking matcher of [re] returns the greedy
    match computed here. *)

Definition is_digit (c : ascii) : bool := (("0" <=? c) && (c <=? "9"))%char.
Definition is_alpha (c : ascii) : bool :=
  ((("A" <=? c) && (c <=? "Z")) || (("a" <=? c) && (c <=? "z")))%char.
Definition is_id_char (c : ascii) : bool :=
  is_alpha c || is_digit c || bool_decide (c = "_"%char).
Definition is_blank (c : ascii) : bool :=
  bool_decide (c = " "%char) || bool_decide (c = ch_tab).
Definition not_newline (c : ascii) : bool := negb (bool_decide (c = ch_newline)).

(** The longest prefix of [s] whose characters satisfy [p]: [[p]*]. *)
Fixpoint take_while (p : ascii → bool) (s : string) : string :=
  match s with
  | String c s' => if p c then String c (take_while p s') else ""
  | EmptyString => ""
  end.

(** [text[k:]] *)
Fixpoint string_drop (k : nat) (s : string) : string :=
  match k, s with
  | S k', String _ s' => string_drop k' s'
  | _, _ => s
  end.

(** [[p]+] *)
Definition plus_class (p : ascii → bool) (s : string) : option string :=
  match take_while p s with
  | EmptyString => None
  | m => Some m
  end.

(** [[ \t]+] *)
Definition RE_WHITESPACE (chunk : string) : option string := plus_class is_blank chunk.

(** [\n] *)
Definition RE_NEWLINE (chunk : string) : option string :=
  match chunk with
  | String c _ => if bool_decide (c = ch_newline) then Some (String c "") else None
  | EmptyString => None
  end.

(** [#.*]: the dot matches every character but the newline. *)
Definition RE_COMMENT (chunk : string) : option string :=
  match chunk with
  | String c s' =>
      if bool_decide (c = "#"%char) then Some (String c (take_while not_newline s'))
      else None
  | EmptyString => None
  end.

(** [\d+\.\d+] *)
Definition RE_DECIMAL (chunk : string) : option string :=
  match plus_class is_digit chunk with
  | Some ent =>
      match string_drop (String.length ent) chunk with
      | String c s' =>
          if bool_decide (c = "."%char) then
            match plus_class is_digit s' with
            | Some frac => Some (ent +:+ String c frac)
            | None => None
            end
          else None
      | EmptyString => None
      end
  | None => None
  end.

(** [\d+] *)
Definition RE_INT (chunk : string) : option string := plus_class is_digit chunk.

(** The body of a string literal and its closing quote: a repetition of
    either one character that is neither a quote nor a backslash, or a
    backslash and the character after it, then a quote.  A backslash takes
    the next character with it, unless that character is a newline (the
    dot does not match it) or the text ends. *)
Fixpoint string_body (s : string) : option string :=
  match s with
  | EmptyString => None
  | String c s' =>
      if bool_decide (c = ch_quote) then Some (String c "")
      else if bool_decide (c = ch_backslash) then
        match s' with
        | String d s'' =>
            if bool_decide (d = ch_newline) then None
            else match string_body s'' with
                 | Some m => Some (String c (String d m))
                 | None => None
                 end
        | EmptyString => None
        end
      else match string_body s' with
           | Some m => Some (String c m)
           | None => None
           end
  end.

(** A quote, then [string_body]. *)
Definition RE_STRING (chunk : string) : option string :=
  match chunk with
  | String c s' =>
      if bool_decide (c = ch_quote) then
        match string_body s' with
        | Some m => Some (String c m)
        | None => None
        end
      else None
  | EmptyString => None
  end.

(** [[A-Za-z][A-Za-z0-9_]*] *)
Definition RE_ID (chunk : string) : option string :=
  match chunk with
  | String c s' =>
      if is_alpha c then Some (String c (take_while is_id_char s')) else None
  | EmptyString => None
  end.

(** ** Lexer (scanner) *)

(** The locals [i], [line], [col] and [tokens] of [tokenize]. *)
Record Scanner := mkScanner {
  sc_i : nat;
  sc_line : Z;
  sc_col : Z;
  sc_tokens : list Token
}.

(** One round of the [for ch in matched] loop of [advance]. *)
Definition advance_char (ch : ascii) (lc : Z * Z) : Z * Z :=
  if bool_decide (ch = ch_newline) then (fst lc + 1, 1) else (fst lc, snd lc + 1).

Fixpoint advance_chars (matched : string) (lc : Z * Z) : Z * Z :=
  match matched with
  | String ch rest => advance_chars rest (advance_char ch lc)
  | EmptyString => lc
  end.

Definition advance (matched : string) (st : Scanner) : Scanner :=
  let lc := advance_chars matched (sc_line st, sc_col st) in
  {| sc_i := sc_i st + String.length matched;
     sc_line := fst lc;
     sc_col := snd lc;
     sc_tokens := sc_tokens st |}.

(** [tokens.append(Token(ttype, val, line, col))] *)
Definition emit (ttype : TokenType) (val : string) (st : Scanner) : Scanner :=
  {| sc_i := sc_i st;
     sc_line := sc_line st;
     sc_col := sc_col st;
     sc_tokens := sc_tokens st ++ [mkToken ttype val (sc_line st) (sc_col st)] |}.

(** The body of the [while i < n] loop: one pattern is tried after the
    other, in the order of the source. *)
Definition scan_step (text : string) (st : Scanner) : Result Scanner :=
  let chunk := string_drop (sc_i st) text in
  match RE_NEWLINE chunk with
  | Some m => Ok (advance m (emit NL "\n" st))
  | None =>
  match RE_WHITESPACE chunk with
  | Some m => Ok (advance m st)
  | None =>
  match RE_COMMENT chunk with
  | Some m => Ok (advance m st)
  | None =>
  match chunk with
  | EmptyString => Raise IndexError
  | String ch _ =>
  match SYMBOLS ch with
  | Some ttype => Ok (advance (String ch "") (emit ttype (String ch "") st))
  | None =>
  match RE_STRING chunk with
  | Some m => Ok (advance m (emit STRING m st))
  | None =>
  match RE_DECIMAL chunk with
  | Some m => Ok (advance m (emit DECIMAL m st))
  | None =>
  match RE_INT chunk with
  | Some m => Ok (advance m (emit INT m st))
  | None =>
  match RE_ID chunk with
  | Some val =>
      let ttype := if in_RESERVED val then KW else ID in
      Ok (advance val (emit ttype val st))
  | None =>
      Raise (ParseError (ErrorLexico (sc_line st) (sc_col st) ch))
  end end end end end end end end end.

Fixpoint scan_loop (fuel : nat) (text : string) (st : Scanner) : Result Scanner :=
  if (sc_i st <? String.length text)%nat then
    match fuel with
    | O => OutOfFuel
    | S fuel' =>
        match scan_step text st with
        | Ok st' => scan_loop fuel' text st'
        | Raise e => Raise e
        | OutOfFuel => OutOfFuel
        end
    end
  else Ok st.

Definition scan_init : Scanner :=
  {| sc_i := 0; sc_line := 1; sc_col := 1; sc_tokens := [] |}.

Definition tokenize_fuel (fuel : nat) (text : string) : Result (list Token) :=
  match scan_loop fuel text scan_init with
  | Ok st => Ok (sc_tokens (emit EOF "" st))
  | Raise e => Raise e
  | OutOfFuel => OutOfFuel
  end.

(** Every round consumes a character, so [len(text)] rounds are enough
    (lemma [scan_loop_spec] below). *)
Definition tokenize (text : string) : Result (list Token) :=
  tokenize_fuel (String.length text) text.

(** ** Conversions of lexemes

    [int(s)] on a lexeme: an optional sign and decimal digits.  Python also
    tolerates blanks around the number and single underscores between
    digits; no INT token carries them, and this model reports them like
    any other malformed lexeme, with [ValueError]. *)

Definition digit_value (c : ascii) : Z := Z.of_nat (nat_of_ascii c) - 48.

Fixpoint digits_value (acc : Z) (s : string) : option Z :=
  match s with
  | EmptyString => Some acc
  | String c s' =>
      if is_digit c then digits_value (10 * acc + digit_value c) s' else None
  end.

Definition unsigned_int (s : string) : option Z :=
  match s with
  | EmptyString => None
  | _ => digits_value 0 s
  end.

Definition py_int (s : string) : option Z :=
  match s with
  | String c s' =>
      if bool_decide (c = "-"%char) then Z.opp <$> unsigned_int s'
      else if bool_decide (c = "+"%char) then unsigned_int s'
      else unsigned_int s
  | EmptyString => None
  end.

(** [float(s)] on a lexeme [[+-]?\d+(\.\d+)?], kept as the exact decimal it
    denotes: [(-1)^neg * num / 10^scale]. *)
Record Decimal := mkDecimal { dec_neg : bool; dec_num : Z; dec_scale : nat }.

Definition unsigned_decimal (s : string) : option (Z * nat) :=
  let ent := take_while is_digit s in
  match ent, string_drop (String.length ent) s with
  | EmptyString, _ => None
  | _, EmptyString => (λ n, (n, O)) <$> digits_value 0 ent
  | _, String c frac =>
      if bool_decide (c = "."%char) then
        match frac with
        | EmptyString => None
        | _ => (λ n, (n, String.length frac)) <$> digits_value 0 (ent +:+ frac)
        end
      else None
  end.

Definition py_float (s : string) : option Decimal :=
  match s with
  | String c s' =>
      if bool_decide (c = "-"%char) then
        (λ p, mkDecimal true (fst p) (snd p)) <$> unsigned_decimal s'
      else if bool_decide (c = "+"%char) then
        (λ p, mkDecimal false (fst p) (snd p)) <$> unsigned_decimal s'
      else (λ p, mkDecimal false (fst p) (snd p)) <$> unsigned_decimal s
  | EmptyString => None
  end.

(** [x < 0] for the double [x = float(s)].  Rounding to the nearest double
    keeps the sign, and a negative decimal rounds to [-0.0], which is not
    below zero, exactly when its magnitude is at most [2^-1075], half the
    least positive double. *)
Definition float_lt_0 (d : Decimal) : bool :=
  dec_neg d && (10 ^ Z.of_nat (dec_scale d) <? dec_num d * 2 ^ 1075)%Z.

(** ** Parser (recursive descent) *)

(** The attributes of a [Parser] object. *)
Record Parser := mkParser {
  tokens : list Token;
  pos : nat;
  products_defined : gset string;
  carousels_defined : gset string
}.

(** [Parser(tokens)] *)
Definition Parser_init (toks : list Token) : Parser :=
  {| tokens := toks; pos := 0; products_defined := ∅; carousels_defined := ∅ |}.

(** A method of [Parser]: it may mutate the object, and returns or raises.
    The object survives a raise: the second component is its state then. *)
Definition M (A : Type) : Type := Parser → Result A * Parser.

Definition ret {A} (a : A) : M A := λ self, (Ok a, self).
Definition raise {A} (e : Exn) : M A := λ self, (Raise e, self).
Definition out_of_fuel {A} : M A := λ self, (OutOfFuel, self).

Definition bind {A B} (m : M A) (k : A → M B) : M B :=
  λ self,
    match m self with
    | (Ok a, self') => k a self'
    | (Raise e, self') => (Raise e, self')
    | (OutOfFuel, self') => (OutOfFuel, self')
    end.

Declare Scope parser_scope.
Delimit Scope parser_scope with parser.
Bind Scope parser_scope with M.
Notation "x <- m ;; k" := (bind m (λ x, k))
  (at level 100, m at next level, right associativity) : parser_scope.
Notation "m ;; k" := (bind m (λ _, k))
  (at level 100, right associativity) : parser_scope.
Open Scope parser_scope.

Definition syntax_error {A} (tok : Token) (msg : SyntaxMsg) : M A :=
  raise (ParseError (ErrorSintactico (line tok) (col tok) msg)).
Definition semantic_error {A} (msg : SemanticMsg) : M A :=
  raise (ParseError (ErrorSemantico msg)).

(** [if cond: raise ...] *)
Definition raise_if (cond : bool) (err : M unit) : M unit :=
  if cond then err else ret tt.

(** [a or b] on two calls, the second made only when the first is false *)
Definition or_else (a b : M bool) : M bool :=
  x <- a ;; if x then ret true else b.

(** [while cond: body], for at most [fuel] rounds *)
Fixpoint while_fuel (fuel : nat) (cond : M bool) (body : M unit) : M unit :=
  c <- cond ;;
  if c then
    match fuel with
    | O => out_of_fuel
    | S fuel' => body ;; while_fuel fuel' cond body
    end
  else ret tt.

(** [while cond: body].  Every loop of the parser consumes a token in each
    round, so one round per token left is enough; the loop is given one
    more (lemma [wf_while] below shows that the bound is never hit). *)
Definition while_ (cond : M bool) (body : M unit) : M unit :=
  λ self, while_fuel (S (length (tokens self) - pos self)) cond body self.

Definition current : M Token :=
  λ self,
    match tokens self !! pos self with
    | Some tok => (Ok tok, self)
    | None => (Raise IndexError, self)
    end.

Definition match_ (ttype : TokenType) (val : option string) : M bool :=
  tok <- current ;;
  if bool_decide (type tok ≠ ttype) then ret false
  else match val with
       | Some v => if bool_decide (value tok ≠ v) then ret false else ret true
       | None => ret true
       end.

(** [self.pos += 1] *)
Definition step_pos : M unit :=
  λ self, (Ok tt, {| tokens := tokens self; pos := S (pos self);
                     products_defined := products_defined self;
                     carousels_defined := carousels_defined self |}).

Definition consume (ttype : TokenType) (val : option string) : M Token :=
  tok <- current ;;
  ok <- match_ ttype val ;;
  if negb ok then syntax_error tok (Esperaba ttype val (type tok) (value tok))
  else step_pos ;; ret tok.

Definition skip_nl : M unit :=
  while_ (match_ NL None) (consume NL None ;; ret tt).

Definition fin : M unit :=
  semi <- match_ SEMI None ;;
  if semi then consume SEMI None ;; skip_nl
  else
    nl <- match_ NL None ;;
    if nl then skip_nl
    else tok <- current ;; syntax_error tok EsperabaFin.

(** [int(self.consume("INT").value)] *)
Definition consume_int : M Z :=
  tok <- consume INT None ;;
  match py_int (value tok) with
  | Some n => ret n
  | None => raise ValueError
  end.

(** [float(self.consume("DECIMAL").value)] *)
Definition consume_float : M Decimal :=
  tok <- consume DECIMAL None ;;
  match py_float (value tok) with
  | Some d => ret d
  | None => raise ValueError
  end.

Definition in_carousels_defined (cid : string) : M bool :=
  λ self, (Ok (bool_decide (cid ∈ carousels_defined self)), self).
Definition in_products_defined (pid : string) : M bool :=
  λ self, (Ok (bool_decide (pid ∈ products_defined self)), self).

(** [self.carousels_defined.add(cid)] *)
Definition carousels_defined_add (cid : string) : M unit :=
  λ self, (Ok tt, {| tokens := tokens self; pos := pos self;
                     products_defined := products_defined self;
                     carousels_defined := {[ cid ]} ∪ carousels_defined self |}).

(** [self.products_defined.add(pid)] *)
Definition products_defined_add (pid : string) : M unit :=
  λ self, (Ok tt, {| tokens := tokens self; pos := pos self;
                     products_defined := {[ pid ]} ∪ products_defined self;
                     carousels_defined := carousels_defined self |}).

Definition parametros : M unit :=
  consume KW (Some "ESPACIOS") ;;
  consume COLON None ;;
  espacios <- consume_int ;;
  raise_if (espacios <=? 0)%Z (semantic_error EspaciosNoPositivo) ;;
  fin ;;
  consume KW (Some "CAPACIDAD") ;;
  consume COLON None ;;
  capacidad <- consume_int ;;
  raise_if (capacidad <=? 0)%Z (semantic_error CapacidadNoPositiva) ;;
  fin.

Definition def_producto : M unit :=
  consume KW (Some "PRODUCTO") ;;
  tok <- consume ID None ;;
  let pid := value tok in
  raise_if (in_RESERVED pid) (semantic_error (ReservadaComoId pid)) ;;
  dup <- in_products_defined pid ;;
  raise_if dup (semantic_error (ProductoDuplicado pid)) ;;
  products_defined_add pid ;;
  skip_nl ;;
  consume LBRACE None ;;
  skip_nl ;;
  consume KW (Some "PRECIO") ;;
  consume COLON None ;;
  precio <- consume_float ;;
  raise_if (float_lt_0 precio) (semantic_error PrecioNegativo) ;;
  fin ;;
  consume KW (Some "MINIMO") ;;
  consume COLON None ;;
  minimo <- consume_int ;;
  fin ;;
  consume KW (Some "MAXIMO") ;;
  consume COLON None ;;
  maximo <- consume_int ;;
  raise_if (minimo >? maximo)%Z (semantic_error MinimoMayorQueMaximo) ;;
  fin ;;
  consume KW (Some "CRITICIDAD") ;;
  consume COLON None ;;
  crit <- or_else (match_ KW (Some "ALTA"))
            (or_else (match_ KW (Some "MEDIA")) (match_ KW (Some "BAJA"))) ;;
  (if crit then step_pos
   else tok <- current ;; syntax_error tok CriticidadInvalida) ;;
  fin ;;
  consume RBRACE None ;;
  skip_nl.

Definition catalogo : M unit :=
  while_ (match_ KW (Some "PRODUCTO")) (def_producto ;; skip_nl).

Definition def_carrusel : M unit :=
  consume KW (Some "CARRUSEL") ;;
  tok <- consume ID None ;;
  let cid := value tok in
  raise_if (in_RESERVED cid) (semantic_error (ReservadaComoId cid)) ;;
  dup <- in_carousels_defined cid ;;
  raise_if dup (semantic_error (CarruselDuplicado cid)) ;;
  carousels_defined_add cid ;;
  skip_nl ;;
  consume LBRACE None ;;
  skip_nl ;;
  parametros ;;
  skip_nl ;;
  catalogo ;;
  skip_nl ;;
  consume RBRACE None ;;
  skip_nl.

Definition definiciones : M unit :=
  while_ (match_ KW (Some "CARRUSEL")) (def_carrusel ;; skip_nl).

Definition check_tx_semantics (pid : string) (qty : Z) : M unit :=
  known <- in_products_defined pid ;;
  raise_if (negb known) (semantic_error (ProductoNoDefinido pid)) ;;
  raise_if (qty <=? 0)%Z (semantic_error CantidadNoPositiva).

Definition tx : M unit :=
  retirar <- match_ KW (Some "RETIRAR") ;;
  if retirar then
    consume KW (Some "RETIRAR") ;;
    consume LPAREN None ;;
    tok <- consume ID None ;;
    consume COMMA None ;;
    qty <- consume_int ;;
    consume RPAREN None ;;
    check_tx_semantics (value tok) qty
  else
  resurtir <- match_ KW (Some "RESURTIR") ;;
  if resurtir then
    consume KW (Some "RESURTIR") ;;
    consume LPAREN None ;;
    tok <- consume ID None ;;
    consume COMMA None ;;
    qty <- consume_int ;;
    consume RPAREN None ;;
    check_tx_semantics (value tok) qty
  else
  contar <- match_ KW (Some "CONTAR") ;;
  if contar then
    consume KW (Some "CONTAR") ;;
    consume LPAREN None ;;
    tok <- consume ID None ;;
    consume RPAREN None ;;
    check_tx_semantics (value tok) 1
  else
    tok <- current ;; syntax_error tok EsperabaTx.

Definition lista_tx : M unit :=
  tx ;;
  while_ (match_ COMMA None) (consume COMMA None ;; skip_nl ;; tx).

Definition bloque_transacciones : M unit :=
  consume KW (Some "TRANSACCIONES") ;;
  consume COLON None ;;
  consume LBRACKET None ;;
  skip_nl ;;
  closing <- match_ RBRACKET None ;;
  (if negb closing then lista_tx else ret tt) ;;
  skip_nl ;;
  consume RBRACKET None ;;
  term <- or_else (match_ SEMI None) (match_ NL None) ;;
  if term then fin
  else tok <- current ;; syntax_error tok FaltaFinTrasCorchete.

Definition consulta : M unit :=
  estado <- match_ KW (Some "ESTADO") ;;
  if estado then consume KW (Some "ESTADO") ;; ret tt
  else
  estadisticas <- match_ KW (Some "ESTADISTICAS") ;;
  if estadisticas then consume KW (Some "ESTADISTICAS") ;; ret tt
  else
  reporte <- match_ KW (Some "REPORTE") ;;
  if reporte then
    consume KW (Some "REPORTE") ;;
    consume LPAREN None ;;
    consume STRING None ;;
    consume RPAREN None ;;
    ret tt
  else
    tok <- current ;; syntax_error tok ConsultaInvalida.

Definition simulacion : M unit :=
  consume KW (Some "SIMULAR") ;;
  skip_nl ;;
  consume LBRACE None ;;
  skip_nl ;;
  bloque_transacciones ;;
  skip_nl ;;
  while_
    (or_else (match_ KW (Some "ESTADO"))
       (or_else (match_ KW (Some "ESTADISTICAS")) (match_ KW (Some "REPORTE"))))
    (consulta ;; fin ;; skip_nl) ;;
  consume RBRACE None ;;
  ret tt.

Definition programa : M unit :=
  skip_nl ;;
  definiciones ;;
  skip_nl ;;
  simulacion ;;
  skip_nl ;;
  consume EOF None ;;
  ret tt.

(** ** Runner *)

(** [Parser(tokens).programa()] *)
Definition parse (toks : list Token) : Result unit * Parser :=
  programa (Parser_init toks).

(** The body of [main] after the file is read: [Ok tt] is the run that
    prints the confirmation, [Raise (ParseError e)] the one that prints
    [e]. *)
Definition validate (text : string) : Result unit :=
  match tokenize text with
  | Ok toks => fst (parse toks)
  | Raise e => Raise e
  | OutOfFuel => OutOfFuel
  end.


(** * Vocabulary of the statements *)

(** The characters of [s] all satisfy [p]. *)
Definition all_chars (p : ascii → bool) (s : string) : Prop :=
  Forall (λ c, p c = true) (list_ascii_of_string s).

(** What the scanner guarantees of every token it appends but the last. *)
Definition lexed_token (tok : Token) : Prop :=
  match type tok with
  | ID => in_RESERVED (value tok) = false
  | KW => in_RESERVED (value tok) = true
  | INT => ∃ n, py_int (value tok) = Some n ∧ 0 ≤ n
  | DECIMAL => ∃ d, py_float (value tok) = Some d ∧ float_lt_0 d = false
  | EOF => False
  | _ => True
  end.

Definition is_lexical_error {A} (r : Result A) : Prop :=
  ∃ ln cl ch, r = Raise (ParseError (ErrorLexico ln cl ch)).

(** The token lists the scanner returns: tokens that are not [EOF], then
    one [EOF]. *)
Definition lexed (toks : list Token) : Prop :=
  ∃ body eof, toks = (body ++ [eof]) ∧ Forall lexed_token body ∧ type eof = EOF.


(** [self.tokens[self.pos:]], the tokens not consumed yet *)
Definition remaining (self : Parser) : list Token := drop (pos self) (tokens self).

(** The parser object after [k] more tokens are consumed. *)
Definition jump (k : nat) (self : Parser) : Parser :=
  {| tokens := tokens self; pos := k + pos self;
     products_defined := products_defined self;
     carousels_defined := carousels_defined self |}.

(** The test of [Parser.match] on a token. *)
Definition matches (ttype : TokenType) (val : option string) (tok : Token) : bool :=
  bool_decide (type tok = ttype)
  && match val with Some v => bool_decide (value tok = v) | None => true end.

(** What a method may do to the object: the token list stays, the position
    moves forward and not past the end, the symbol tables grow. *)
Definition ext (s s' : Parser) : Prop :=
  tokens s' = tokens s
  ∧ (pos s ≤ pos s' ≤ length (tokens s))%nat
  ∧ products_defined s ⊆ products_defined s'
  ∧ carousels_defined s ⊆ carousels_defined s'.

(** A method that keeps to [ext] and never hits the bound of a loop. *)
Definition wf {A} (m : M A) : Prop :=
  ∀ s, (pos s ≤ length (tokens s))%nat →
    ext s (m s).2 ∧ (m s).1 ≠ OutOfFuel.

(** A well-formed method that consumes a token whenever it returns. *)
Definition advances {A} (m : M A) : Prop :=
  ∀ s, (pos s ≤ length (tokens s))%nat →
    ext s (m s).2 ∧ (m s).1 ≠ OutOfFuel
    ∧ ∀ a, (m s).1 = Ok a → (pos s < pos (m s).2)%nat.

(** Partial correctness of a method: from a state in [P], a return
    satisfies [Q] and a raise satisfies [E]. *)
Definition hoare {A} (P : Parser → Prop) (m : M A)
    (Q : A → Parser → Prop) (E : Exn → Parser → Prop) : Prop :=
  ∀ s, P s →
    match m s with
    | (Ok a, s') => Q a s'
    | (Raise e, s') => E e s'
    | (OutOfFuel, _) => True
    end.

(** A newline token. *)
Definition is_nl (tok : Token) : Prop := type tok = NL.

(** The next token exists and is not a newline. *)
Definition next_not_nl (rest : list Token) : Prop :=
  ∃ tok rest', rest = tok :: rest' ∧ type tok ≠ NL.

(** The three accepted ends of a statement, as tokens: a semicolon or a
    newline, then any number of newlines. *)
Definition terminator (toks : list Token) : Prop :=
  ∃ tok nls, toks = tok :: nls ∧ (type tok = SEMI ∨ type tok = NL) ∧ Forall is_nl nls.

(** Two parser objects that agree on what a method can observe: the tokens
    still to be read and the symbol tables. *)
Definition sim (s1 s2 : Parser) : Prop :=
  remaining s1 = remaining s2
  ∧ products_defined s1 = products_defined s2
  ∧ carousels_defined s1 = carousels_defined s2.

(** A method whose result depends only on what [sim] keeps. *)
Definition local {A} (m : M A) : Prop :=
  ∀ s1 s2, sim s1 s2 → (m s1).1 = (m s2).1 ∧ sim (m s1).2 (m s2).2.

(** The tokens of [toks] pass the tests of [pat], one by one. *)
Definition shaped (pat : list (TokenType * option string)) (toks : list Token) : Prop :=
  Forall2 (λ p tok, matches p.1 p.2 tok = true) pat toks.

(** A run of newline tokens. *)
Definition newlines (toks : list Token) : Prop := Forall is_nl toks.

(** Token lists that are one of [P] followed by one of [Q]. *)
Definition followed_by (P Q : list Token → Prop) (toks : list Token) : Prop :=
  ∃ a b, toks = a ++ b ∧ P a ∧ Q b.
Infix "⋅" := followed_by (at level 40, left associativity).

(** The tokens of a product definition up to the value of MAXIMO: the
    identifier [pid] and the lexemes [d], [mn] and [mx] of the price and
    the two bounds. *)
Definition producto_hasta_maximo (pid d mn mx : string) : list Token → Prop :=
  shaped [(KW, Some "PRODUCTO"); (ID, Some pid)] ⋅ newlines
  ⋅ shaped [(LBRACE, None)] ⋅ newlines
  ⋅ shaped [(KW, Some "PRECIO"); (COLON, None); (DECIMAL, Some d)] ⋅ terminator
  ⋅ shaped [(KW, Some "MINIMO"); (COLON, None); (INT, Some mn)] ⋅ terminator
  ⋅ shaped [(KW, Some "MAXIMO"); (COLON, None); (INT, Some mx)].

(** The rest of a product definition, with criticality [crit]. *)
Definition producto_tras_maximo (crit : string) : list Token → Prop :=
  terminator
  ⋅ shaped [(KW, Some "CRITICIDAD"); (COLON, None); (KW, Some crit)] ⋅ terminator
  ⋅ shaped [(RBRACE, None)] ⋅ newlines.

(** The states of a run of the parser on [toks] in which a token is left
    to read. *)
Definition reading (toks : list Token) (s : Parser) : Prop :=
  tokens s = toks ∧ (pos s < length toks)%nat.

(** The errors a run on scanned tokens can end with: the syntactic ones,
    and the semantic ones whose test can succeed on a lexeme of the
    scanner. *)
Definition expected_error (e : Exn) : Prop :=
  match e with
  | ParseError (ErrorSintactico _ _ _) => True
  | ParseError (ErrorSemantico msg) =>
      msg ≠ PrecioNegativo ∧ ∀ name, msg ≠ ReservadaComoId name
  | _ => False
  end.

(** ** The scenario of the specification *)

(** The lines of a text, each ended by a newline. *)
Fixpoint unlines (ls : list string) : string :=
  match ls with
  | [] => ""
  | l :: ls' => l +:+ String ch_newline (unlines ls')
  end.

(** One carousel (5 slots of capacity 20) with one product (bounds 1 and
    10, high criticality), one restocking of 5 units and one status query;
    the price is written as [precio]. *)
Definition programa_ejemplo (precio : string) : string :=
  unlines [ "CARRUSEL c1 {";
            "  ESPACIOS: 5";
            "  CAPACIDAD: 20";
            "  PRODUCTO p1 {";
            "    PRECIO: " +:+ precio;
            "    MINIMO: 1";
            "    MAXIMO: 10";
            "    CRITICIDAD: ALTA";
            "  }";
            "}";
            "SIMULAR {";
            "  TRANSACCIONES: [RESURTIR(p1, 5)]";
            "  ESTADO";
            "}" ].

(** ** Whole token lists *)

(** From index [k] on, [toks] starts with tokens that pass the tests of
    [pat]. *)
Definition tokens_at (toks : list Token) (k : nat)
    (pat : list (TokenType * option string)) : Prop :=
  ∃ found rest, drop k toks = found ++ rest ∧ shaped pat found.

(** At index [k], a definition introduced by the keyword [kw] names
    [name]. *)
Definition declares (kw : string) (toks : list Token) (k : nat) (name : string) : Prop :=
  tokens_at toks k [(KW, Some kw); (ID, Some name)].

(** The keywords that open a carousel, a product or a transaction. *)
Definition opening_keywords : list string :=
  ["CARRUSEL"; "PRODUCTO"; "RETIRAR"; "RESURTIR"; "CONTAR"].

(** The calls [consume(ttype, val)] that cannot take an opening keyword. *)
Definition plain (ttype : TokenType) (val : option string) : bool :=
  negb (bool_decide (ttype = KW))
  || match val with
     | Some v => negb (bool_decide (v ∈ opening_keywords))
     | None => false
     end.

(** A token that is an opening keyword. *)
Definition opening (tok : Token) : Prop :=
  type tok = KW ∧ value tok ∈ opening_keywords.

(** The states of a run on [toks] that has not read past index [j], with
    what the claim at hand keeps about the symbol tables ([K]). *)
Definition upto (toks : list Token) (j : nat) (K : Parser → Prop) (s : Parser) : Prop :=
  tokens s = toks ∧ (pos s ≤ j)%nat ∧ K s.

(** A raise at or before index [j], or beyond it in the way [Bad] allows. *)
Definition ended (j : nat) (Bad : Exn → Parser → Prop) (e : Exn) (s : Parser) : Prop :=
  (pos s ≤ j)%nat ∨ Bad e s.

(** Index [k] is a place where the grammar wants an identifier: right
    after the keyword of a carousel or of a product, or after the keyword
    of a transaction and its opening parenthesis. *)
Definition identifier_expected (toks : list Token) (k : nat) : Prop :=
  (∃ j kw, kw ∈ ["CARRUSEL"; "PRODUCTO"]
     ∧ tokens_at toks j [(KW, Some kw)] ∧ k = S j)
  ∨ (∃ j kw, kw ∈ ["RETIRAR"; "RESURTIR"; "CONTAR"]
       ∧ tokens_at toks j [(KW, Some kw); (LPAREN, None)] ∧ k = S (S j)).

(** The syntactic error of [consume("ID")] on the token [tok]. *)
Definition esperaba_ID (tok : Token) : Exn :=
  ParseError (ErrorSintactico (line tok) (col tok)
                (Esperaba ID None (type tok) (value tok))).

(** At index [j] stands a transaction on the product [pid], of [n]
    tokens. *)
Definition transaction_at (toks : list Token) (j : nat) (pid : string) (n : nat) : Prop :=
  (∃ kw, kw ∈ ["RETIRAR"; "RESURTIR"]
     ∧ tokens_at toks j [(KW, Some kw); (LPAREN, None); (ID, Some pid);
                         (COMMA, None); (INT, None); (RPAREN, None)]
     ∧ n = 6%nat)
  ∨ (tokens_at toks j [(KW, Some "CONTAR"); (LPAREN, None); (ID, Some pid);
                       (RPAREN, None)]
     ∧ n = 4%nat).

(** The tokens of a text that scans. *)
Definition tokens_of (text : string) : list Token :=
  match tokenize text with
  | Ok toks => toks
  | _ => []
  end.

(** A carousel, then a second one with the same identifier. *)
Definition ejemplo_carrusel_duplicado : string :=
  unlines [ "CARRUSEL a {";
            "  ESPACIOS: 1";
            "  CAPACIDAD: 1";
            "}";
            "CARRUSEL a { no se lee" ].

(** A transaction on a product that is nowhere defined. *)
Definition ejemplo_producto_no_definido : string :=
  unlines [ "SIMULAR {";
            "  TRANSACCIONES: [CONTAR(p2)]";
            "}" ].

(** A reserved word where the identifier of a carousel is expected. *)
Definition ejemplo_reservada : string :=
  unlines [ "CARRUSEL PRODUCTO {";
            "}" ].

(** A token of the examples; its position plays no role. *)
Definition tok (ttype : TokenType) (val : string) : Token := mkToken ttype val 0 0.

(** The tokens of a product definition whose bounds are both 3, up to the
    value of MAXIMO, and the tokens after it. *)
Definition ejemplo_hasta_maximo : list Token :=
  [tok KW "PRODUCTO"; tok ID "p1"] ++ [] ++ [tok LBRACE "{"] ++ [tok NL "\n"]
  ++ [tok KW "PRECIO"; tok COLON ":"; tok DECIMAL "1.50"] ++ [tok NL "\n"]
  ++ [tok KW "MINIMO"; tok COLON ":"; tok INT "3"] ++ [tok SEMI ";"; tok NL "\n"]
  ++ [tok KW "MAXIMO"; tok COLON ":"; tok INT "3"].

Definition ejemplo_tras_maximo : list Token :=
  [tok NL "\n"] ++ [tok KW "CRITICIDAD"; tok COLON ":"; tok KW "BAJA"]
  ++ [tok SEMI ";"] ++ [tok RBRACE "}"] ++ [tok NL "\n"; tok NL "\n"].

(** A parser object on which the product p1 is defined, about to read the
    tokens [entry] of a transaction. *)
Definition ejemplo_tx (entry : list Token) : Parser :=
  mkParser (entry ++ [tok RBRACKET "]"; tok EOF ""]) 0 {[ "p1" ]} ∅.

Definition ejemplo_contar : list Token :=
  [tok KW "CONTAR"; tok LPAREN "("; tok ID "p1"; tok RPAREN ")"].

Definition ejemplo_retirar_cero : list Token :=
  [tok KW "RETIRAR"; tok LPAREN "("; tok ID "p1"; tok COMMA ","; tok INT "0";
   tok RPAREN ")"].

(** A carousel and no simulation. *)
Definition ejemplo_carrusel_solo : string :=
  unlines [ "CARRUSEL a {";
            "  ESPACIOS: 1";
            "  CAPACIDAD: 1";
            "}" ].

(** The two parameters of a carousel, the second with the value 0. *)
Definition ejemplo_espacios : list Token :=
  [tok KW "ESPACIOS"; tok COLON ":"; tok INT "4"].

Definition ejemplo_capacidad_cero : list Token :=
  [tok KW "CAPACIDAD"; tok COLON ":"; tok INT "0"].

(** The tokens of one transaction that passes the semantic check when the
    products of [defined] are the defined ones. *)
Definition valid_entry (defined : gset string) (entry : list Token) : Prop :=
  ∃ pid, pid ∈ defined
    ∧ ((∃ kw q qty, kw ∈ ["RETIRAR"; "RESURTIR"]
          ∧ shaped [(KW, Some kw); (LPAREN, None); (ID, Some pid); (COMMA, None);
                    (INT, Some q); (RPAREN, None)] entry
          ∧ py_int q = Some qty ∧ 0 < qty)
       ∨ shaped [(KW, Some "CONTAR"); (LPAREN, None); (ID, Some pid);
                 (RPAREN, None)] entry).

(** What may follow the first transaction of a list: a comma, any number
    of newlines and a valid transaction, any number of times. *)
Inductive more_entries (defined : gset string) : list Token → Prop :=
  | more_entries_nil : more_entries defined []
  | more_entries_cons comma nls entry more :
      type comma = COMMA → newlines nls → valid_entry defined entry →
      more_entries defined more →
      more_entries defined (comma :: nls ++ entry ++ more).

(** A token that opens no transaction. *)
Definition no_tx_keyword (tok : Token) : Prop :=
  ∀ kw, kw ∈ ["RETIRAR"; "RESURTIR"; "CONTAR"] → matches KW (Some kw) tok = false.

Definition ejemplo_retirar : list Token :=
  [tok KW "RETIRAR"; tok LPAREN "("; tok ID "p1"; tok COMMA ","; tok INT "2";
   tok RPAREN ")"].

(** ** Vocabulary of the statements on the scanner *)

(** The number of newline characters of [s]. *)
Fixpoint count_newlines (s : string) : Z :=
  match s with
  | String c s' => (if bool_decide (c = ch_newline) then 1 else 0) + count_newlines s'
  | EmptyString => 0
  end.

(** [ln] and [cl] are the line and the column of the character that comes
    right after the prefix [pre] of a text: [pre] is made of whole lines
    and of a part [last] of a line; the line is one more than the number
    of the newlines, the column one more than the length of [last]. *)
Definition position_after (pre : string) (ln cl : Z) : Prop :=
  ∃ lines last,
    pre = lines +:+ last
    ∧ (lines = "" ∨ ∃ l, lines = l +:+ String ch_newline "")
    ∧ all_chars not_newline last
    ∧ ln = 1 + count_newlines lines
    ∧ cl = 1 + Z.of_nat (String.length last).

(** The token [tok] stands in [text] where its line and column say: after
    a prefix [pre] comes its lexeme, which is its value, but for a newline
    token, whose value is the two characters of the escape. *)
Definition located (text : string) (tok : Token) : Prop :=
  ∃ pre lexeme post,
    text = pre +:+ lexeme +:+ post
    ∧ position_after pre (line tok) (col tok)
    ∧ lexeme ≠ ""
    ∧ if bool_decide (type tok = NL) then lexeme = String ch_newline ""
      else lexeme = value tok.

(** The lexeme of a token has the shape of its type. *)
Definition well_typed (tok : Token) : Prop :=
  match type tok with
  | NL => value tok = "\n"
  | STRING =>
      ∃ body, value tok = String ch_quote (body +:+ String ch_quote "")
  | DECIMAL =>
      ∃ ent frac, value tok = ent +:+ String "."%char frac
        ∧ ent ≠ "" ∧ frac ≠ "" ∧ all_chars is_digit ent ∧ all_chars is_digit frac
  | INT => value tok ≠ "" ∧ all_chars is_digit (value tok)
  | KW | ID =>
      (∃ c s, value tok = String c s ∧ is_alpha c = true ∧ all_chars is_id_char s)
      ∧ in_RESERVED (value tok) = bool_decide (type tok = KW)
  | EOF => value tok = ""
  | symbol => ∃ ch, value tok = String ch "" ∧ SYMBOLS ch = Some symbol
  end.

(** The characters on which a round of the scanner raises its error: those
    that start no pattern, and the quote of a string that is not closed on
    the characters [rest] that follow it. *)
Definition invalid_start (c : ascii) (rest : string) : Prop :=
  c ≠ ch_newline ∧ is_blank c = false ∧ c ≠ "#"%char ∧ SYMBOLS c = None
  ∧ is_digit c = false ∧ is_alpha c = false
  ∧ (c = ch_quote → string_body rest = None).

(** The locals of the scanner agree with the text: [i] characters are
    read, [line] and [col] are the position of the next one, and every
    token appended so far stands where it says and has the shape of its
    type. *)
Definition scanner_inv (text : string) (st : Scanner) : Prop :=
  ∃ pre,
    text = pre +:+ string_drop (sc_i st) text
    ∧ String.length pre = sc_i st
    ∧ position_after pre (sc_line st) (sc_col st)
    ∧ Forall (λ tok, located text tok ∧ well_typed tok) (sc_tokens st).

(** ** Vocabulary of the statements on the queries *)

(** The error of [consulta] on a token that opens no query. *)
Definition consulta_invalida (e : Exn) : Prop :=
  ∃ ln cl, e = ParseError (ErrorSintactico ln cl ConsultaInvalida).

(** A token that opens a query. *)
Definition opens_consulta (tok : Token) : Prop :=
  matches KW (Some "ESTADO") tok = true
  ∨ matches KW (Some "ESTADISTICAS") tok = true
  ∨ matches KW (Some "REPORTE") tok = true.

(** ** Layouts of the texts that are accepted *)

(** The tokens of a product definition that passes every check. *)
Definition valid_producto (pid : string) (toks : list Token) : Prop :=
  ∃ d mn mx crit price minimo maximo hasta tras,
    toks = hasta ++ tras
    ∧ producto_hasta_maximo pid d mn mx hasta
    ∧ producto_tras_maximo crit tras
    ∧ in_RESERVED pid = false
    ∧ py_float d = Some price ∧ float_lt_0 price = false
    ∧ py_int mn = Some minimo ∧ py_int mx = Some maximo ∧ minimo ≤ maximo
    ∧ crit ∈ ["ALTA"; "MEDIA"; "BAJA"].

(** Product definitions one after the other, with identifiers that are
    new: [valid_catalogo D toks D'] takes the set [D] of the products
    defined before the first to the set [D'] of those defined after the
    last. *)
Inductive valid_catalogo : gset string → list Token → gset string → Prop :=
  | valid_catalogo_nil D : valid_catalogo D [] D
  | valid_catalogo_cons D pid prod prods D' :
      valid_producto pid prod → pid ∉ D →
      valid_catalogo ({[ pid ]} ∪ D) prods D' →
      valid_catalogo D (prod ++ prods) D'.

(** Where a loop over definitions opened by [kw] stops: on a token that
    is neither a newline nor that keyword. *)
Definition ends_loop (kw : string) (rest : list Token) : Prop :=
  ∃ tok rest', rest = tok :: rest' ∧ type tok ≠ NL
    ∧ matches KW (Some kw) tok = false.

(** The tokens of a carousel definition up to its catalogue: the
    identifier [cid] and the lexemes [e] and [c] of the two parameters. *)
Definition carrusel_hasta_catalogo (cid e c : string) : list Token → Prop :=
  shaped [(KW, Some "CARRUSEL"); (ID, Some cid)] ⋅ newlines
  ⋅ shaped [(LBRACE, None)] ⋅ newlines
  ⋅ shaped [(KW, Some "ESPACIOS"); (COLON, None); (INT, Some e)] ⋅ terminator
  ⋅ shaped [(KW, Some "CAPACIDAD"); (COLON, None); (INT, Some c)] ⋅ terminator.

(** The tokens of a carousel definition that passes every check, from the
    products [D] to the products [D']. *)
Definition valid_carrusel (cid : string) (D : gset string) (toks : list Token)
    (D' : gset string) : Prop :=
  ∃ e c espacios capacidad head prods close,
    toks = head ++ prods ++ close
    ∧ carrusel_hasta_catalogo cid e c head
    ∧ valid_catalogo D prods D'
    ∧ (shaped [(RBRACE, None)] ⋅ newlines) close
    ∧ in_RESERVED cid = false
    ∧ py_int e = Some espacios ∧ 0 < espacios
    ∧ py_int c = Some capacidad ∧ 0 < capacidad.

(** Carousel definitions one after the other, with identifiers that are
    new, from the carousels [C] and the products [D] to [C'] and [D']. *)
Inductive valid_definiciones :
    gset string → gset string → list Token → gset string → gset string → Prop :=
  | valid_definiciones_nil C D : valid_definiciones C D [] C D
  | valid_definiciones_cons C D cid car D1 cars C' D' :
      valid_carrusel cid D car D1 → cid ∉ C →
      valid_definiciones ({[ cid ]} ∪ C) D1 cars C' D' →
      valid_definiciones C D (car ++ cars) C' D'.

(** The tokens of a query. *)
Definition valid_consulta (toks : list Token) : Prop :=
  shaped [(KW, Some "ESTADO")] toks
  ∨ shaped [(KW, Some "ESTADISTICAS")] toks
  ∨ shaped [(KW, Some "REPORTE"); (LPAREN, None); (STRING, None); (RPAREN, None)] toks.

(** Queries, each with the end of its statement. *)
Inductive valid_consultas : list Token → Prop :=
  | valid_consultas_nil : valid_consultas []
  | valid_consultas_cons q T qs :
      valid_consulta q → terminator T → valid_consultas qs →
      valid_consultas (q ++ T ++ qs).

(** What stands between the brackets of the block of transactions, after
    the newlines that follow the opening one: nothing, or a list of valid
    transactions. *)
Definition valid_lista (D : gset string) (toks : list Token) : Prop :=
  toks = []
  ∨ ∃ entry more, toks = entry ++ more ∧ valid_entry D entry ∧ more_entries D more.

(** The tokens of a simulation whose transactions are on products of [D]. *)
Definition valid_simulacion (D : gset string) : list Token → Prop :=
  shaped [(KW, Some "SIMULAR")] ⋅ newlines
  ⋅ shaped [(LBRACE, None)] ⋅ newlines
  ⋅ shaped [(KW, Some "TRANSACCIONES"); (COLON, None); (LBRACKET, None)] ⋅ newlines
  ⋅ valid_lista D ⋅ newlines
  ⋅ shaped [(RBRACKET, None)] ⋅ terminator
  ⋅ valid_consultas
  ⋅ shaped [(RBRACE, None)].

(** The tokens of a whole text that passes every check. *)
Definition valid_programa (toks : list Token) : Prop :=
  ∃ nls defs sim nls' eof C D,
    toks = nls ++ defs ++ sim ++ nls' ++ [eof]
    ∧ newlines nls
    ∧ valid_definiciones ∅ ∅ defs C D
    ∧ valid_simulacion D sim
    ∧ newlines nls'
    ∧ type eof = EOF.

(** ** The scenario as tokens *)

(** A product, a carousel that holds it, a simulation with one transaction
    and one query, and the whole text, written as the pieces of their
    layouts. *)
Definition ejemplo_producto : list Token :=
  ejemplo_hasta_maximo ++ ejemplo_tras_maximo.

Definition ejemplo_carrusel : list Token :=
  ([tok KW "CARRUSEL"; tok ID "c1"] ++ [] ++ [tok LBRACE "{"] ++ [tok NL "\n"]
   ++ [tok KW "ESPACIOS"; tok COLON ":"; tok INT "5"] ++ [tok NL "\n"]
   ++ [tok KW "CAPACIDAD"; tok COLON ":"; tok INT "20"] ++ [tok NL "\n"])
  ++ (ejemplo_producto ++ [])
  ++ ([tok RBRACE "}"] ++ [tok NL "\n"]).

Definition ejemplo_simulacion : list Token :=
  [tok KW "SIMULAR"] ++ [] ++ [tok LBRACE "{"] ++ [tok NL "\n"]
  ++ [tok KW "TRANSACCIONES"; tok COLON ":"; tok LBRACKET "["] ++ []
  ++ (ejemplo_retirar ++ tok COMMA "," :: [tok NL "\n"] ++ ejemplo_contar ++ [])
  ++ [] ++ [tok RBRACKET "]"] ++ [tok NL "\n"]
  ++ ([tok KW "ESTADO"] ++ [tok SEMI ";"; tok NL "\n"] ++ [])
  ++ [tok RBRACE "}"].

Definition ejemplo_programa : list Token :=
  [] ++ (ejemplo_carrusel ++ []) ++ ejemplo_simulacion ++ [tok NL "\n"]
  ++ [tok EOF ""].
(** * Properties of the lexer *)

(** ** Strings *)

Lemma take_while_length p s : (String.length (take_while p s) ≤ String.length s)%nat.
Proof. induction s as [|c s IH]; simpl; [lia|]. destruct (p c); simpl; lia. Qed.

Lemma string_drop_length k s :
  String.length (string_drop k s) = (String.length s - k)%nat.
Proof.
  revert s; induction k as [|k IH]; intros [|c s]; simpl; try lia. apply IH.
Qed.

Lemma string_drop_nonempty k s :
  (k < String.length s)%nat → ∃ c s', string_drop k s = String c s'.
Proof.
  intros Hk. pose proof (string_drop_length k s) as Hlen.
  destruct (string_drop k s) as [|c s']; simpl in Hlen; [lia|eauto].
Qed.

Lemma append_cons c (a b : string) : String c a +:+ b = String c (a +:+ b).
Proof. reflexivity. Qed.

Lemma string_app_length (a b : string) :
  String.length (a +:+ b) = (String.length a + String.length b)%nat.
Proof.
  induction a as [|c a IH]; [done|]. rewrite append_cons; simpl. by rewrite IH.
Qed.

Lemma take_while_drop p s :
  take_while p s +:+ string_drop (String.length (take_while p s)) s = s.
Proof.
  induction s as [|c s IH]; simpl; [done|].
  destruct (p c); simpl; [|done]. rewrite append_cons. by rewrite IH.
Qed.

Lemma take_while_all p s : Forall (λ c, p c = true) (list_ascii_of_string (take_while p s)).
Proof.
  induction s as [|c s IH]; simpl; [constructor|].
  destruct (p c) eqn:Hc; simpl; [|constructor]. constructor; done.
Qed.

Lemma all_chars_cons p c s : all_chars p (String c s) ↔ p c = true ∧ all_chars p s.
Proof. unfold all_chars; simpl. apply (Forall_cons (λ c, p c = true)). Qed.

Lemma take_while_app_stop p a c b :
  all_chars p a → p c = false → take_while p (a +:+ String c b) = a.
Proof.
  induction a as [|d a IH]; intros Ha Hc; [by simpl; rewrite Hc|].
  apply all_chars_cons in Ha as [Hd Ha]. rewrite append_cons; simpl.
  rewrite Hd. f_equal. by apply IH.
Qed.

Lemma string_drop_app a b : string_drop (String.length a) (a +:+ b) = b.
Proof.
  induction a as [|c a IH]; [by destruct b|]. rewrite append_cons; simpl. done.
Qed.

(** ** What a pattern matches: a non-empty prefix of the chunk *)

Lemma plus_class_Some p s m :
  plus_class p s = Some m →
  m = take_while p s ∧ (0 < String.length m ≤ String.length s)%nat ∧ all_chars p m.
Proof.
  unfold plus_class. pose proof (take_while_length p s) as Hlen.
  pose proof (take_while_all p s) as Hall.
  destruct (take_while p s) as [|c r] eqn:Htw; [done|].
  intros [= <-]. simpl in *. repeat split; (lia || done).
Qed.

Lemma string_body_length s m :
  string_body s = Some m → (0 < String.length m ≤ String.length s)%nat.
Proof.
  revert m. remember (String.length s) as n eqn:Hn. revert s Hn.
  induction n as [n IH] using lt_wf_ind. intros s -> m.
  destruct s as [|c s]; simpl; [done|].
  case_bool_decide; [intros [= <-]; simpl; lia|].
  case_bool_decide.
  - destruct s as [|d s]; [done|]. case_bool_decide; [done|].
    destruct (string_body s) as [m'|] eqn:Hm'; [|done].
    intros [= <-].
    pose proof (IH (String.length s) ltac:(simpl; lia) s eq_refl _ Hm').
    simpl in *; lia.
  - destruct (string_body s) as [m'|] eqn:Hm'; [|done].
    intros [= <-].
    pose proof (IH (String.length s) ltac:(simpl; lia) s eq_refl _ Hm').
    simpl in *; lia.
Qed.

Lemma RE_NEWLINE_length chunk m :
  RE_NEWLINE chunk = Some m → (0 < String.length m ≤ String.length chunk)%nat.
Proof.
  destruct chunk as [|c s]; simpl; [done|].
  case_bool_decide; [|done]. intros [= <-]; simpl; lia.
Qed.

Lemma RE_WHITESPACE_length chunk m :
  RE_WHITESPACE chunk = Some m → (0 < String.length m ≤ String.length chunk)%nat.
Proof. intros H. by apply plus_class_Some in H as (_ & ? & _). Qed.

Lemma RE_COMMENT_length chunk m :
  RE_COMMENT chunk = Some m → (0 < String.length m ≤ String.length chunk)%nat.
Proof.
  destruct chunk as [|c s]; simpl; [done|].
  case_bool_decide; [|done]. intros [= <-]; simpl.
  pose proof (take_while_length not_newline s). lia.
Qed.

Lemma RE_STRING_length chunk m :
  RE_STRING chunk = Some m → (0 < String.length m ≤ String.length chunk)%nat.
Proof.
  destruct chunk as [|c s]; simpl; [done|].
  case_bool_decide; [|done].
  destruct (string_body s) as [m'|] eqn:Hm'; [|done].
  intros [= <-]. apply string_body_length in Hm'. simpl; lia.
Qed.

(** A decimal lexeme is two non-empty runs of digits around a dot. *)
Lemma RE_DECIMAL_Some chunk m :
  RE_DECIMAL chunk = Some m →
  ∃ ent frac, m = ent +:+ String "."%char frac
    ∧ ent = take_while is_digit chunk
    ∧ ent ≠ "" ∧ frac ≠ "" ∧ all_chars is_digit ent ∧ all_chars is_digit frac
    ∧ (String.length m ≤ String.length chunk)%nat.
Proof.
  unfold RE_DECIMAL.
  destruct (plus_class is_digit chunk) as [ent|] eqn:Hent; [|done].
  apply plus_class_Some in Hent as (Hent & Hlen & Hall).
  destruct (string_drop (String.length ent) chunk) as [|c s'] eqn:Hdrop; [done|].
  case_bool_decide as Hc; [subst c|done].
  destruct (plus_class is_digit s') as [frac|] eqn:Hfrac; [|done].
  apply plus_class_Some in Hfrac as (Hfrac & Hlen' & Hall').
  intros [= <-]. exists ent, frac. repeat split; try done.
  - intros ->; simpl in *; lia.
  - intros ->; simpl in *; lia.
  - pose proof (string_drop_length (String.length ent) chunk) as Hd.
    rewrite Hdrop in Hd. rewrite string_app_length. simpl in *. lia.
Qed.

Lemma RE_DECIMAL_length chunk m :
  RE_DECIMAL chunk = Some m → (0 < String.length m ≤ String.length chunk)%nat.
Proof.
  intros (ent & frac & -> & _ & _ & _ & _ & _ & Hlen)%RE_DECIMAL_Some.
  split; [|done]. rewrite string_app_length; simpl; lia.
Qed.

Lemma RE_INT_length chunk m :
  RE_INT chunk = Some m → (0 < String.length m ≤ String.length chunk)%nat.
Proof. intros H. by apply plus_class_Some in H as (_ & ? & _). Qed.

Lemma RE_ID_length chunk m :
  RE_ID chunk = Some m → (0 < String.length m ≤ String.length chunk)%nat.
Proof.
  destruct chunk as [|c s]; simpl; [done|].
  destruct (is_alpha c); [|done]. intros [= <-]; simpl.
  pose proof (take_while_length is_id_char s). lia.
Qed.

(** ** Lexemes and their values *)

Lemma is_digit_value c : is_digit c = true → 0 ≤ digit_value c ≤ 9.
Proof.
  destruct c as [[] [] [] [] [] [] [] []]; vm_compute; intros ?;
    first [ discriminate | split; discriminate ].
Qed.

Lemma is_digit_not_sign c :
  is_digit c = true → c ≠ "-"%char ∧ c ≠ "+"%char ∧ c ≠ "."%char.
Proof.
  destruct c as [[] [] [] [] [] [] [] []]; vm_compute; intros ?;
    first [ discriminate | repeat split; discriminate ].
Qed.

Lemma digits_value_all s acc :
  all_chars is_digit s → 0 ≤ acc → ∃ n, digits_value acc s = Some n ∧ 0 ≤ n.
Proof.
  revert acc. induction s as [|c s IH]; intros acc Hs Hacc; simpl; [eauto|].
  apply all_chars_cons in Hs as [Hc Hs]. rewrite Hc.
  apply IH; [done|]. apply is_digit_value in Hc. lia.
Qed.

(** [int] of a run of digits is a natural number. *)
Lemma py_int_digits s :
  all_chars is_digit s → s ≠ "" → ∃ n, py_int s = Some n ∧ 0 ≤ n.
Proof.
  intros Hs Hne. destruct s as [|c s]; [done|].
  pose proof Hs as [Hc _]%all_chars_cons.
  apply is_digit_not_sign in Hc as (? & ? & ?).
  unfold py_int. rewrite !bool_decide_eq_false_2 by done.
  unfold unsigned_int. by apply digits_value_all.
Qed.

Lemma all_chars_app p a b : all_chars p a → all_chars p b → all_chars p (a +:+ b).
Proof.
  induction a as [|c a IH]; [done|]. rewrite append_cons, !all_chars_cons.
  intros [? ?] ?; auto.
Qed.

(** [float] of a decimal lexeme is not negative. *)
Lemma py_float_decimal ent frac :
  all_chars is_digit ent → all_chars is_digit frac → ent ≠ "" → frac ≠ "" →
  ∃ d, py_float (ent +:+ String "."%char frac) = Some d ∧ float_lt_0 d = false.
Proof.
  intros Hent Hfrac Hne Hne'.
  assert (unsigned_decimal (ent +:+ String "."%char frac) =
          (λ n, (n, String.length frac)) <$> digits_value 0 (ent +:+ frac)) as Hdec.
  { unfold unsigned_decimal; cbv zeta. rewrite take_while_app_stop by done.
    destruct ent as [|a ent]; [done|].
    rewrite string_drop_app, bool_decide_eq_true_2 by done. by destruct frac. }
  destruct (digits_value_all (ent +:+ frac) 0) as (n & Hn & _);
    [by apply all_chars_app|done|].
  destruct ent as [|c ent]; [done|].
  pose proof Hent as [Hc _]%all_chars_cons.
  apply is_digit_not_sign in Hc as (? & ? & ?).
  unfold py_float. rewrite append_cons, !bool_decide_eq_false_2 by done.
  rewrite <- append_cons, Hdec, Hn. simpl. by eexists.
Qed.

(** ** One round of the scanner *)

Lemma advance_i m st : sc_i (advance m st) = (sc_i st + String.length m)%nat.
Proof. done. Qed.

Lemma advance_tokens m st : sc_tokens (advance m st) = sc_tokens st.
Proof. done. Qed.

Lemma SYMBOLS_lexed ch ttype tok :
  SYMBOLS ch = Some ttype → type tok = ttype → lexed_token tok.
Proof.
  unfold SYMBOLS, lexed_token. intros Hsym ->.
  repeat (destruct (bool_decide _); [by injection Hsym as <-|]). done.
Qed.

(** A round either raises a lexical error or consumes at least one
    character, appending at most one token. *)
Lemma scan_step_spec text st :
  (sc_i st < String.length text)%nat →
  (∃ ch, scan_step text st = Raise (ParseError (ErrorLexico (sc_line st) (sc_col st) ch)))
  ∨ (∃ st' new, scan_step text st = Ok st'
       ∧ (sc_i st < sc_i st' ≤ String.length text)%nat
       ∧ sc_tokens st' = (sc_tokens st ++ new)
       ∧ Forall lexed_token new).
Proof.
  intros Hi. unfold scan_step.
  pose proof (string_drop_length (sc_i st) text) as Hlen.
  destruct (string_drop_nonempty _ _ Hi) as (ch & rest & Hchunk).
  set (chunk := string_drop (sc_i st) text) in *.
  assert (∀ m ttype val, (0 < String.length m ≤ String.length chunk)%nat →
    (∀ tok, type tok = ttype → value tok = val → lexed_token tok) →
    ∃ st' new, Ok (advance m (emit ttype val st)) = Ok st'
       ∧ (sc_i st < sc_i st' ≤ String.length text)%nat
       ∧ sc_tokens st' = (sc_tokens st ++ new)
       ∧ Forall lexed_token new) as Hemit.
  { intros m ttype val Hm Htok. eexists _, [_]. split; [done|].
    rewrite advance_i, advance_tokens; simpl. split; [lia|]. split; [done|].
    constructor; [by apply Htok|constructor]. }
  assert (∀ m, (0 < String.length m ≤ String.length chunk)%nat →
    ∃ st' new, Ok (advance m st) = Ok st'
       ∧ (sc_i st < sc_i st' ≤ String.length text)%nat
       ∧ sc_tokens st' = (sc_tokens st ++ new)
       ∧ Forall lexed_token new) as Hskip.
  { intros m Hm. eexists _, []. split; [done|].
    rewrite advance_i, advance_tokens, app_nil_r. split; [lia|]. split; [done|].
    constructor. }
  destruct (RE_NEWLINE chunk) as [m|] eqn:Hnl.
  { right. apply Hemit; [by apply RE_NEWLINE_length|]. by intros tok Hty _; unfold lexed_token; rewrite Hty. }
  destruct (RE_WHITESPACE chunk) as [m|] eqn:Hws.
  { right. apply Hskip. by apply RE_WHITESPACE_length. }
  destruct (RE_COMMENT chunk) as [m|] eqn:Hcm.
  { right. apply Hskip. by apply RE_COMMENT_length. }
  rewrite Hchunk.
  destruct (SYMBOLS ch) as [ttype|] eqn:Hsym.
  { right. apply Hemit; [rewrite Hchunk; simpl; lia|].
    intros tok Hty _. by eapply SYMBOLS_lexed. }
  rewrite <- Hchunk.
  destruct (RE_STRING chunk) as [m|] eqn:Hstr.
  { right. apply Hemit; [by apply RE_STRING_length|]. by intros tok Hty _; unfold lexed_token; rewrite Hty. }
  destruct (RE_DECIMAL chunk) as [m|] eqn:Hdec.
  { right. apply Hemit; [by apply RE_DECIMAL_length|].
    apply RE_DECIMAL_Some in Hdec as (ent & frac & -> & _ & ? & ? & ? & ? & _).
    intros tok Hty Hval; unfold lexed_token; rewrite Hty, Hval.
    by apply py_float_decimal. }
  destruct (RE_INT chunk) as [m|] eqn:Hint.
  { right. apply Hemit; [by apply RE_INT_length|].
    apply plus_class_Some in Hint as (_ & ? & ?).
    intros tok Hty Hval; unfold lexed_token; rewrite Hty, Hval.
    apply py_int_digits; [done|]. intros ->; simpl in *; lia. }
  destruct (RE_ID chunk) as [m|] eqn:Hid.
  { right. apply Hemit; [by apply RE_ID_length|].
    intros tok Hty Hval; unfold lexed_token; rewrite Hty, Hval.
    by destruct (in_RESERVED m) eqn:?. }
  left. by exists ch.
Qed.

(** ** The scanner loop *)

(** With a round for every character left, the loop ends: it raises a
    lexical error or returns with the whole text consumed. *)
Lemma scan_loop_spec fuel text st :
  (String.length text - sc_i st ≤ fuel)%nat →
  is_lexical_error (scan_loop fuel text st)
  ∨ (∃ st' new, scan_loop fuel text st = Ok st'
       ∧ (String.length text ≤ sc_i st')%nat
       ∧ sc_tokens st' = (sc_tokens st ++ new)
       ∧ Forall lexed_token new).
Proof.
  revert st. induction fuel as [|fuel IH]; intros st Hfuel; simpl.
  - destruct (Nat.ltb_spec (sc_i st) (String.length text)); [lia|].
    right. exists st, []. rewrite app_nil_r. by repeat split.
  - destruct (Nat.ltb_spec (sc_i st) (String.length text)) as [Hi|Hi].
    + destruct (scan_step_spec text st Hi) as [[ch ->]|(st' & new & -> & Hi' & Htoks & Hnew)].
      { left. by eexists _, _, _. }
      destruct (IH st') as [Herr|(st'' & new' & -> & ? & Htoks' & Hnew')]; [lia|by left|].
      right. exists st'', (new ++ new'). repeat split; [done| |by apply Forall_app].
      by rewrite Htoks', Htoks, app_assoc.
    + right. exists st, []. rewrite app_nil_r. by repeat split.
Qed.

(** More rounds than needed change nothing. *)
Lemma scan_loop_more fuel fuel' text st :
  (fuel ≤ fuel')%nat → scan_loop fuel text st ≠ OutOfFuel →
  scan_loop fuel' text st = scan_loop fuel text st.
Proof.
  revert fuel' st. induction fuel as [|fuel IH]; intros fuel' st Hle; simpl.
  - destruct (Nat.ltb_spec (sc_i st) (String.length text)) as [Hi|Hi]; [done|].
    intros _. destruct fuel'; simpl;
      by destruct (Nat.ltb_spec (sc_i st) (String.length text)); [lia|].
  - destruct fuel' as [|fuel']; [lia|]. simpl.
    destruct (sc_i st <? String.length text)%nat; [|done].
    destruct (scan_step text st) as [st'| |]; [|done..].
    apply IH. lia.
Qed.

Lemma tokenize_fuel_more fuel text :
  (String.length text ≤ fuel)%nat → tokenize_fuel fuel text = tokenize text.
Proof.
  intros Hle. unfold tokenize, tokenize_fuel.
  rewrite (scan_loop_more (String.length text) fuel) by first
    [ done
    | destruct (scan_loop_spec (String.length text) text scan_init)
        as [(? & ? & ? & ->)|(? & ? & -> & _)]; [simpl; lia|done..] ].
  done.
Qed.

Lemma tokenize_spec text :
  is_lexical_error (tokenize text)
  ∨ (∃ body ln cl, tokenize text = Ok (body ++ [mkToken EOF "" ln cl])
       ∧ Forall lexed_token body).
Proof.
  unfold tokenize, tokenize_fuel.
  destruct (scan_loop_spec (String.length text) text scan_init)
    as [(ln & cl & ch & ->)|(st' & new & -> & _ & Htoks & Hnew)]; [simpl; lia| |].
  - left. by eexists _, _, _.
  - right. exists new, (sc_line st'), (sc_col st'). simpl. by rewrite Htoks.
Qed.

Lemma tokenize_lexed text toks : tokenize text = Ok toks → lexed toks.
Proof.
  intros Htok. destruct (tokenize_spec text) as [(? & ? & ? & Herr)|(body & ln & cl & Hok & Hbody)].
  - congruence.
  - rewrite Htok in Hok. injection Hok as ->. by eexists _, _.
Qed.

Lemma lexed_token_not_EOF tok : lexed_token tok → type tok ≠ EOF.
Proof. unfold lexed_token. by destruct (type tok). Qed.

Lemma lexed_elem toks tok :
  lexed toks → tok ∈ toks → type tok ≠ EOF → lexed_token tok.
Proof.
  intros (body & eof & -> & Hbody & Heof) [Hin|Hin%list_elem_of_singleton]%elem_of_app Hty.
  - by eapply Forall_forall in Hbody.
  - by subst.
Qed.

(** ** Decimal before integer *)

Lemma digit_first_no_earlier_match c s :
  is_digit c = true →
  RE_NEWLINE (String c s) = None ∧ RE_WHITESPACE (String c s) = None
  ∧ RE_COMMENT (String c s) = None ∧ SYMBOLS c = None
  ∧ RE_STRING (String c s) = None.
Proof.
  destruct c as [[] [] [] [] [] [] [] []]; vm_compute; intros ?;
    first [ discriminate | by repeat split ].
Qed.

Lemma scan_step_decimal text st m :
  RE_DECIMAL (string_drop (sc_i st) text) = Some m →
  scan_step text st = Ok (advance m (emit DECIMAL m st)).
Proof.
  intros Hdec. unfold scan_step. rewrite Hdec.
  apply RE_DECIMAL_Some in Hdec as (ent & frac & _ & Hent & Hne & _ & Hall & _).
  destruct (string_drop (sc_i st) text) as [|c s]; [done|].
  simpl in Hent. destruct (is_digit c) eqn:Hc; [|done].
  by destruct (digit_first_no_earlier_match c s Hc) as (-> & -> & -> & -> & ->).
Qed.

(** C5: the text [12.5] is one DECIMAL token and the end-of-input token; at
    every offset where the decimal pattern matches, the round appends a
    DECIMAL token with the whole match, so the integer pattern is not
    reached there. *)
Theorem decimal_before_int :
  tokenize "12.5" = Ok [mkToken DECIMAL "12.5" 1 1; mkToken EOF "" 1 5]
  ∧ ∀ text st m,
      RE_DECIMAL (string_drop (sc_i st) text) = Some m →
      scan_step text st = Ok (advance m (emit DECIMAL m st)).
Proof. split; [reflexivity|apply scan_step_decimal]. Qed.

Lemma decimal_before_int_witness :
  scan_step "7 12.5" (mkScanner 2 1 3 [mkToken INT "7" 1 1])
  = Ok (mkScanner 6 1 7 [mkToken INT "7" 1 1; mkToken DECIMAL "12.5" 1 3]).
Proof.
  apply (proj2 decimal_before_int "7 12.5" (mkScanner 2 1 3 [mkToken INT "7" 1 1]) "12.5").
  reflexivity.
Defined.

(** C10: a round of the scanner on an offset inside the text raises a lexical
    error or moves the offset forward, never past the end; so [tokenize],
    which runs at most one round per character, either raises a lexical
    error or returns tokens that are not [EOF] followed by exactly one
    [EOF]; allowing more rounds gives the same result. *)
Theorem tokenize_terminates :
  (∀ text st, (sc_i st < String.length text)%nat →
     is_lexical_error (scan_step text st)
     ∨ ∃ st', scan_step text st = Ok st'
         ∧ (sc_i st < sc_i st' ≤ String.length text)%nat)
  ∧ (∀ text,
       is_lexical_error (tokenize text)
       ∨ ∃ body ln cl, tokenize text = Ok (body ++ [mkToken EOF "" ln cl])
           ∧ Forall (λ tok, type tok ≠ EOF) body)
  ∧ (∀ text fuel, (String.length text ≤ fuel)%nat →
       tokenize_fuel fuel text = tokenize text).
Proof.
  split; [|split; [|intros; by apply tokenize_fuel_more]].
  - intros text st Hi.
    destruct (scan_step_spec text st Hi) as [[ch ->]|(st' & new & -> & Hi' & _)].
    + left. by eexists _, _, _.
    + right. by exists st'.
  - intros text.
    destruct (tokenize_spec text) as [Herr|(body & ln & cl & -> & Hbody)]; [by left|].
    right. exists body, ln, cl. split; [done|].
    eapply Forall_impl; [done|]. apply lexed_token_not_EOF.
Qed.

Lemma tokenize_terminates_witness :
  is_lexical_error (scan_step "a@" (mkScanner 1 1 2 [mkToken ID "a" 1 1]))
  ∨ ∃ st', scan_step "a@" (mkScanner 1 1 2 [mkToken ID "a" 1 1]) = Ok st'
      ∧ (1 < sc_i st' ≤ 2)%nat.
Proof.
  apply (proj1 tokenize_terminates "a@" (mkScanner 1 1 2 [mkToken ID "a" 1 1])).
  simpl. lia.
Defined.

(** * Properties of the parser *)

(** ** The monad *)

Lemma bind_assoc {A B C} (m : M A) (f : A → M B) (g : B → M C) s :
  bind (bind m f) g s = bind m (λ x, bind (f x) g) s.
Proof. unfold bind. by destruct (m s) as [[a|e|] s']. Qed.

Lemma bind_Ok {A B} (m : M A) (k : A → M B) s a s' :
  m s = (Ok a, s') → bind m k s = k a s'.
Proof. unfold bind. by intros ->. Qed.

Lemma bind_Raise {A B} (m : M A) (k : A → M B) s e s' :
  m s = (Raise e, s') → bind m k s = (Raise e, s').
Proof. unfold bind. by intros ->. Qed.

(** ** The primitives, by the token under the cursor *)

Lemma current_Some s tok : tokens s !! pos s = Some tok → current s = (Ok tok, s).
Proof. unfold current. by intros ->. Qed.

Lemma current_None s : tokens s !! pos s = None → current s = (Raise IndexError, s).
Proof. unfold current. by intros ->. Qed.

Lemma match_Some s tok ttype val :
  tokens s !! pos s = Some tok → match_ ttype val s = (Ok (matches ttype val tok), s).
Proof.
  intros Htok. unfold match_. rewrite (bind_Ok _ _ _ _ _ (current_Some _ _ Htok)).
  unfold matches. destruct (decide (type tok = ttype)) as [Hty|Hty].
  - rewrite (bool_decide_eq_false_2 (type tok ≠ ttype)) by auto.
    rewrite (bool_decide_eq_true_2 _ Hty). simpl.
    destruct val as [v|]; [|done].
    destruct (decide (value tok = v)) as [Hv|Hv].
    + rewrite (bool_decide_eq_false_2 (value tok ≠ v)) by auto.
      by rewrite (bool_decide_eq_true_2 _ Hv).
    + rewrite (bool_decide_eq_true_2 (value tok ≠ v)) by auto.
      by rewrite (bool_decide_eq_false_2 _ Hv).
  - rewrite (bool_decide_eq_true_2 (type tok ≠ ttype)) by auto.
    by rewrite (bool_decide_eq_false_2 _ Hty).
Qed.

Lemma match_None s ttype val :
  tokens s !! pos s = None → match_ ttype val s = (Raise IndexError, s).
Proof.
  intros Htok. unfold match_. by rewrite (bind_Raise _ _ _ _ _ (current_None _ Htok)).
Qed.

Lemma jump_1 s : (step_pos s).2 = jump 1 s.
Proof. done. Qed.

Lemma consume_Some s tok ttype val :
  tokens s !! pos s = Some tok →
  consume ttype val s =
    if matches ttype val tok then (Ok tok, jump 1 s)
    else (Raise (ParseError (ErrorSintactico (line tok) (col tok)
                   (Esperaba ttype val (type tok) (value tok)))), s).
Proof.
  intros Htok. unfold consume.
  rewrite (bind_Ok _ _ _ _ _ (current_Some _ _ Htok)).
  rewrite (bind_Ok _ _ _ _ _ (match_Some _ _ ttype val Htok)).
  by destruct (matches ttype val tok).
Qed.

Lemma consume_None s ttype val :
  tokens s !! pos s = None → consume ttype val s = (Raise IndexError, s).
Proof.
  intros Htok. unfold consume. by rewrite (bind_Raise _ _ _ _ _ (current_None _ Htok)).
Qed.

Lemma matches_spec ttype val tok :
  matches ttype val tok = true ↔
  type tok = ttype ∧ ∀ v, val = Some v → value tok = v.
Proof.
  unfold matches. rewrite andb_true_iff, bool_decide_eq_true.
  destruct val as [v|]; [rewrite bool_decide_eq_true|].
  - split; [intros [? ?]; split; [done|]; by intros ? [= <-]|].
    intros [? Hv]; split; [done|]. by apply Hv.
  - split; [by intros [? _]|by intros [? _]].
Qed.

(** ** Position and tables only move forward *)

Lemma ext_refl s : (pos s ≤ length (tokens s))%nat → ext s s.
Proof. by repeat split. Qed.

Lemma ext_trans s1 s2 s3 : ext s1 s2 → ext s2 s3 → ext s1 s3.
Proof.
  intros (Ht & Hp & Hpr & Hca) (Ht' & Hp' & Hpr' & Hca').
  rewrite Ht in Hp'. repeat split; [congruence|lia|lia|by etrans..].
Qed.

Lemma ext_bound s s' : ext s s' → (pos s' ≤ length (tokens s'))%nat.
Proof. intros (-> & ? & _). lia. Qed.

Lemma advances_wf {A} (m : M A) : advances m → wf m.
Proof. intros Hm s Hs. by destruct (Hm s Hs) as (? & ? & _). Qed.

Lemma wf_ret {A} (a : A) : wf (ret a).
Proof. intros s Hs. split; [by apply ext_refl|done]. Qed.

Lemma wf_raise {A} e : wf (raise (A:=A) e).
Proof. intros s Hs. split; [by apply ext_refl|done]. Qed.

Lemma advances_raise {A} e : advances (raise (A:=A) e).
Proof. intros s Hs. split; [by apply ext_refl|done]. Qed.

Lemma wf_bind {A B} (m : M A) (k : A → M B) :
  wf m → (∀ a, wf (k a)) → wf (bind m k).
Proof.
  intros Hm Hk s Hs. destruct (Hm s Hs) as [Hext Hfuel]. unfold bind.
  destruct (m s) as [[a|e|] s']; simpl in *; [|done..].
  destruct (Hk a s' (ext_bound _ _ Hext)) as [Hext' Hfuel'].
  split; [by eapply ext_trans|done].
Qed.

Lemma advances_bind_l {A B} (m : M A) (k : A → M B) :
  advances m → (∀ a, wf (k a)) → advances (bind m k).
Proof.
  intros Hm Hk s Hs. destruct (Hm s Hs) as (Hext & Hfuel & Hadv). unfold bind.
  destruct (m s) as [[a|e|] s']; simpl in *; [|done..].
  destruct (Hk a s' (ext_bound _ _ Hext)) as [Hext' Hfuel'].
  split; [by eapply ext_trans|]. split; [done|].
  intros b _. specialize (Hadv a eq_refl). destruct Hext' as (_ & ? & _). lia.
Qed.

Lemma advances_bind_r {A B} (m : M A) (k : A → M B) :
  wf m → (∀ a, advances (k a)) → advances (bind m k).
Proof.
  intros Hm Hk s Hs. destruct (Hm s Hs) as (Hext & Hfuel). unfold bind.
  destruct (m s) as [[a|e|] s']; simpl in *; [|done..].
  destruct (Hk a s' (ext_bound _ _ Hext)) as (Hext' & Hfuel' & Hadv).
  split; [by eapply ext_trans|]. split; [done|].
  intros b Hb. specialize (Hadv b Hb). destruct Hext as (_ & ? & _). lia.
Qed.

Lemma wf_current : wf current.
Proof.
  intros s Hs. unfold current.
  destruct (tokens s !! pos s); (split; [by apply ext_refl|done]).
Qed.

Lemma wf_match_ ttype val : wf (match_ ttype val).
Proof.
  intros s Hs. destruct (tokens s !! pos s) as [tok|] eqn:Htok.
  - rewrite (match_Some _ _ _ _ Htok). split; [by apply ext_refl|done].
  - rewrite (match_None _ _ _ Htok). split; [by apply ext_refl|done].
Qed.

Lemma advances_consume ttype val : advances (consume ttype val).
Proof.
  intros s Hs. destruct (tokens s !! pos s) as [tok|] eqn:Htok.
  - rewrite (consume_Some _ _ _ _ Htok). apply lookup_lt_Some in Htok.
    destruct (matches ttype val tok); simpl.
    + split; [|split; [done|intros _ _; lia]].
      repeat split; simpl; (lia || done).
    + split; [by apply ext_refl|done].
  - rewrite (consume_None _ _ _ Htok). split; [by apply ext_refl|done].
Qed.

Lemma wf_in_carousels_defined cid : wf (in_carousels_defined cid).
Proof. intros s Hs. split; [by apply ext_refl|done]. Qed.

Lemma wf_in_products_defined pid : wf (in_products_defined pid).
Proof. intros s Hs. split; [by apply ext_refl|done]. Qed.

Lemma wf_carousels_defined_add cid : wf (carousels_defined_add cid).
Proof.
  intros s Hs. split; [|done].
  repeat split; simpl; first [ lia | done | apply union_subseteq_r ].
Qed.

Lemma wf_products_defined_add pid : wf (products_defined_add pid).
Proof.
  intros s Hs. split; [|done].
  repeat split; simpl; first [ lia | done | apply union_subseteq_r ].
Qed.

Lemma wf_while_fuel cond body fuel :
  wf cond → advances body →
  ∀ s, (pos s ≤ length (tokens s))%nat → (length (tokens s) - pos s < fuel)%nat →
    ext s (while_fuel fuel cond body s).2 ∧ (while_fuel fuel cond body s).1 ≠ OutOfFuel.
Proof.
  intros Hcond Hbody. induction fuel as [|fuel IH]; intros s Hs Hfuel; [lia|].
  simpl. destruct (Hcond s Hs) as [Hext Hne]. unfold bind.
  destruct (cond s) as [[[]|e|] s1]; simpl in *; [|by split|by split|congruence].
  pose proof (ext_bound _ _ Hext) as Hs1.
  destruct (Hbody s1 Hs1) as (Hext1 & Hne1 & Hadv).
  destruct (body s1) as [[[]|e|] s2]; simpl in *;
    [|split; [by eapply ext_trans|done]|congruence].
  specialize (Hadv () eq_refl).
  destruct (IH s2) as [Hext2 Hne2].
  { by eapply ext_bound. }
  { destruct Hext as (Ht & ? & _), Hext1 as (Ht1 & ? & _).
    rewrite Ht1, Ht. rewrite Ht in *. lia. }
  split; [|done]. eapply ext_trans; [done|]. by eapply ext_trans.
Qed.

Lemma wf_while cond body : wf cond → advances body → wf (while_ cond body).
Proof. intros Hcond Hbody s Hs. apply wf_while_fuel; (done || lia). Qed.

Lemma wf_raise_if cond err : wf err → wf (raise_if cond err).
Proof. intros Herr. destruct cond; [exact Herr|apply wf_ret]. Qed.

Lemma wf_or_else a b : wf a → wf b → wf (or_else a b).
Proof.
  intros Ha Hb. unfold or_else. apply wf_bind; [done|]. intros []; [apply wf_ret|done].
Qed.

Lemma wf_consume ttype val : wf (consume ttype val).
Proof. apply advances_wf, advances_consume. Qed.

Create HintDb wf.
#[global] Hint Resolve wf_ret wf_raise wf_current wf_match_ wf_consume
  wf_in_carousels_defined wf_in_products_defined wf_carousels_defined_add
  wf_products_defined_add wf_raise_if wf_or_else advances_consume
  advances_raise : wf.

Lemma or_else_Some a b s tok t1 v1 :
  tokens s !! pos s = Some tok →
  a = match_ t1 v1 →
  (∃ r, b s = (Ok r, s)) →
  ∃ r, or_else a b s = (Ok r, s).
Proof.
  intros Htok -> [r Hb]. unfold or_else.
  rewrite (bind_Ok _ _ _ _ _ (match_Some _ _ t1 v1 Htok)).
  destruct (matches t1 v1 tok); [by exists true|by exists r].
Qed.

(** The only [self.pos += 1] outside [consume] is guarded by a successful
    [match], so a token is there to step over. *)
Lemma wf_guarded_step {B} t1 v1 t2 v2 t3 v3 (err : M unit) (k : unit → M B) :
  wf err → (∀ u, wf (k u)) →
  wf (crit <- or_else (match_ t1 v1) (or_else (match_ t2 v2) (match_ t3 v3)) ;;
      bind (if crit then step_pos else err) k).
Proof.
  intros Herr Hk s Hs.
  destruct (tokens s !! pos s) as [tok|] eqn:Htok.
  - destruct (or_else_Some (match_ t1 v1) (or_else (match_ t2 v2) (match_ t3 v3))
                s tok t1 v1 Htok eq_refl) as [crit Hcrit].
    { eapply or_else_Some; [done..|]. eexists. by apply match_Some. }
    rewrite (bind_Ok _ _ _ _ _ Hcrit). destruct crit.
    + assert (step_pos s = (Ok (), jump 1 s)) as Hstep by done.
      rewrite (bind_Ok _ _ _ _ _ Hstep).
      apply lookup_lt_Some in Htok.
      destruct (Hk () (jump 1 s)) as [Hext Hne]; [simpl; lia|].
      split; [|done]. eapply ext_trans; [|done].
      repeat split; simpl; (lia || done).
    + exact (wf_bind err k Herr Hk s Hs).
  - unfold or_else.
    rewrite (bind_Raise _ _ _ _ _ (bind_Raise _ _ _ _ _ (match_None _ t1 v1 Htok))).
    split; [by apply ext_refl|done].
Qed.

(** Well-formedness follows the shape of the method. *)
Ltac wf_method :=
  repeat first
    [ progress intros
    | solve [eauto with wf]
    | match goal with
      | |- wf (if ?b then _ else _) => destruct b
      | |- advances (if ?b then _ else _) => destruct b
      | |- wf (match ?o with Some _ => _ | None => _ end) => destruct o
      | |- wf (bind (or_else _ _) (λ crit, bind (if crit then step_pos else _) _)) =>
          apply wf_guarded_step
      | |- wf (bind _ _) => apply wf_bind
      | |- wf (while_ _ _) => apply wf_while
      | |- advances (bind _ _) =>
          first [ apply advances_bind_l; [solve [eauto with wf]|]
                | apply advances_bind_r; [solve [eauto with wf]|] ]
      end ].

Lemma wf_skip_nl : wf skip_nl.
Proof. unfold skip_nl. wf_method. Qed.
#[global] Hint Resolve wf_skip_nl : wf.

Lemma wf_fin : wf fin.
Proof. unfold fin, syntax_error. wf_method. Qed.
#[global] Hint Resolve wf_fin : wf.

Lemma wf_consume_int : wf consume_int.
Proof. unfold consume_int. wf_method. Qed.

Lemma wf_consume_float : wf consume_float.
Proof. unfold consume_float. wf_method. Qed.
#[global] Hint Resolve wf_consume_int wf_consume_float : wf.

Lemma wf_parametros : wf parametros.
Proof. unfold parametros, semantic_error. wf_method. Qed.
#[global] Hint Resolve wf_parametros : wf.

Lemma advances_def_producto : advances def_producto.
Proof. unfold def_producto, semantic_error, syntax_error. wf_method. Qed.
#[global] Hint Resolve advances_def_producto : wf.

Lemma wf_catalogo : wf catalogo.
Proof. unfold catalogo. wf_method. Qed.
#[global] Hint Resolve wf_catalogo : wf.

Lemma advances_def_carrusel : advances def_carrusel.
Proof. unfold def_carrusel, semantic_error. wf_method. Qed.
#[global] Hint Resolve advances_def_carrusel : wf.

Lemma wf_definiciones : wf definiciones.
Proof. unfold definiciones. wf_method. Qed.

Lemma wf_check_tx_semantics pid qty : wf (check_tx_semantics pid qty).
Proof. unfold check_tx_semantics, semantic_error. wf_method. Qed.
#[global] Hint Resolve wf_definiciones wf_check_tx_semantics : wf.

Lemma wf_tx : wf tx.
Proof. unfold tx, syntax_error. wf_method. Qed.
#[global] Hint Resolve wf_tx : wf.

Lemma wf_lista_tx : wf lista_tx.
Proof. unfold lista_tx. wf_method. Qed.
#[global] Hint Resolve wf_lista_tx : wf.

Lemma wf_bloque_transacciones : wf bloque_transacciones.
Proof. unfold bloque_transacciones, syntax_error. wf_method. Qed.
#[global] Hint Resolve wf_bloque_transacciones : wf.

Lemma advances_consulta : advances consulta.
Proof. unfold consulta, syntax_error. wf_method. Qed.
#[global] Hint Resolve advances_consulta : wf.

Lemma wf_simulacion : wf simulacion.
Proof. unfold simulacion. wf_method. Qed.
#[global] Hint Resolve wf_simulacion : wf.

Lemma wf_programa : wf programa.
Proof. unfold programa. wf_method. Qed.

(** No run of the parser hits the bound of a loop. *)
Lemma parse_fuel toks : (parse toks).1 ≠ OutOfFuel.
Proof. apply wf_programa. simpl. lia. Qed.

(** ** Running a method on the tokens ahead *)

Lemma remaining_lookup s k : remaining s !! k = tokens s !! (pos s + k)%nat.
Proof. unfold remaining. apply lookup_drop. Qed.

Lemma remaining_cons s tok rest :
  remaining s = tok :: rest → tokens s !! pos s = Some tok.
Proof.
  intros Hrem. pose proof (remaining_lookup s 0) as H0.
  rewrite Hrem, Nat.add_0_r in H0. done.
Qed.

Lemma remaining_nil s : remaining s = [] → tokens s !! pos s = None.
Proof.
  intros Hrem. pose proof (remaining_lookup s 0) as H0.
  rewrite Hrem, Nat.add_0_r in H0. done.
Qed.

Lemma remaining_jump k s : remaining (jump k s) = drop k (remaining s).
Proof. unfold remaining; simpl. by rewrite drop_drop, Nat.add_comm. Qed.

Lemma remaining_jump_1 s tok rest :
  remaining s = tok :: rest → remaining (jump 1 s) = rest.
Proof. intros Hrem. by rewrite remaining_jump, Hrem. Qed.

Lemma remaining_jump_app s l rest :
  remaining s = l ++ rest → remaining (jump (length l) s) = rest.
Proof. intros Hrem. by rewrite remaining_jump, Hrem, drop_app_length. Qed.

Lemma remaining_length s :
  length (remaining s) = (length (tokens s) - pos s)%nat.
Proof. unfold remaining. apply length_drop. Qed.

Lemma jump_0 s : jump 0 s = s.
Proof. by destruct s. Qed.

Lemma jump_jump a b s : jump a (jump b s) = jump (b + a) s.
Proof. unfold jump; simpl. f_equal. lia. Qed.

Lemma current_cons s tok rest : remaining s = tok :: rest → current s = (Ok tok, s).
Proof. intros Hrem. by eapply current_Some, remaining_cons. Qed.

Lemma match_cons s tok rest ttype val :
  remaining s = tok :: rest → match_ ttype val s = (Ok (matches ttype val tok), s).
Proof. intros Hrem. by eapply match_Some, remaining_cons. Qed.

Lemma consume_cons s tok rest ttype val :
  remaining s = tok :: rest → matches ttype val tok = true →
  consume ttype val s = (Ok tok, jump 1 s).
Proof.
  intros Hrem Hm. rewrite (consume_Some s tok) by by eapply remaining_cons.
  by rewrite Hm.
Qed.

Lemma consume_cons_fail s tok rest ttype val :
  remaining s = tok :: rest → matches ttype val tok = false →
  consume ttype val s =
    (Raise (ParseError (ErrorSintactico (line tok) (col tok)
              (Esperaba ttype val (type tok) (value tok)))), s).
Proof.
  intros Hrem Hm. rewrite (consume_Some s tok) by by eapply remaining_cons.
  by rewrite Hm.
Qed.

Lemma matches_type ttype tok : matches ttype None tok = bool_decide (type tok = ttype).
Proof. unfold matches. by rewrite andb_true_r. Qed.

(** ** [skip_nl] and [fin] *)

Lemma while_skip_nl fuel s nls rest :
  (length nls < fuel)%nat → remaining s = nls ++ rest → Forall is_nl nls →
  next_not_nl rest →
  while_fuel fuel (match_ NL None) (consume NL None ;; ret ()) s
  = (Ok (), jump (length nls) s).
Proof.
  revert fuel s. induction nls as [|nl nls IH]; intros fuel s Hfuel Hrem Hnls Hrest.
  - destruct Hrest as (tok & rest' & -> & Hty). simpl in Hrem.
    destruct fuel as [|fuel]; [simpl in Hfuel; lia|]. simpl.
    rewrite (bind_Ok _ _ _ _ _ (match_cons _ _ _ NL None Hrem)).
    rewrite matches_type, bool_decide_eq_false_2 by done. by rewrite jump_0.
  - destruct fuel as [|fuel]; [simpl in Hfuel; lia|]. simpl in Hrem |- *.
    apply Forall_cons in Hnls as [Hnl Hnls].
    assert (matches NL None nl = true) as Hm.
    { by rewrite matches_type, bool_decide_eq_true_2. }
    rewrite (bind_Ok _ _ _ _ _ (match_cons _ _ _ NL None Hrem)), Hm.
    rewrite (bind_Ok _ _ _ _ _
      (bind_Ok _ _ _ _ _ (consume_cons _ _ _ NL None Hrem Hm))).
    rewrite (IH fuel (jump 1 s)); [|simpl in Hfuel; lia|by eapply remaining_jump_1|done..].
    by rewrite jump_jump.
Qed.

(** [skip_nl] steps over the run of newlines ahead, and nothing else. *)
Lemma skip_nl_run s nls rest :
  remaining s = nls ++ rest → Forall is_nl nls → next_not_nl rest →
  skip_nl s = (Ok (), jump (length nls) s).
Proof.
  intros Hrem Hnls Hrest. unfold skip_nl, while_.
  apply while_skip_nl with rest; [|done..].
  rewrite <- remaining_length, Hrem, length_app.
  destruct Hrest as (? & ? & -> & _). simpl. lia.
Qed.

Lemma skip_nl_none s rest : remaining s = rest → next_not_nl rest → skip_nl s = (Ok (), s).
Proof.
  intros Hrem Hrest. rewrite (skip_nl_run s [] rest) by done. by rewrite jump_0.
Qed.

Lemma fin_run s T rest :
  remaining s = T ++ rest → terminator T → next_not_nl rest →
  fin s = (Ok (), jump (length T) s).
Proof.
  intros Hrem (tok & nls & -> & Htok & Hnls) Hrest. simpl in Hrem. unfold fin.
  rewrite (bind_Ok _ _ _ _ _ (match_cons _ _ _ SEMI None Hrem)), matches_type.
  destruct Htok as [Hsemi|Hnl].
  - rewrite bool_decide_eq_true_2 by done.
    rewrite (bind_Ok _ _ _ _ _ (consume_cons _ _ _ SEMI None Hrem
      ltac:(by rewrite matches_type, bool_decide_eq_true_2))).
    rewrite (skip_nl_run (jump 1 s) nls rest); [|by eapply remaining_jump_1|done..].
    by rewrite jump_jump.
  - rewrite bool_decide_eq_false_2 by congruence.
    rewrite (bind_Ok _ _ _ _ _ (match_cons _ _ _ NL None Hrem)), matches_type.
    rewrite bool_decide_eq_true_2 by done.
    apply (skip_nl_run s (tok :: nls) rest); [done| |done]. by constructor.
Qed.

Lemma fin_fail s tok rest :
  remaining s = tok :: rest → type tok ≠ SEMI → type tok ≠ NL →
  fin s = (Raise (ParseError (ErrorSintactico (line tok) (col tok) EsperabaFin)), s).
Proof.
  intros Hrem Hsemi Hnl. unfold fin.
  rewrite (bind_Ok _ _ _ _ _ (match_cons _ _ _ SEMI None Hrem)), matches_type.
  rewrite bool_decide_eq_false_2 by done.
  rewrite (bind_Ok _ _ _ _ _ (match_cons _ _ _ NL None Hrem)), matches_type.
  rewrite bool_decide_eq_false_2 by done.
  by rewrite (bind_Ok _ _ _ _ _ (current_cons _ _ _ Hrem)).
Qed.

(** ** Methods only look ahead *)

Lemma sim_refl s : sim s s.
Proof. done. Qed.

Lemma sim_lookup s1 s2 : sim s1 s2 → tokens s1 !! pos s1 = tokens s2 !! pos s2.
Proof.
  intros (Hrem & _). pose proof (remaining_lookup s1 0) as H1.
  pose proof (remaining_lookup s2 0) as H2.
  rewrite Nat.add_0_r in H1, H2. by rewrite <- H1, <- H2, Hrem.
Qed.

Lemma sim_jump k s1 s2 : sim s1 s2 → sim (jump k s1) (jump k s2).
Proof.
  intros (Hrem & Hp & Hc). split; [|done]. by rewrite !remaining_jump, Hrem.
Qed.

Lemma local_ret {A} (a : A) : local (ret a).
Proof. by intros s1 s2 Hsim. Qed.

Lemma local_raise {A} e : local (raise (A:=A) e).
Proof. by intros s1 s2 Hsim. Qed.

Lemma local_out_of_fuel {A} : local (out_of_fuel (A:=A)).
Proof. by intros s1 s2 Hsim. Qed.

Lemma local_bind {A B} (m : M A) (k : A → M B) :
  local m → (∀ a, local (k a)) → local (bind m k).
Proof.
  intros Hm Hk s1 s2 Hsim. destruct (Hm s1 s2 Hsim) as [Hr Hs]. unfold bind.
  destruct (m s1) as [r1 s1'], (m s2) as [r2 s2']; simpl in *. subst r2.
  destruct r1 as [a|e|]; simpl; [by apply Hk|done..].
Qed.

Lemma local_current : local current.
Proof.
  intros s1 s2 Hsim. unfold current. rewrite (sim_lookup _ _ Hsim).
  by destruct (tokens s2 !! pos s2).
Qed.

Lemma local_match_ ttype val : local (match_ ttype val).
Proof.
  unfold match_. apply local_bind; [apply local_current|]. intros tok.
  case_bool_decide; [apply local_ret|].
  destruct val; [case_bool_decide|]; apply local_ret.
Qed.

Lemma local_step_pos : local step_pos.
Proof. intros s1 s2 Hsim. split; [done|]. by apply (sim_jump 1). Qed.

Lemma local_in_carousels_defined cid : local (in_carousels_defined cid).
Proof. intros s1 s2 (? & ? & Hc). unfold in_carousels_defined; simpl. by rewrite Hc. Qed.

Lemma local_in_products_defined pid : local (in_products_defined pid).
Proof. intros s1 s2 (? & Hp & ?). unfold in_products_defined; simpl. by rewrite Hp. Qed.

Lemma local_carousels_defined_add cid : local (carousels_defined_add cid).
Proof. intros s1 s2 (? & ? & Hc). split; [done|]. split; [done|]. simpl. by rewrite Hc. Qed.

Lemma local_products_defined_add pid : local (products_defined_add pid).
Proof. intros s1 s2 (? & Hp & ?). split; [done|]. split; [done|]. simpl. by rewrite Hp. Qed.

Lemma local_while_fuel fuel cond body :
  local cond → local body → local (while_fuel fuel cond body).
Proof.
  intros Hcond Hbody. induction fuel as [|fuel IH]; simpl.
  - apply local_bind; [done|]. intros []; [apply local_out_of_fuel|apply local_ret].
  - apply local_bind; [done|]. intros []; [|apply local_ret]. by apply local_bind.
Qed.

Lemma local_while cond body : local cond → local body → local (while_ cond body).
Proof.
  intros Hcond Hbody s1 s2 Hsim. unfold while_.
  rewrite <- !remaining_length. destruct Hsim as (Hrem & Hp & Hc). rewrite Hrem.
  by apply local_while_fuel.
Qed.

Create HintDb local.
#[global] Hint Resolve local_ret local_raise local_current local_match_ local_step_pos
  local_in_carousels_defined local_in_products_defined
  local_carousels_defined_add local_products_defined_add : local.

Ltac local_method :=
  repeat first
    [ progress intros
    | solve [eauto with local]
    | match goal with
      | |- local (if ?b then _ else _) => destruct b
      | |- local (match ?o with Some _ => _ | None => _ end) => destruct o
      | |- local (bind _ _) => apply local_bind
      | |- local (while_ _ _) => apply local_while
      end ].

Lemma local_consume ttype val : local (consume ttype val).
Proof. unfold consume, syntax_error. local_method. Qed.
#[global] Hint Resolve local_consume : local.

Lemma local_raise_if cond err : local err → local (raise_if cond err).
Proof. intros Herr. destruct cond; [exact Herr|apply local_ret]. Qed.

Lemma local_or_else a b : local a → local b → local (or_else a b).
Proof. intros Ha Hb. unfold or_else. local_method. Qed.
#[global] Hint Resolve local_raise_if local_or_else : local.

Lemma local_skip_nl : local skip_nl.
Proof. unfold skip_nl. local_method. Qed.
#[global] Hint Resolve local_skip_nl : local.

Lemma local_fin : local fin.
Proof. unfold fin, syntax_error. local_method. Qed.
#[global] Hint Resolve local_fin : local.

Lemma local_consume_int : local consume_int.
Proof. unfold consume_int. local_method. Qed.

Lemma local_consume_float : local consume_float.
Proof. unfold consume_float. local_method. Qed.
#[global] Hint Resolve local_consume_int local_consume_float : local.

Lemma local_parametros : local parametros.
Proof. unfold parametros, semantic_error. local_method. Qed.

Lemma local_def_producto : local def_producto.
Proof. unfold def_producto, semantic_error, syntax_error. local_method. Qed.
#[global] Hint Resolve local_parametros local_def_producto : local.

Lemma local_catalogo : local catalogo.
Proof. unfold catalogo. local_method. Qed.
#[global] Hint Resolve local_catalogo : local.

Lemma local_def_carrusel : local def_carrusel.
Proof. unfold def_carrusel, semantic_error. local_method. Qed.
#[global] Hint Resolve local_def_carrusel : local.

Lemma local_definiciones : local definiciones.
Proof. unfold definiciones. local_method. Qed.

Lemma local_check_tx_semantics pid qty : local (check_tx_semantics pid qty).
Proof. unfold check_tx_semantics, semantic_error. local_method. Qed.
#[global] Hint Resolve local_definiciones local_check_tx_semantics : local.

Lemma local_tx : local tx.
Proof. unfold tx, syntax_error. local_method. Qed.
#[global] Hint Resolve local_tx : local.

Lemma local_lista_tx : local lista_tx.
Proof. unfold lista_tx. local_method. Qed.
#[global] Hint Resolve local_lista_tx : local.

Lemma local_bloque_transacciones : local bloque_transacciones.
Proof. unfold bloque_transacciones, syntax_error. local_method. Qed.

Lemma local_consulta : local consulta.
Proof. unfold consulta, syntax_error. local_method. Qed.
#[global] Hint Resolve local_bloque_transacciones local_consulta : local.

Lemma local_simulacion : local simulacion.
Proof. unfold simulacion. local_method. Qed.
#[global] Hint Resolve local_simulacion : local.

Lemma local_programa : local programa.
Proof. unfold programa. local_method. Qed.

(** ** Symbolic runs *)

Lemma matches_inv ttype val tok :
  matches ttype val tok = true →
  ∃ v ln cl, tok = mkToken ttype v ln cl ∧ ∀ x, val = Some x → v = x.
Proof.
  intros [Hty Hval]%matches_spec. destruct tok as [ty v ln cl]; simpl in *.
  subst ty. by exists v, ln, cl.
Qed.

Lemma shaped_nil toks : shaped [] toks → toks = [].
Proof. apply Forall2_nil_inv_l. Qed.

Lemma shaped_cons ttype val pat toks :
  shaped ((ttype, val) :: pat) toks →
  ∃ v ln cl toks', toks = mkToken ttype v ln cl :: toks'
    ∧ (∀ x, val = Some x → v = x) ∧ shaped pat toks'.
Proof.
  intros (tok & toks' & Hm & Hrest & ->)%Forall2_cons_inv_l. simpl in Hm.
  apply matches_inv in Hm as (v & ln & cl & -> & Hv). by exists v, ln, cl, toks'.
Qed.

(** Turn a hypothesis [shaped pat toks] into the explicit list of tokens. *)
Ltac shaped_inv H :=
  repeat
    (let v := fresh "v" in let ln := fresh "ln" in let cl := fresh "cl" in
     let Hv := fresh "Hv" in
     apply shaped_cons in H as (v & ln & cl & ? & -> & Hv & H);
     first [ specialize (Hv _ eq_refl); subst v | clear Hv ]);
  apply shaped_nil in H as ->.

Lemma next_not_nl_cons tok rest : type tok ≠ NL → next_not_nl (tok :: rest).
Proof. intros Hty. by exists tok, rest. Qed.

Lemma bind_ret_if {B} (b : bool) (e : M unit) (k : unit → M B) s :
  b = false → bind (raise_if b e) k s = k () s.
Proof. by intros ->. Qed.

Lemma bind_raise_if {B} (b : bool) e (k : unit → M B) s :
  b = true → bind (raise_if b (raise e)) k s = (Raise e, s).
Proof. by intros ->. Qed.

(** One step of a run: the first call of a sequence, on the tokens that
    [remaining] is known to start with. *)
Ltac run_step :=
  cbv beta iota zeta; cbn [value type line col];
  lazymatch goal with
  | |- bind (consume ?ty ?val) ?k ?s = _ =>
      lazymatch goal with
      | Hrem : remaining s = ?tok :: ?rest |- _ =>
          first
            [ rewrite (bind_Ok _ k s _ _ (consume_cons s tok rest ty val Hrem eq_refl));
              let H := fresh "Hrem" in
              pose proof (remaining_jump_1 s tok rest Hrem) as H
            | rewrite (bind_Raise _ k s _ _
                         (consume_cons_fail s tok rest ty val Hrem eq_refl)) ]
      end
  | |- bind (match_ ?ty ?val) ?k ?s = _ =>
      lazymatch goal with
      | Hrem : remaining s = ?tok :: ?rest |- _ =>
          rewrite (bind_Ok _ k s _ _ (match_cons s tok rest ty val Hrem));
          let b := eval vm_compute in (matches ty val tok) in
          change (matches ty val tok) with b; cbv iota
      end
  | |- bind current ?k ?s = _ =>
      lazymatch goal with
      | Hrem : remaining s = ?tok :: ?rest |- _ =>
          rewrite (bind_Ok _ k s _ _ (current_cons s tok rest Hrem))
      end
  | |- bind (bind _ _) _ _ = _ => rewrite bind_assoc
  | |- bind (ret ?a) ?k ?s = _ => change (bind (ret a) k s) with (k a s)
  end.

Lemma consume_int_cons s v ln cl rest n :
  remaining s = mkToken INT v ln cl :: rest → py_int v = Some n →
  consume_int s = (Ok n, jump 1 s).
Proof.
  intros Hrem Hn. unfold consume_int.
  rewrite (bind_Ok _ _ _ _ _ (consume_cons _ _ _ INT None Hrem eq_refl)).
  simpl. by rewrite Hn.
Qed.

Lemma consume_float_cons s v ln cl rest d :
  remaining s = mkToken DECIMAL v ln cl :: rest → py_float v = Some d →
  consume_float s = (Ok d, jump 1 s).
Proof.
  intros Hrem Hd. unfold consume_float.
  rewrite (bind_Ok _ _ _ _ _ (consume_cons _ _ _ DECIMAL None Hrem eq_refl)).
  simpl. by rewrite Hd.
Qed.

Lemma check_tx_undefined pid qty s :
  pid ∉ products_defined s →
  check_tx_semantics pid qty s
  = (Raise (ParseError (ErrorSemantico (ProductoNoDefinido pid))), s).
Proof.
  intros Hpid. unfold check_tx_semantics, bind, in_products_defined.
  by rewrite bool_decide_eq_false_2.
Qed.

Lemma check_tx_defined pid qty s :
  pid ∈ products_defined s →
  check_tx_semantics pid qty s
  = if (qty <=? 0)%Z
    then (Raise (ParseError (ErrorSemantico CantidadNoPositiva)), s)
    else (Ok (), s).
Proof.
  intros Hpid. unfold check_tx_semantics, bind, in_products_defined.
  rewrite bool_decide_eq_true_2 by done. simpl. by destruct (qty <=? 0)%Z.
Qed.

(** The three forms of a transaction, run up to the semantic check. *)
Lemma tx_retirar s entry rest pid q qty :
  remaining s = entry ++ rest →
  shaped [(KW, Some "RETIRAR"); (LPAREN, None); (ID, Some pid); (COMMA, None);
          (INT, Some q); (RPAREN, None)] entry →
  py_int q = Some qty →
  tx s = check_tx_semantics pid qty (jump 6 s).
Proof.
  intros Hrem Hentry Hq. shaped_inv Hentry. simpl in Hrem. unfold tx.
  do 4 run_step.
  rewrite (bind_Ok _ _ _ _ _ (consume_cons _ _ _ COMMA None Hrem2 eq_refl)).
  pose proof (remaining_jump_1 _ _ _ Hrem2) as Hrem3.
  rewrite (bind_Ok _ _ _ _ _ (consume_int_cons _ _ _ _ _ _ Hrem3 Hq)).
  pose proof (remaining_jump_1 _ _ _ Hrem3) as Hrem4.
  run_step. by rewrite !jump_jump.
Qed.

Lemma tx_resurtir s entry rest pid q qty :
  remaining s = entry ++ rest →
  shaped [(KW, Some "RESURTIR"); (LPAREN, None); (ID, Some pid); (COMMA, None);
          (INT, Some q); (RPAREN, None)] entry →
  py_int q = Some qty →
  tx s = check_tx_semantics pid qty (jump 6 s).
Proof.
  intros Hrem Hentry Hq. shaped_inv Hentry. simpl in Hrem. unfold tx.
  do 6 run_step.
  rewrite (bind_Ok _ _ _ _ _ (consume_int_cons _ _ _ _ _ _ Hrem3 Hq)).
  pose proof (remaining_jump_1 _ _ _ Hrem3) as Hrem4.
  run_step. by rewrite !jump_jump.
Qed.

Lemma tx_contar s entry rest pid :
  remaining s = entry ++ rest →
  shaped [(KW, Some "CONTAR"); (LPAREN, None); (ID, Some pid); (RPAREN, None)] entry →
  tx s = check_tx_semantics pid 1 (jump 4 s).
Proof.
  intros Hrem Hentry. shaped_inv Hentry. simpl in Hrem. unfold tx.
  do 7 run_step. by rewrite !jump_jump.
Qed.

(** A token that is not an identifier where one is expected. *)
Lemma consume_ID_fail s tok rest :
  remaining s = tok :: rest → type tok ≠ ID →
  consume ID None s
  = (Raise (ParseError (ErrorSintactico (line tok) (col tok)
              (Esperaba ID None (type tok) (value tok)))), s).
Proof.
  intros Hrem Hty. apply (consume_cons_fail _ _ rest); [done|].
  by rewrite matches_type, bool_decide_eq_false_2.
Qed.

Lemma tx_not_id s hd tok rest kw :
  kw ∈ ["RETIRAR"; "RESURTIR"; "CONTAR"] →
  remaining s = hd ++ tok :: rest →
  shaped [(KW, Some kw); (LPAREN, None)] hd →
  type tok ≠ ID →
  tx s = (Raise (ParseError (ErrorSintactico (line tok) (col tok)
                   (Esperaba ID None (type tok) (value tok)))), jump 2 s).
Proof.
  intros Hkw Hrem Hhd Hty. shaped_inv Hhd. simpl in Hrem. unfold tx.
  repeat (apply elem_of_cons in Hkw as [->|Hkw]); [..|by apply elem_of_nil in Hkw].
  - do 3 run_step.
    rewrite (bind_Raise _ _ _ _ _ (consume_ID_fail _ _ _ Hrem1 Hty)).
    by rewrite !jump_jump.
  - do 4 run_step.
    rewrite (bind_Raise _ _ _ _ _ (consume_ID_fail _ _ _ Hrem1 Hty)).
    by rewrite !jump_jump.
  - do 5 run_step.
    rewrite (bind_Raise _ _ _ _ _ (consume_ID_fail _ _ _ Hrem1 Hty)).
    by rewrite !jump_jump.
Qed.

Lemma def_carrusel_not_id s kw tok rest :
  remaining s = kw :: tok :: rest → matches KW (Some "CARRUSEL") kw = true →
  type tok ≠ ID →
  def_carrusel s
  = (Raise (ParseError (ErrorSintactico (line tok) (col tok)
              (Esperaba ID None (type tok) (value tok)))), jump 1 s).
Proof.
  intros Hrem Hkw Hty. unfold def_carrusel.
  rewrite (bind_Ok _ _ _ _ _ (consume_cons _ _ _ _ _ Hrem Hkw)).
  pose proof (remaining_jump_1 _ _ _ Hrem) as Hrem1.
  by rewrite (bind_Raise _ _ _ _ _ (consume_ID_fail _ _ _ Hrem1 Hty)).
Qed.

Lemma def_producto_not_id s kw tok rest :
  remaining s = kw :: tok :: rest → matches KW (Some "PRODUCTO") kw = true →
  type tok ≠ ID →
  def_producto s
  = (Raise (ParseError (ErrorSintactico (line tok) (col tok)
              (Esperaba ID None (type tok) (value tok)))), jump 1 s).
Proof.
  intros Hrem Hkw Hty. unfold def_producto.
  rewrite (bind_Ok _ _ _ _ _ (consume_cons _ _ _ _ _ Hrem Hkw)).
  pose proof (remaining_jump_1 _ _ _ Hrem) as Hrem1.
  by rewrite (bind_Raise _ _ _ _ _ (consume_ID_fail _ _ _ Hrem1 Hty)).
Qed.

(** The head of a definition: keyword, identifier, and the checks on it. *)
Lemma def_carrusel_duplicate s hd rest cid :
  remaining s = hd ++ rest →
  shaped [(KW, Some "CARRUSEL"); (ID, Some cid)] hd →
  in_RESERVED cid = false → cid ∈ carousels_defined s →
  def_carrusel s
  = (Raise (ParseError (ErrorSemantico (CarruselDuplicado cid))), jump 2 s).
Proof.
  intros Hrem Hhd Hres Hdup. shaped_inv Hhd. simpl in Hrem. unfold def_carrusel.
  do 2 run_step. cbv beta zeta. cbn [value]. rewrite !jump_jump, Hres.
  change (bind (raise_if false ?e) ?k ?s) with (k () s). cbv beta.
  unfold bind at 1, in_carousels_defined. cbn [carousels_defined jump].
  by rewrite bool_decide_eq_true_2.
Qed.

Lemma def_producto_duplicate s hd rest pid :
  remaining s = hd ++ rest →
  shaped [(KW, Some "PRODUCTO"); (ID, Some pid)] hd →
  in_RESERVED pid = false → pid ∈ products_defined s →
  def_producto s
  = (Raise (ParseError (ErrorSemantico (ProductoDuplicado pid))), jump 2 s).
Proof.
  intros Hrem Hhd Hres Hdup. shaped_inv Hhd. simpl in Hrem. unfold def_producto.
  do 2 run_step. cbv beta zeta. cbn [value]. rewrite !jump_jump, Hres.
  change (bind (raise_if false ?e) ?k ?s) with (k () s). cbv beta.
  unfold bind at 1, in_products_defined. cbn [products_defined jump].
  by rewrite bool_decide_eq_true_2.
Qed.

(** What follows the head of a definition. *)
Abbreviation carrusel_body :=
  (skip_nl ;; consume LBRACE None ;; skip_nl ;; parametros ;; skip_nl ;;
   catalogo ;; skip_nl ;; consume RBRACE None ;; skip_nl).

Abbreviation producto_body :=
  (skip_nl ;; consume LBRACE None ;; skip_nl ;;
   consume KW (Some "PRECIO") ;; consume COLON None ;;
   precio <- consume_float ;;
   raise_if (float_lt_0 precio) (semantic_error PrecioNegativo) ;;
   fin ;;
   consume KW (Some "MINIMO") ;; consume COLON None ;;
   minimo <- consume_int ;;
   fin ;;
   consume KW (Some "MAXIMO") ;; consume COLON None ;;
   maximo <- consume_int ;;
   raise_if (minimo >? maximo)%Z (semantic_error MinimoMayorQueMaximo) ;;
   fin ;;
   consume KW (Some "CRITICIDAD") ;; consume COLON None ;;
   crit <- or_else (match_ KW (Some "ALTA"))
             (or_else (match_ KW (Some "MEDIA")) (match_ KW (Some "BAJA"))) ;;
   (if crit then step_pos
    else tok <- current ;; syntax_error tok CriticidadInvalida) ;;
   fin ;; consume RBRACE None ;; skip_nl).

Lemma wf_carrusel_body : wf carrusel_body.
Proof. wf_method. Qed.

Lemma wf_producto_body : wf producto_body.
Proof. unfold semantic_error, syntax_error. wf_method. Qed.

(** A definition with a fresh identifier records it and goes on to its
    body. *)
Lemma def_carrusel_fresh s hd rest cid :
  remaining s = hd ++ rest →
  shaped [(KW, Some "CARRUSEL"); (ID, Some cid)] hd →
  in_RESERVED cid = false → cid ∉ carousels_defined s →
  def_carrusel s = carrusel_body (carousels_defined_add cid (jump 2 s)).2.
Proof.
  intros Hrem Hhd Hres Hdup. shaped_inv Hhd. simpl in Hrem. unfold def_carrusel.
  do 2 run_step. cbv beta zeta. cbn [value]. rewrite !jump_jump, Hres.
  change (bind (raise_if false ?e) ?k ?s) with (k () s). cbv beta.
  unfold bind at 1, in_carousels_defined. cbn [carousels_defined jump].
  by rewrite bool_decide_eq_false_2.
Qed.

Lemma def_producto_fresh s hd rest pid :
  remaining s = hd ++ rest →
  shaped [(KW, Some "PRODUCTO"); (ID, Some pid)] hd →
  in_RESERVED pid = false → pid ∉ products_defined s →
  def_producto s = producto_body (products_defined_add pid (jump 2 s)).2.
Proof.
  intros Hrem Hhd Hres Hdup. shaped_inv Hhd. simpl in Hrem. unfold def_producto.
  do 2 run_step. cbv beta zeta. cbn [value]. rewrite !jump_jump, Hres.
  change (bind (raise_if false ?e) ?k ?s) with (k () s). cbv beta.
  unfold bind at 1, in_products_defined. cbn [products_defined jump].
  by rewrite bool_decide_eq_false_2.
Qed.

Lemma shaped_length pat toks : shaped pat toks → length toks = length pat.
Proof. intros H. symmetry. by eapply Forall2_length. Qed.

Lemma remaining_app_bound s l rest :
  remaining s = l ++ rest → (0 < length l)%nat →
  (length l + pos s ≤ length (tokens s))%nat.
Proof.
  intros Hrem Hl. pose proof (remaining_length s) as Hlen.
  rewrite Hrem, length_app in Hlen. lia.
Qed.

(** Once recorded, an identifier stays in its table to the end of the
    definition, whether the body is accepted or not. *)
Lemma def_carrusel_records s hd rest cid :
  remaining s = hd ++ rest →
  shaped [(KW, Some "CARRUSEL"); (ID, Some cid)] hd →
  in_RESERVED cid = false → cid ∉ carousels_defined s →
  cid ∈ carousels_defined (def_carrusel s).2.
Proof.
  intros Hrem Hhd Hres Hdup.
  rewrite (def_carrusel_fresh s hd rest cid) by done.
  destruct (wf_carrusel_body (carousels_defined_add cid (jump 2 s)).2)
    as [(_ & _ & _ & Hsub) _].
  - apply shaped_length in Hhd. apply remaining_app_bound in Hrem; [|rewrite Hhd; simpl; lia].
    rewrite Hhd in Hrem. simpl in *. lia.
  - apply Hsub. simpl. apply elem_of_union_l. by apply elem_of_singleton.
Qed.

Lemma def_producto_records s hd rest pid :
  remaining s = hd ++ rest →
  shaped [(KW, Some "PRODUCTO"); (ID, Some pid)] hd →
  in_RESERVED pid = false → pid ∉ products_defined s →
  pid ∈ products_defined (def_producto s).2.
Proof.
  intros Hrem Hhd Hres Hdup.
  rewrite (def_producto_fresh s hd rest pid) by done.
  destruct (wf_producto_body (products_defined_add pid (jump 2 s)).2)
    as [(_ & _ & Hsub & _) _].
  - apply shaped_length in Hhd. apply remaining_app_bound in Hrem; [|rewrite Hhd; simpl; lia].
    rewrite Hhd in Hrem. simpl in *. lia.
  - apply Hsub. simpl. apply elem_of_union_l. by apply elem_of_singleton.
Qed.

(** ** A whole product definition *)

Lemma Parser_eq s s' :
  tokens s = tokens s' → pos s = pos s' →
  products_defined s = products_defined s' →
  carousels_defined s = carousels_defined s' → s = s'.
Proof. destruct s, s'; simpl. by intros -> -> -> ->. Qed.

Lemma terminator_next T rest : terminator T → next_not_nl rest → T ++ rest ≠ [].
Proof. by intros (? & ? & -> & _) _. Qed.

Ltac next_solver :=
  first [ assumption | apply next_not_nl_cons; discriminate ].

(** Further steps of a run: newlines, statement ends, conversions and
    checks whose outcome is among the hypotheses. *)
Ltac run_more :=
  cbv beta iota zeta; cbn [value type line col];
  lazymatch goal with
  | |- bind skip_nl ?k ?s = _ =>
      lazymatch goal with
      | Hrem : remaining s = ?nls ++ ?rest, Hnls : newlines ?nls |- _ =>
          rewrite (bind_Ok _ k s _ _
                     (skip_nl_run s nls rest Hrem Hnls ltac:(next_solver)));
          let H := fresh "Hrem" in
          pose proof (remaining_jump_app s nls rest Hrem) as H
      | Hrem : remaining s = ?tok :: ?rest |- _ =>
          rewrite (bind_Ok _ k s _ _
                     (skip_nl_none s _ Hrem ltac:(next_solver)))
      end
  | |- bind fin ?k ?s = _ =>
      lazymatch goal with
      | Hrem : remaining s = ?T ++ ?rest, HT : terminator ?T |- _ =>
          rewrite (bind_Ok _ k s _ _
                     (fin_run s T rest Hrem HT ltac:(next_solver)));
          let H := fresh "Hrem" in
          pose proof (remaining_jump_app s T rest Hrem) as H
      end
  | |- bind consume_int ?k ?s = _ =>
      lazymatch goal with
      | Hrem : remaining s = mkToken INT ?v ?ln ?cl :: ?rest,
        Hn : py_int ?v = Some ?n |- _ =>
          rewrite (bind_Ok _ k s _ _ (consume_int_cons s v ln cl rest n Hrem Hn));
          let H := fresh "Hrem" in
          pose proof (remaining_jump_1 s _ rest Hrem) as H
      end
  | |- bind consume_float ?k ?s = _ =>
      lazymatch goal with
      | Hrem : remaining s = mkToken DECIMAL ?v ?ln ?cl :: ?rest,
        Hd : py_float ?v = Some ?d |- _ =>
          rewrite (bind_Ok _ k s _ _ (consume_float_cons s v ln cl rest d Hrem Hd));
          let H := fresh "Hrem" in
          pose proof (remaining_jump_1 s _ rest Hrem) as H
      end
  | |- bind (raise_if ?b ?e) ?k ?s = _ =>
      lazymatch goal with
      | Hb : b = false |- _ => rewrite (bind_ret_if b e k s Hb)
      | Hb : b = true |- _ => unfold semantic_error; rewrite (bind_raise_if b _ k s Hb)
      end
  | |- bind (in_products_defined ?pid) ?k ?s = _ =>
      change (bind (in_products_defined pid) k s)
        with (k (bool_decide (pid ∈ products_defined s)) s);
      cbn [products_defined jump]
  | |- bind (products_defined_add ?pid) ?k ?s = _ =>
      change (bind (products_defined_add pid) k s)
        with (k () (products_defined_add pid s).2)
  | |- _ => run_step
  end.

Lemma remaining_add_product pid s :
  remaining (products_defined_add pid s).2 = remaining s.
Proof. done. Qed.

Lemma def_producto_hasta_maximo s consumed rest pid d mn mx price minimo maximo :
  remaining s = consumed ++ rest →
  producto_hasta_maximo pid d mn mx consumed →
  in_RESERVED pid = false → pid ∉ products_defined s →
  py_float d = Some price → float_lt_0 price = false →
  py_int mn = Some minimo → py_int mx = Some maximo →
  def_producto s =
    (raise_if (minimo >? maximo)%Z (semantic_error MinimoMayorQueMaximo) ;;
     fin ;; consume KW (Some "CRITICIDAD") ;; consume COLON None ;;
     crit <- or_else (match_ KW (Some "ALTA"))
               (or_else (match_ KW (Some "MEDIA")) (match_ KW (Some "BAJA"))) ;;
     (if crit then step_pos
      else tok <- current ;; syntax_error tok CriticidadInvalida) ;;
     fin ;; consume RBRACE None ;; skip_nl)
      (products_defined_add pid (jump (length consumed) s)).2
  ∧ remaining (products_defined_add pid (jump (length consumed) s)).2 = rest.
Proof.
  intros Hrem Hlayout Hres Hfresh Hd Hprice Hmn Hmx.
  split; [|by apply remaining_jump_app].
  destruct Hlayout as (? & maxi & -> & (? & T2 & -> & (? & mini & -> &
    (? & T1 & -> & (? & prec & -> & (? & nls2 & -> & (? & lb & -> &
    (hd & nls1 & -> & Hhd & Hnls1) & Hlb) & Hnls2) & Hprec) & HT1) & Hmini)
    & HT2) & Hmaxi).
  shaped_inv Hhd. shaped_inv Hlb. shaped_inv Hprec. shaped_inv Hmini.
  shaped_inv Hmaxi.
  rewrite <- !app_assoc in Hrem. simpl in Hrem. rewrite <- ?app_assoc in Hrem.
  simpl in Hrem.
  unfold def_producto.
  do 4 run_more. rewrite bool_decide_eq_false_2 by done.
  change (bind (raise_if false ?e) ?k ?s) with (k () s).
  run_more.
  pose proof (remaining_add_product pid (jump 1 (jump 1 s))) as Hrem'.
  rewrite Hrem1 in Hrem'.
  repeat run_more. cbv beta.
  match goal with |- ?f ?a = ?g ?b => replace a with b; [reflexivity|] end.
  apply Parser_eq; simpl; try done.
  repeat (rewrite !length_app; simpl). lia.
Qed.

Lemma bind_step_pos {B} (k : unit → M B) s : bind step_pos k s = k () (jump 1 s).
Proof. done. Qed.

Lemma producto_tras_maximo_run s tail rest crit :
  remaining s = tail ++ rest →
  producto_tras_maximo crit tail →
  crit ∈ ["ALTA"; "MEDIA"; "BAJA"] →
  next_not_nl rest →
  (fin ;; consume KW (Some "CRITICIDAD") ;; consume COLON None ;;
   crit <- or_else (match_ KW (Some "ALTA"))
             (or_else (match_ KW (Some "MEDIA")) (match_ KW (Some "BAJA"))) ;;
   (if crit then step_pos
    else tok <- current ;; syntax_error tok CriticidadInvalida) ;;
   fin ;; consume RBRACE None ;; skip_nl) s
  = (Ok (), jump (length tail) s).
Proof.
  intros Hrem Hlayout Hcrit Hrest.
  destruct Hlayout as (? & nls & -> & (? & rb & -> & (? & T2 & -> &
    (T1 & cr & -> & HT1 & Hcr) & HT2) & Hrb) & Hnls).
  shaped_inv Hcr. shaped_inv Hrb.
  rewrite <- !app_assoc in Hrem. simpl in Hrem. rewrite <- ?app_assoc in Hrem.
  simpl in Hrem.
  assert (skip_nl (jump 1 (jump (length T2) (jump 1 (jump 1 (jump 1
            (jump (length T1) s))))))
          = (Ok (), jump (length nls) (jump 1 (jump (length T2) (jump 1
               (jump 1 (jump 1 (jump (length T1) s)))))))) as Hlast.
  { apply skip_nl_run with rest; [|done..].
    rewrite !remaining_jump, Hrem. rewrite drop_app_length. simpl.
    rewrite drop_0, drop_app_length. simpl. by rewrite drop_0. }
  do 3 run_more. unfold or_else.
  repeat (apply elem_of_cons in Hcrit as [->|Hcrit]); [..|by apply elem_of_nil in Hcrit].
  - repeat run_more. cbv beta iota. rewrite bind_step_pos.
    pose proof (remaining_jump_1 _ _ _ Hrem2) as Hrem3.
    repeat run_more. rewrite Hlast. f_equal.
    apply Parser_eq; simpl; try done. repeat (rewrite !length_app; simpl). lia.
  - repeat run_more. cbv beta iota. rewrite bind_step_pos.
    pose proof (remaining_jump_1 _ _ _ Hrem2) as Hrem3.
    repeat run_more. rewrite Hlast. f_equal.
    apply Parser_eq; simpl; try done. repeat (rewrite !length_app; simpl). lia.
  - repeat run_more. cbv beta iota. rewrite bind_step_pos.
    pose proof (remaining_jump_1 _ _ _ Hrem2) as Hrem3.
    repeat run_more. rewrite Hlast. f_equal.
    apply Parser_eq; simpl; try done. repeat (rewrite !length_app; simpl). lia.
Qed.

(** * Runs on scanned tokens *)

(** ** Rules of the logic *)

Lemma hoare_ret {A} (P : Parser → Prop) (a : A) Q E :
  (∀ s, P s → Q a s) → hoare P (ret a) Q E.
Proof. intros HQ s Hs. by apply HQ. Qed.

Lemma hoare_raise {A} (P : Parser → Prop) e (Q : A → Parser → Prop) E :
  (∀ s, P s → E e s) → hoare P (raise e) Q E.
Proof. intros HE s Hs. by apply HE. Qed.

Lemma hoare_bind {A B} (P : Parser → Prop) (m : M A) (k : A → M B) Q' Q E :
  hoare P m Q' E → (∀ a, hoare (Q' a) (k a) Q E) → hoare P (bind m k) Q E.
Proof.
  intros Hm Hk s Hs. specialize (Hm s Hs). unfold bind.
  destruct (m s) as [[a|e|] s']; [|done..]. by apply Hk.
Qed.

Lemma hoare_conseq {A} (P P' : Parser → Prop) (m : M A) (Q Q' : A → Parser → Prop)
    (E E' : Exn → Parser → Prop) :
  hoare P m Q E → (∀ s, P' s → P s) → (∀ a s, Q a s → Q' a s) →
  (∀ e s, E e s → E' e s) → hoare P' m Q' E'.
Proof.
  intros Hm HP HQ HE s Hs. specialize (Hm s (HP s Hs)).
  destruct (m s) as [[a|e|] s']; [by apply HQ|by apply HE|done].
Qed.

Lemma hoare_pure {A} (φ : Prop) (P : Parser → Prop) (m : M A) Q E :
  (φ → hoare P m Q E) → hoare (λ s, P s ∧ φ) m Q E.
Proof. intros Hm s [Hs Hφ]. by apply Hm. Qed.

Lemma hoare_if {A} (b : bool) (P : Parser → Prop) (m1 m2 : M A) Q E :
  (b = true → hoare P m1 Q E) → (b = false → hoare P m2 Q E) →
  hoare P (if b then m1 else m2) Q E.
Proof. destruct b; auto. Qed.

Lemma hoare_raise_if (b : bool) (P : Parser → Prop) err
    (Q : unit → Parser → Prop) (E : Exn → Parser → Prop) :
  (b = true → hoare P err Q E) → (b = false → ∀ s, P s → Q () s) →
  hoare P (raise_if b err) Q E.
Proof. destruct b; simpl; [auto|]. intros _ HQ. apply hoare_ret. auto. Qed.

Lemma hoare_while_fuel fuel (Inv : Parser → Prop) cond body
    (Q : unit → Parser → Prop) E :
  hoare Inv cond (λ (c : bool) s, if c then Inv s else Q () s) E →
  hoare Inv body (λ _, Inv) E →
  hoare Inv (while_fuel fuel cond body) Q E.
Proof.
  intros Hcond Hbody. induction fuel as [|fuel IH]; simpl.
  - apply (hoare_bind _ _ _ _ _ _ Hcond). intros c; destruct c;
      [intros ? ?; exact I|by apply hoare_ret].
  - apply (hoare_bind _ _ _ _ _ _ Hcond). intros c; destruct c;
      [|by apply hoare_ret].
    apply (hoare_bind _ _ _ _ _ _ Hbody). intros _. exact IH.
Qed.

Lemma hoare_while (Inv : Parser → Prop) cond body (Q : unit → Parser → Prop) E :
  hoare Inv cond (λ (c : bool) s, if c then Inv s else Q () s) E →
  hoare Inv body (λ _, Inv) E →
  hoare Inv (while_ cond body) Q E.
Proof.
  intros Hcond Hbody s Hs. unfold while_.
  by apply (hoare_while_fuel _ Inv cond body Q E Hcond Hbody).
Qed.

(** ** No unexpected exception on scanned tokens *)

Lemma lexed_lookup toks p tok :
  lexed toks → toks !! p = Some tok → type tok ≠ EOF →
  (S p < length toks)%nat ∧ lexed_token tok.
Proof.
  intros (body & eof & -> & Hbody & Heof) Hp Hty.
  rewrite length_app; simpl.
  destruct (decide (p < length body)%nat) as [Hlt|Hge].
  - rewrite lookup_app_l in Hp by done. split; [lia|].
    eapply Forall_forall in Hbody; [done|]. by eapply list_elem_of_lookup_2.
  - rewrite lookup_app_r in Hp by lia.
    destruct (p - length body)%nat; simpl in Hp; [|done].
    injection Hp as ->. done.
Qed.

Create HintDb safe.

Section scanned.
Variable toks : list Token.
Hypothesis Hlexed : lexed toks.

Local Abbreviation Rd := (reading toks).
Local Abbreviation Err := (λ e (_ : Parser), expected_error e).
Local Abbreviation safe m := (hoare Rd m (λ _, Rd) Err).

Lemma reading_lookup s : Rd s → ∃ tok, tokens s !! pos s = Some tok.
Proof. intros [-> Hpos]. by apply lookup_lt_is_Some_2. Qed.

Lemma safe_current :
  hoare Rd current (λ tok s, Rd s ∧ toks !! pos s = Some tok) Err.
Proof.
  intros s Hs. destruct (reading_lookup s Hs) as [tok Htok].
  rewrite (current_Some _ _ Htok). split; [done|].
  destruct Hs as [Ht ?]. by rewrite <- Ht.
Qed.

Lemma safe_match_ ttype val :
  hoare Rd (match_ ttype val)
    (λ b s, Rd s ∧ (b = true →
              ∃ tok, toks !! pos s = Some tok ∧ matches ttype val tok = true))
    Err.
Proof.
  intros s Hs. destruct (reading_lookup s Hs) as [tok Htok].
  rewrite (match_Some _ _ _ _ Htok). split; [done|]. intros Hm.
  exists tok. destruct Hs as [Ht ?]. by rewrite <- Ht.
Qed.

Lemma safe_consume ttype val :
  ttype ≠ EOF →
  hoare Rd (consume ttype val)
    (λ tok s, Rd s ∧ (lexed_token tok ∧ type tok = ttype)) Err.
Proof.
  intros Hty s Hs. destruct (reading_lookup s Hs) as [tok Htok].
  rewrite (consume_Some _ _ _ _ Htok).
  destruct (matches ttype val tok) eqn:Hm; [|done].
  apply matches_spec in Hm as [Htok_ty _]. destruct Hs as [Ht ?].
  rewrite Ht in Htok.
  destruct (lexed_lookup toks (pos s) tok Hlexed Htok) as [Hlt Hlex]; [congruence|].
  repeat split; (done || by simpl).
Qed.

Lemma final_consume : hoare Rd (consume EOF None) (λ _ _, True) Err.
Proof.
  intros s Hs. destruct (reading_lookup s Hs) as [tok Htok].
  rewrite (consume_Some _ _ _ _ Htok). by destruct (matches EOF None tok).
Qed.

Lemma safe_step_pos :
  hoare (λ s, Rd s ∧ ∃ tok, toks !! pos s = Some tok ∧ type tok ≠ EOF)
    step_pos (λ _, Rd) Err.
Proof.
  intros s [[Ht Hpos] (tok & Htok & Hty)].
  destruct (lexed_lookup toks (pos s) tok Hlexed Htok Hty) as [Hlt _].
  by split.
Qed.

Lemma safe_ret {A} (a : A) : safe (ret a).
Proof. by apply hoare_ret. Qed.

Lemma safe_syntax_error {A} tok msg (Q : A → Parser → Prop) :
  hoare Rd (syntax_error tok msg) Q Err.
Proof. by apply hoare_raise. Qed.

Lemma safe_weaken {A} (m : M A) (Q : A → Parser → Prop) :
  hoare Rd m (λ a s, Rd s ∧ Q a s) Err → safe m.
Proof. intros Hm. eapply hoare_conseq; [exact Hm|done| |done]. by intros ? ? [? _]. Qed.

Lemma safe_bind {A B} (m : M A) (k : A → M B) (Q : B → Parser → Prop) :
  safe m → (∀ a, hoare Rd (k a) Q Err) → hoare Rd (bind m k) Q Err.
Proof. intros Hm Hk. by eapply hoare_bind. Qed.

(** After a call whose result satisfies [φ], go on under [φ]. *)
Lemma safe_bind_pure {A B} (m : M A) (k : A → M B) (φ : A → Prop)
    (Q : B → Parser → Prop) :
  hoare Rd m (λ a s, Rd s ∧ φ a) Err →
  (∀ a, φ a → hoare Rd (k a) Q Err) → hoare Rd (bind m k) Q Err.
Proof.
  intros Hm Hk. eapply hoare_bind; [exact Hm|]. intros a.
  apply hoare_pure. apply Hk.
Qed.

Lemma safe_while cond body : safe cond → safe body → safe (while_ cond body).
Proof.
  intros Hcond Hbody. apply hoare_while; [|done].
  eapply hoare_conseq; [exact Hcond|done| |done]. by intros [] ? ?.
Qed.

Lemma safe_semantic_error {A} msg (Q : A → Parser → Prop) :
  msg ≠ PrecioNegativo → (∀ name, msg ≠ ReservadaComoId name) →
  hoare Rd (semantic_error msg) Q Err.
Proof. intros ? ?. by apply hoare_raise. Qed.

#[local] Hint Resolve safe_ret safe_syntax_error : safe.

Lemma safe_consume' ttype val : ttype ≠ EOF → safe (consume ttype val).
Proof. intros Hty. eapply safe_weaken. by apply safe_consume. Qed.

Lemma safe_match_' ttype val : safe (match_ ttype val).
Proof. eapply safe_weaken. apply safe_match_. Qed.

Lemma safe_current' : safe current.
Proof. eapply safe_weaken. apply safe_current. Qed.

Lemma safe_or_else a b : safe a → safe b → safe (or_else a b).
Proof.
  intros Ha Hb. unfold or_else. apply safe_bind; [done|].
  intros []; [apply safe_ret|done].
Qed.

Lemma safe_in_carousels_defined cid : safe (in_carousels_defined cid).
Proof. by intros s Hs. Qed.

Lemma safe_in_products_defined pid : safe (in_products_defined pid).
Proof. by intros s Hs. Qed.

Lemma safe_carousels_defined_add cid : safe (carousels_defined_add cid).
Proof. by intros s Hs. Qed.

Lemma safe_products_defined_add pid : safe (products_defined_add pid).
Proof. by intros s Hs. Qed.

#[local] Hint Resolve safe_match_' safe_current' safe_or_else
  safe_in_carousels_defined safe_in_products_defined
  safe_carousels_defined_add safe_products_defined_add : safe.

Lemma lexed_ID_not_reserved tok :
  lexed_token tok → type tok = ID → in_RESERVED (value tok) = false.
Proof. unfold lexed_token. intros H Hty. by rewrite Hty in H. Qed.

Lemma safe_guarded_step {B} v1 v2 v3 (err : M unit) (k : unit → M B)
    (Q : B → Parser → Prop) :
  safe err → (∀ u, hoare Rd (k u) Q Err) →
  hoare Rd
    (crit <- or_else (match_ KW v1) (or_else (match_ KW v2) (match_ KW v3)) ;;
     bind (if crit then step_pos else err) k) Q Err.
Proof.
  intros Herr Hk s Hs. destruct (reading_lookup s Hs) as [tok Htok].
  destruct (or_else_Some (match_ KW v1) (or_else (match_ KW v2) (match_ KW v3))
              s tok KW v1 Htok eq_refl) as [crit Hcrit].
  { eapply or_else_Some; [done..|]. eexists. by apply match_Some. }
  rewrite (bind_Ok _ _ _ _ _ Hcrit). destruct crit.
  - assert (matches KW v1 tok || matches KW v2 tok || matches KW v3 tok = true)
      as Hm.
    { revert Hcrit. unfold or_else.
      rewrite (bind_Ok _ _ _ _ _ (match_Some _ _ KW v1 Htok)).
      destruct (matches KW v1 tok); [done|].
      rewrite (bind_Ok _ _ _ _ _ (match_Some _ _ KW v2 Htok)).
      destruct (matches KW v2 tok); [done|].
      rewrite (match_Some _ _ KW v3 Htok). by intros [= ->]. }
    assert (type tok = KW) as Hty.
    { unfold matches in Hm.
      destruct (decide (type tok = KW)) as [|Hne]; [done|].
      by rewrite !(bool_decide_eq_false_2 _ Hne) in Hm. }
    apply (hoare_bind (λ s', s' = s) step_pos k (λ _, Rd) Q Err); [|done|done].
    intros ? ->. apply safe_step_pos. split; [done|]. exists tok.
    destruct Hs as [Ht ?]. rewrite <- Ht. split; [done|]. by rewrite Hty.
  - by apply (hoare_bind Rd err k (λ _, Rd) Q Err).
Qed.

(** The proof of a method follows its shape; the two tests that cannot
    succeed on scanned tokens are discharged by what [consume] returned. *)
Ltac safe_method :=
  repeat first
    [ progress intros
    | solve [eauto with safe]
    | match goal with
      | H : _ ∧ _ |- _ => destruct H
      | |- hoare _ (consume ?ty _) (λ _, reading _) _ =>
          apply safe_consume'; discriminate
      | |- hoare _ (bind (consume ?ty ?val) _) _ _ =>
          apply (safe_bind_pure _ _ (λ tok, lexed_token tok ∧ type tok = ty));
          [apply safe_consume; discriminate|]
      | |- hoare _ (if ?b then _ else _) _ _ => destruct b
      | |- hoare _ (match ?o with Some _ => _ | None => _ end) _ _ => destruct o
      | |- hoare _ (raise_if (in_RESERVED (value ?tok)) _) _ _ =>
          rewrite (lexed_ID_not_reserved tok) by assumption; apply safe_ret
      | Hd : float_lt_0 ?d = false |- hoare _ (raise_if (float_lt_0 ?d) _) _ _ =>
          rewrite Hd; apply safe_ret
      | |- hoare _ (raise_if ?b _) _ _ =>
          apply hoare_raise_if; [intros _|by intros _ ? ?]
      | |- hoare _ (semantic_error _) _ _ =>
          apply safe_semantic_error; [discriminate|intros; discriminate]
      | |- hoare _ (bind consume_float _) _ _ =>
          apply (safe_bind_pure _ _ (λ d, float_lt_0 d = false)); [solve [eauto with safe]|]
      | |- hoare _ (bind (or_else _ _) (λ crit, bind (if crit then step_pos else _) _))
             _ _ =>
          apply safe_guarded_step
      | |- hoare _ (bind _ _) _ _ => apply safe_bind
      | |- hoare _ (while_ _ _) _ _ => apply safe_while
      end ].

Lemma safe_skip_nl : safe skip_nl.
Proof. unfold skip_nl. safe_method. Qed.
#[local] Hint Resolve safe_skip_nl : safe.

Lemma safe_fin : safe fin.
Proof. unfold fin. safe_method. Qed.
#[local] Hint Resolve safe_fin : safe.

Lemma safe_consume_int : safe consume_int.
Proof.
  unfold consume_int.
  apply (safe_bind_pure _ _ (λ tok, lexed_token tok ∧ type tok = INT));
    [by apply safe_consume|].
  intros tok [Hlex Hty]. unfold lexed_token in Hlex. rewrite Hty in Hlex.
  destruct Hlex as (n & -> & _). apply safe_ret.
Qed.

Lemma safe_consume_float :
  hoare Rd consume_float (λ d s, Rd s ∧ float_lt_0 d = false) Err.
Proof.
  unfold consume_float.
  apply (safe_bind_pure _ _ (λ tok, lexed_token tok ∧ type tok = DECIMAL));
    [by apply safe_consume|].
  intros tok [Hlex Hty]. unfold lexed_token in Hlex. rewrite Hty in Hlex.
  destruct Hlex as (d & -> & Hd). by apply hoare_ret.
Qed.
#[local] Hint Resolve safe_consume_int safe_consume_float : safe.

Lemma safe_parametros : safe parametros.
Proof. unfold parametros. safe_method. Qed.
#[local] Hint Resolve safe_parametros : safe.

Lemma safe_def_producto : safe def_producto.
Proof. unfold def_producto. safe_method. Qed.
#[local] Hint Resolve safe_def_producto : safe.

Lemma safe_catalogo : safe catalogo.
Proof. unfold catalogo. safe_method. Qed.
#[local] Hint Resolve safe_catalogo : safe.

Lemma safe_def_carrusel : safe def_carrusel.
Proof. unfold def_carrusel. safe_method. Qed.
#[local] Hint Resolve safe_def_carrusel : safe.

Lemma safe_definiciones : safe definiciones.
Proof. unfold definiciones. safe_method. Qed.

Lemma safe_check_tx_semantics pid qty : safe (check_tx_semantics pid qty).
Proof. unfold check_tx_semantics. safe_method. Qed.
#[local] Hint Resolve safe_definiciones safe_check_tx_semantics : safe.

Lemma safe_tx : safe tx.
Proof. unfold tx. safe_method. Qed.
#[local] Hint Resolve safe_tx : safe.

Lemma safe_lista_tx : safe lista_tx.
Proof. unfold lista_tx. safe_method. Qed.
#[local] Hint Resolve safe_lista_tx : safe.

Lemma safe_bloque_transacciones : safe bloque_transacciones.
Proof. unfold bloque_transacciones. safe_method. Qed.

Lemma safe_consulta : safe consulta.
Proof. unfold consulta. safe_method. Qed.
#[local] Hint Resolve safe_bloque_transacciones safe_consulta : safe.

Lemma safe_simulacion : safe simulacion.
Proof. unfold simulacion. safe_method. Qed.
#[local] Hint Resolve safe_simulacion : safe.

Lemma safe_programa : hoare Rd programa (λ _ _, True) Err.
Proof.
  unfold programa. do 5 (apply safe_bind; [solve [eauto with safe]|intros ?]).
  eapply hoare_bind; [apply final_consume|]. intros ?. by apply hoare_ret.
Qed.

(** A run on scanned tokens ends: it accepts, or it raises one of the
    expected errors of the parser. *)
Lemma parse_scanned :
  (parse toks).1 = Ok () ∨ ∃ e, (parse toks).1 = Raise e ∧ expected_error e.
Proof.
  pose proof (parse_fuel toks) as Hfuel.
  assert (Rd (Parser_init toks)) as Hinit.
  { split; [done|]. destruct Hlexed as (body & eof & -> & _). simpl.
    rewrite length_app; simpl. lia. }
  pose proof (safe_programa _ Hinit) as Hsafe. unfold parse in *.
  destruct (programa (Parser_init toks)) as [[[]|e|] s']; simpl in *;
    [by left|right; by exists e|done].
Qed.
End scanned.

(** The runner on any text: accepted, or rejected with a lexical error or
    an expected error of the parser. *)
Lemma validate_outcome text :
  validate text = Ok ()
  ∨ is_lexical_error (validate text)
  ∨ ∃ e, validate text = Raise e ∧ expected_error e.
Proof.
  unfold validate.
  destruct (tokenize_spec text) as [Herr|(body & ln & cl & Hok & Hbody)].
  - right; left. destruct Herr as (? & ? & ? & ->). by eexists _, _, _.
  - rewrite Hok.
    destruct (parse_scanned (body ++ [mkToken EOF "" ln cl])) as [?|?]; auto.
    by eexists _, _.
Qed.


(** * Runs that meet a given token

    Fix a token list and an index [j] that holds an opening keyword.  A
    method started at or before [j] either stays there, or it is the one
    method that takes that keyword.  [K] is what the claim at hand keeps
    about the symbol tables, and [Bad] the way the run may end beyond
    [j]. *)

Lemma plain_not_opening ttype val tok :
  plain ttype val = true → matches ttype val tok = true → ¬ opening tok.
Proof.
  unfold plain. intros Hplain [Hty Hval]%matches_spec [Hkw Hop].
  apply orb_true_iff in Hplain as [Hne|Hv].
  - apply negb_true_iff, bool_decide_eq_false in Hne. congruence.
  - destruct val as [v|]; [|done].
    apply negb_true_iff, bool_decide_eq_false in Hv.
    rewrite (Hval v eq_refl) in Hop. done.
Qed.

Create HintDb stays.

Section barrier.
Variable toks : list Token.
Variable j : nat.
Variable K : Parser → Prop.
Variable Bad : Exn → Parser → Prop.

Local Abbreviation upto := (upto toks j K).
Local Abbreviation ended := (ended j Bad).

Hypothesis Hopening : ∃ tokj, toks !! j = Some tokj ∧ opening tokj.
Hypothesis K_step : ∀ s tok,
  upto s → toks !! pos s = Some tok → ¬ opening tok → K (jump 1 s).
Hypothesis K_carousel : ∀ s cid, K s → K (carousels_defined_add cid s).2.

Local Abbreviation stays m := (hoare upto m (λ _, upto) ended).

Lemma upto_ended e s : upto s → ended e s.
Proof. intros (_ & ? & _). by left. Qed.

Lemma upto_step s tok :
  upto s → toks !! pos s = Some tok → ¬ opening tok → upto (jump 1 s).
Proof.
  intros Hs Htok Hplain. pose proof Hs as (Ht & Hpos & HK).
  split; [done|]. split; [|by eapply K_step].
  destruct Hopening as (tokj & Htokj & Hop). simpl.
  destruct (decide (pos s = j)) as [Heq|Hne]; [|lia].
  rewrite Heq in Htok. congruence.
Qed.

Lemma stays_ret {A} (a : A) : stays (ret a).
Proof. by apply hoare_ret. Qed.

Lemma stays_raise {A} e (Q : A → Parser → Prop) : hoare upto (raise e) Q ended.
Proof. apply hoare_raise. intros s. apply upto_ended. Qed.

Lemma stays_bind {A B} (m : M A) (k : A → M B) (Q : B → Parser → Prop) :
  stays m → (∀ a, hoare upto (k a) Q ended) → hoare upto (bind m k) Q ended.
Proof. intros Hm Hk. by eapply hoare_bind. Qed.

Lemma stays_while cond body : stays cond → stays body → stays (while_ cond body).
Proof.
  intros Hcond Hbody. apply hoare_while; [|done].
  eapply hoare_conseq; [exact Hcond|done| |done]. by intros [] ? ?.
Qed.

Lemma stays_current : stays current.
Proof.
  intros s Hs. unfold current.
  destruct (tokens s !! pos s); [done|by apply upto_ended].
Qed.

Lemma stays_match_ ttype val :
  hoare upto (match_ ttype val)
    (λ b s, upto s ∧ (b = true →
              ∃ tok, toks !! pos s = Some tok ∧ matches ttype val tok = true))
    ended.
Proof.
  intros s Hs. destruct (tokens s !! pos s) as [tok|] eqn:Htok.
  - rewrite (match_Some _ _ _ _ Htok). split; [done|]. intros Hm.
    exists tok. destruct Hs as [Ht ?]. by rewrite <- Ht.
  - rewrite (match_None _ _ _ Htok). by apply upto_ended.
Qed.

Lemma stays_match_' ttype val : stays (match_ ttype val).
Proof.
  eapply hoare_conseq; [apply stays_match_|done| |done]. by intros ? ? [? _].
Qed.

(** A call that cannot take an opening keyword stays before [j]; the
    token it returns is the one just before the new position. *)
Lemma stays_consume ttype val :
  plain ttype val = true →
  hoare upto (consume ttype val)
    (λ tok s, upto s ∧ (toks !! (pos s - 1)%nat = Some tok
                        ∧ matches ttype val tok = true ∧ (0 < pos s)%nat))
    ended.
Proof.
  intros Hplain s Hs. destruct (tokens s !! pos s) as [tok|] eqn:Htok.
  - rewrite (consume_Some _ _ _ _ Htok).
    destruct (matches ttype val tok) eqn:Hm; [|by apply upto_ended].
    pose proof Hs as (Ht & _). rewrite Ht in Htok.
    split; [|simpl; by rewrite Nat.sub_0_r; repeat split; (done || lia)].
    eapply upto_step; [done..|]. by eapply plain_not_opening.
  - rewrite (consume_None _ _ _ Htok). by apply upto_ended.
Qed.

Lemma stays_consume' ttype val : plain ttype val = true → stays (consume ttype val).
Proof.
  intros Hplain.
  eapply hoare_conseq; [by apply stays_consume|done| |done]. by intros ? ? [? _].
Qed.

Lemma stays_or_else a b : stays a → stays b → stays (or_else a b).
Proof.
  intros Ha Hb. unfold or_else. apply stays_bind; [done|].
  intros []; [apply stays_ret|done].
Qed.

Lemma stays_in_carousels_defined cid : stays (in_carousels_defined cid).
Proof. by intros s Hs. Qed.

Lemma stays_in_products_defined pid : stays (in_products_defined pid).
Proof. by intros s Hs. Qed.

Lemma stays_carousels_defined_add cid : stays (carousels_defined_add cid).
Proof. intros s (? & ? & ?). repeat split; try done. by apply K_carousel. Qed.

Lemma stays_guarded_step {B} v1 v2 v3 (err : M unit) (k : unit → M B)
    (Q : B → Parser → Prop) :
  plain KW v1 = true → plain KW v2 = true → plain KW v3 = true →
  stays err → (∀ u, hoare upto (k u) Q ended) →
  hoare upto
    (crit <- or_else (match_ KW v1) (or_else (match_ KW v2) (match_ KW v3)) ;;
     bind (if crit then step_pos else err) k) Q ended.
Proof.
  intros Hp1 Hp2 Hp3 Herr Hk s Hs.
  destruct (tokens s !! pos s) as [tok|] eqn:Htok; cycle 1.
  { unfold or_else.
    rewrite (bind_Raise _ _ _ _ _ (bind_Raise _ _ _ _ _ (match_None _ KW v1 Htok))).
    by apply upto_ended. }
  destruct (or_else_Some (match_ KW v1) (or_else (match_ KW v2) (match_ KW v3))
              s tok KW v1 Htok eq_refl) as [crit Hcrit].
  { eapply or_else_Some; [done..|]. eexists. by apply match_Some. }
  rewrite (bind_Ok _ _ _ _ _ Hcrit). destruct crit.
  - assert (∃ v, plain KW v = true ∧ matches KW v tok = true) as (v & Hv & Hm).
    { revert Hcrit. unfold or_else.
      rewrite (bind_Ok _ _ _ _ _ (match_Some _ _ KW v1 Htok)).
      destruct (matches KW v1 tok) eqn:H1; [by exists v1|].
      rewrite (bind_Ok _ _ _ _ _ (match_Some _ _ KW v2 Htok)).
      destruct (matches KW v2 tok) eqn:H2; [by exists v2|].
      rewrite (match_Some _ _ KW v3 Htok). intros [= H3]. by exists v3. }
    apply (hoare_bind (λ s', s' = s) step_pos k (λ _, upto) Q ended); [|done|done].
    intros ? ->. simpl. pose proof Hs as (Ht & _). rewrite Ht in Htok.
    eapply upto_step; [done..|]. by eapply plain_not_opening.
  - by apply (hoare_bind upto err k (λ _, upto) Q ended).
Qed.

Hint Resolve stays_ret stays_raise stays_current stays_match_' stays_or_else
  stays_in_carousels_defined stays_in_products_defined
  stays_carousels_defined_add : stays.

(** The proof of a method that takes no opening keyword follows its
    shape. *)
Ltac stays_method :=
  unfold syntax_error, semantic_error;
  repeat first
    [ progress intros
    | solve [eauto with stays]
    | match goal with
      | |- hoare _ (consume ?ty ?val) (λ _, _) _ =>
          apply stays_consume'; reflexivity
      | |- hoare _ (if ?b then _ else _) _ _ => destruct b
      | |- hoare _ (match ?o with Some _ => _ | None => _ end) _ _ => destruct o
      | |- hoare _ (raise_if ?b _) _ _ =>
          apply hoare_raise_if; [intros _|by intros _ ? ?]
      | |- hoare _ (bind (or_else _ _) (λ crit, bind (if crit then step_pos else _) _))
             _ _ =>
          apply stays_guarded_step; [reflexivity..| |]
      | |- hoare _ (bind _ _) _ _ => apply stays_bind
      | |- hoare _ (while_ _ _) _ _ => apply stays_while
      end ].

Lemma stays_skip_nl : stays skip_nl.
Proof. unfold skip_nl. stays_method. Qed.
Hint Resolve stays_skip_nl : stays.

Lemma stays_fin : stays fin.
Proof. unfold fin. stays_method. Qed.
Hint Resolve stays_fin : stays.

Lemma stays_consume_int : stays consume_int.
Proof. unfold consume_int. stays_method. Qed.

Lemma stays_consume_float : stays consume_float.
Proof. unfold consume_float. stays_method. Qed.
Hint Resolve stays_consume_int stays_consume_float : stays.

Lemma stays_parametros : stays parametros.
Proof. unfold parametros. stays_method. Qed.

Lemma stays_consulta : stays consulta.
Proof. unfold consulta. stays_method. Qed.

Lemma stays_check_tx_semantics pid qty : stays (check_tx_semantics pid qty).
Proof. unfold check_tx_semantics. stays_method. Qed.
Hint Resolve stays_parametros stays_consulta stays_check_tx_semantics : stays.

Lemma stays_producto_body : stays producto_body.
Proof. stays_method. Qed.

(** A call that takes an opening keyword, from the states [R] where
    doing so keeps the run before [j]. *)
Lemma keyword_when (R : Parser → Prop) kw :
  (∀ s tok, upto s → R s → toks !! pos s = Some tok →
     matches KW (Some kw) tok = true → upto (jump 1 s)) →
  hoare (λ s, upto s ∧ R s) (consume KW (Some kw)) (λ _, upto) ended.
Proof.
  intros Hkw s [Hs HR]. destruct (tokens s !! pos s) as [tok|] eqn:Htok.
  - rewrite (consume_Some _ _ _ _ Htok).
    destruct (matches KW (Some kw) tok) eqn:Hm; [|by apply upto_ended].
    pose proof Hs as (Ht & _). rewrite Ht in Htok. by eapply Hkw.
  - rewrite (consume_None _ _ _ Htok). by apply upto_ended.
Qed.

Lemma match_when (R : Parser → Prop) ttype val :
  hoare (λ s, upto s ∧ R s) (match_ ttype val)
    (λ b s, upto s ∧ R s) ended.
Proof.
  intros s [Hs HR]. destruct (tokens s !! pos s) as [tok|] eqn:Htok.
  - by rewrite (match_Some _ _ _ _ Htok).
  - rewrite (match_None _ _ _ Htok). by apply upto_ended.
Qed.

Lemma def_producto_when (R : Parser → Prop) :
  (∀ s tok, upto s → R s → toks !! pos s = Some tok →
     matches KW (Some "PRODUCTO") tok = true → upto (jump 1 s)) →
  (∀ s pid, K s → K (products_defined_add pid s).2) →
  hoare (λ s, upto s ∧ R s) def_producto (λ _, upto) ended.
Proof.
  intros Hkw Hadd. unfold def_producto.
  eapply hoare_bind; [by apply keyword_when|]. intros ?.
  assert (∀ pid, stays (products_defined_add pid)) as Hadd'.
  { intros pid s (? & ? & ?). repeat split; try done. by apply Hadd. }
  stays_method.
Qed.

Lemma stays_carrusel_body : stays def_producto → stays carrusel_body.
Proof.
  intros Hprod.
  assert (stays catalogo) as Hcat by (unfold catalogo; stays_method).
  stays_method.
Qed.

Lemma def_carrusel_when (R : Parser → Prop) :
  (∀ s tok, upto s → R s → toks !! pos s = Some tok →
     matches KW (Some "CARRUSEL") tok = true → upto (jump 1 s)) →
  stays def_producto →
  hoare (λ s, upto s ∧ R s) def_carrusel (λ _, upto) ended.
Proof.
  intros Hkw Hprod. unfold def_carrusel.
  eapply hoare_bind; [by apply keyword_when|]. intros ?.
  assert (stays catalogo) as Hcat by (unfold catalogo; stays_method).
  stays_method.
Qed.

Lemma tx_when (R : Parser → Prop) :
  (∀ kw s tok, kw ∈ ["RETIRAR"; "RESURTIR"; "CONTAR"] → upto s → R s →
     toks !! pos s = Some tok →
     matches KW (Some kw) tok = true → upto (jump 1 s)) →
  hoare (λ s, upto s ∧ R s) tx (λ _, upto) ended.
Proof.
  intros Hkw. unfold tx.
  eapply hoare_bind; [apply match_when|]. intros retirar. destruct retirar.
  { eapply hoare_bind; [apply keyword_when; intros; eapply Hkw; [|done..]; repeat constructor|]. intros ?.
    stays_method. }
  eapply hoare_bind; [apply match_when|]. intros resurtir. destruct resurtir.
  { eapply hoare_bind; [apply keyword_when; intros; eapply Hkw; [|done..]; repeat constructor|]. intros ?.
    stays_method. }
  eapply hoare_bind; [apply match_when|]. intros contar. destruct contar.
  { eapply hoare_bind; [apply keyword_when; intros; eapply Hkw; [|done..]; repeat constructor|]. intros ?.
    stays_method. }
  apply (hoare_conseq upto _ _ (λ _, upto) _ ended ended);
    [|by intros ? [? _]|done|done].
  stays_method.
Qed.

(** The token at [j] decides which method can take it. *)
Lemma upto_remaining s : upto s → pos s = j → remaining s = drop j toks.
Proof. intros (Ht & _) Hpos. unfold remaining. by rewrite Ht, Hpos. Qed.

Section methods.
Hypothesis stays_def_producto : stays def_producto.
Hypothesis stays_def_carrusel : stays def_carrusel.
Hypothesis stays_tx : stays tx.
Hint Resolve stays_def_producto stays_def_carrusel stays_tx : stays.

Lemma stays_catalogo : stays catalogo.
Proof. unfold catalogo. stays_method. Qed.
Hint Resolve stays_catalogo : stays.

Lemma stays_definiciones : stays definiciones.
Proof. unfold definiciones. stays_method. Qed.

Lemma stays_lista_tx : stays lista_tx.
Proof. unfold lista_tx. stays_method. Qed.
Hint Resolve stays_definiciones stays_lista_tx : stays.

Lemma stays_bloque_transacciones : stays bloque_transacciones.
Proof. unfold bloque_transacciones. stays_method. Qed.
Hint Resolve stays_bloque_transacciones : stays.

Lemma stays_simulacion : stays simulacion.
Proof. unfold simulacion. stays_method. Qed.
Hint Resolve stays_simulacion : stays.

(** A run that is accepted has consumed an end-of-input token at or
    before [j]. *)
Lemma stays_programa :
  hoare upto programa
    (λ _ s, ∃ k tok, (k < j)%nat ∧ toks !! k = Some tok ∧ type tok = EOF)
    ended.
Proof.
  unfold programa.
  do 5 (apply stays_bind; [solve [eauto with stays]|intros ?]).
  eapply hoare_bind; [by apply (stays_consume EOF None)|]. intros tok.
  apply hoare_ret. intros s ((_ & Hpos & _) & Htok & Hm & Hpos').
  exists (pos s - 1)%nat, tok. split; [lia|]. split; [done|].
  by apply matches_spec in Hm as [? _].
Qed.
End methods.
End barrier.

(** ** Consequences for whole runs *)

Lemma lexed_EOF_last toks k tok :
lexed toks → toks !! k = Some tok → type tok = EOF → S k = length toks.
Proof.
intros (body & eof & -> & Hbody & Heof) Hk Hty.
rewrite length_app; simpl.
destruct (decide (k < length body)%nat) as [Hlt|Hge].
- rewrite lookup_app_l in Hk by done.
  eapply Forall_forall in Hbody; [|by eapply list_elem_of_lookup_2].
  by apply lexed_token_not_EOF in Hbody.
- rewrite lookup_app_r in Hk by lia.
  destruct (k - length body)%nat eqn:Hd; simpl in Hk; [lia|done].
Qed.

(** If the three methods that take an opening keyword keep the run before
  [j], or end it as [Bad] says, then so does the whole run, and it is
  not accepted. *)
Lemma barrier_run toks j K Bad :
lexed toks →
(∃ tokj, toks !! j = Some tokj ∧ opening tokj) →
(∀ s tok, upto toks j K s → toks !! pos s = Some tok → ¬ opening tok →
   K (jump 1 s)) →
K (Parser_init toks) →
hoare (upto toks j K) def_carrusel (λ _, upto toks j K) (ended j Bad) →
hoare (upto toks j K) tx (λ _, upto toks j K) (ended j Bad) →
∃ e s', parse toks = (Raise e, s') ∧ expected_error e ∧ ended j Bad e s'.
Proof.
intros Hlexed Hop HK1 HK0 Hcarr Htx.
pose proof (stays_programa toks j K Bad Hop HK1 Hcarr Htx
              (Parser_init toks)) as Hrun.
destruct (parse_scanned toks Hlexed) as [Hok|(e & He & Hexp)].
- exfalso. unfold parse in Hok.
  destruct (programa (Parser_init toks)) as [r s'] eqn:Hp. simpl in Hok. subst r.
  destruct Hrun as (k & tok & Hk & Htok & Hty).
  { split; [done|]. split; [simpl; lia|done]. }
  destruct Hop as (tokj & Htokj & _). apply lookup_lt_Some in Htokj.
  apply (lexed_EOF_last toks k tok Hlexed Htok) in Hty. lia.
- unfold parse in *. destruct (programa (Parser_init toks)) as [r s'] eqn:Hp.
  simpl in He. subst r. exists e, s'. split; [done|]. split; [done|].
  apply Hrun. split; [done|]. split; [simpl; lia|done].
Qed.

Lemma tokens_at_cons toks k ttype val pat :
tokens_at toks k ((ttype, val) :: pat) →
∃ tok, toks !! k = Some tok ∧ matches ttype val tok = true
       ∧ tokens_at toks (S k) pat.
Proof.
intros (found & rest & Hdrop & Hshape).
apply Forall2_cons_inv_l in Hshape as (tok & found' & Hm & Hshape & ->).
exists tok. split; [|split; [done|]].
- rewrite <- (Nat.add_0_r k), <- lookup_drop, Hdrop. done.
- exists found', rest. split; [|done].
  change (S k) with (1 + k)%nat. rewrite Nat.add_comm, <- drop_drop, Hdrop. done.
Qed.

Lemma matches_opening kw tok :
kw ∈ opening_keywords → matches KW (Some kw) tok = true → opening tok.
Proof.
intros Hkw [Hty Hval]%matches_spec. split; [done|]. by rewrite (Hval kw eq_refl).
Qed.

Lemma matches_other kw kw' tok :
kw ≠ kw' → matches KW (Some kw) tok = true → matches KW (Some kw') tok = false.
Proof.
intros Hne [Hty Hval]%matches_spec. unfold matches.
rewrite (Hval kw eq_refl), (bool_decide_eq_false_2 (kw = kw')) by done.
apply andb_false_r.
Qed.

(** A state before [j] whose token is taken by a test that the token at
  [j] does not pass is strictly before [j]. *)
Lemma upto_lt toks j K s ttype val tok tokj :
upto toks j K s → toks !! j = Some tokj → matches ttype val tokj = false →
toks !! pos s = Some tok → matches ttype val tok = true → (pos s < j)%nat.
Proof.
intros (_ & Hpos & _) Hj Hmj Htok Hm.
destruct (decide (pos s = j)) as [Heq|]; [|lia].
rewrite Heq in Htok. congruence.
Qed.

Lemma hoare_when {A} (P R : Parser → Prop) (m : M A) Q E :
(∀ s, P s → R s) → hoare (λ s, P s ∧ R s) m Q E → hoare P m Q E.
Proof. intros HR Hm s Hs. apply Hm. split; [done|by apply HR]. Qed.

Lemma drop_two {A} (l : list A) k x y :
l !! k = Some x → l !! S k = Some y → drop k l = x :: y :: drop (S (S k)) l.
Proof. intros Hx Hy. by rewrite (drop_S _ _ _ Hx), (drop_S _ _ _ Hy). Qed.

Ltac elem_cases H :=
repeat (apply elem_of_cons in H as [H|H]; [subst|]);
try (by apply elem_of_nil in H).

Lemma keyword_classes_disjoint kw kw' :
kw ∈ ["CARRUSEL"; "PRODUCTO"] → kw' ∈ ["RETIRAR"; "RESURTIR"; "CONTAR"] →
kw ≠ kw'.
Proof. intros H1 H2. elem_cases H1; elem_cases H2; discriminate. Qed.

(** ** A token that is not an identifier where one is expected *)

Section not_an_identifier.
Variable toks : list Token.
Variables (j : nat) (tokj tok : Token).
Hypothesis Hj : toks !! j = Some tokj.
Hypothesis Hopening : opening tokj.
Hypothesis Hty : type tok ≠ ID.

Local Abbreviation K := (λ _ : Parser, True).

(** Taking a keyword that the token at [j] is not. *)
Lemma other_keyword kw' s tok' :
  matches KW (Some kw') tokj = false →
  upto toks j K s → toks !! pos s = Some tok' →
  matches KW (Some kw') tok' = true → upto toks j K (jump 1 s).
Proof.
  intros Hmj Hs Htok' Hm. pose proof (upto_lt _ _ _ _ _ _ _ _ Hs Hj Hmj Htok' Hm).
  destruct Hs as (? & ? & ?). repeat split; simpl; (done || lia).
Qed.

Lemma off_j s : upto toks j K s → pos s ≠ j → upto toks j K (jump 1 s).
Proof. intros (? & ? & ?) ?. repeat split; simpl; (done || lia). Qed.

Section definition_name.
Variable kw : string.
Hypothesis Hkw : kw ∈ ["CARRUSEL"; "PRODUCTO"].
Hypothesis Hmj : matches KW (Some kw) tokj = true.
Hypothesis Htok : toks !! S j = Some tok.

Local Abbreviation Bad :=
  (λ e (s : Parser), pos s = S j ∧ e = esperaba_ID tok).
Local Abbreviation stays m :=
  (hoare (upto toks j K) m (λ _, upto toks j K) (ended j Bad)).

Lemma name_tx : stays tx.
Proof.
  apply (hoare_when _ (λ _, True)); [done|].
  apply (tx_when toks j K Bad ltac:(eauto) ltac:(done) (λ _, True)).
  intros kw' s tok' Hkw' Hs _.
  apply other_keyword; [|done]. eapply matches_other; [|done].
  by apply keyword_classes_disjoint.
Qed.

Lemma name_def_producto : stays def_producto.
Proof.
  intros s Hs. destruct (decide (kw = "PRODUCTO" ∧ pos s = j)) as [[-> Hpos]|Hne].
  - pose proof (upto_remaining _ _ _ _ Hs Hpos) as Hrem.
    rewrite (drop_two _ _ _ _ Hj Htok) in Hrem.
    rewrite (def_producto_not_id _ _ _ _ Hrem Hmj Hty).
    right. split; [simpl; lia|done].
  - apply (def_producto_when toks j K Bad ltac:(eauto) ltac:(done)
             (λ s, ¬ (kw = "PRODUCTO" ∧ pos s = j))); [|done|done].
    intros s' tok' Hs' HR Htok' Hm.
    destruct (decide (kw = "PRODUCTO")) as [->|Hkw'].
    + apply off_j; [done|]. intros ?. by apply HR.
    + eapply other_keyword; [|done..]. by eapply matches_other.
Qed.

Lemma name_def_carrusel : stays def_carrusel.
Proof.
  intros s Hs. destruct (decide (kw = "CARRUSEL" ∧ pos s = j)) as [[-> Hpos]|Hne].
  - pose proof (upto_remaining _ _ _ _ Hs Hpos) as Hrem.
    rewrite (drop_two _ _ _ _ Hj Htok) in Hrem.
    rewrite (def_carrusel_not_id _ _ _ _ Hrem Hmj Hty).
    right. split; [simpl; lia|done].
  - apply (def_carrusel_when toks j K Bad ltac:(eauto) ltac:(done) ltac:(done)
             (λ s, ¬ (kw = "CARRUSEL" ∧ pos s = j))); [|apply name_def_producto|done].
    intros s' tok' Hs' HR Htok' Hm.
    destruct (decide (kw = "CARRUSEL")) as [->|Hkw'].
    + apply off_j; [done|]. intros ?. by apply HR.
    + eapply other_keyword; [|done..]. by eapply matches_other.
Qed.
End definition_name.

Section transaction_argument.
Variable kw : string.
Variable lp : Token.
Hypothesis Hkw : kw ∈ ["RETIRAR"; "RESURTIR"; "CONTAR"].
Hypothesis Hmj : matches KW (Some kw) tokj = true.
Hypothesis Hlp : toks !! S j = Some lp.
Hypothesis Hmlp : matches LPAREN None lp = true.
Hypothesis Htok : toks !! S (S j) = Some tok.

Local Abbreviation Bad :=
  (λ e (s : Parser), pos s = S (S j) ∧ e = esperaba_ID tok).
Local Abbreviation stays m :=
  (hoare (upto toks j K) m (λ _, upto toks j K) (ended j Bad)).

Lemma argument_def_producto : stays def_producto.
Proof.
  apply (hoare_when _ (λ _, True)); [done|].
  apply (def_producto_when toks j K Bad ltac:(eauto) ltac:(done) (λ _, True));
    [|done].
  intros s tok' Hs _. apply other_keyword; [|done].
  eapply matches_other; [|done].
  intros Heq.
  by apply (keyword_classes_disjoint "PRODUCTO" kw ltac:(repeat constructor) Hkw).
Qed.

Lemma argument_def_carrusel : stays def_carrusel.
Proof.
  apply (hoare_when _ (λ _, True)); [done|].
  apply (def_carrusel_when toks j K Bad ltac:(eauto) ltac:(done) ltac:(done)
           (λ _, True)); [|apply argument_def_producto].
  intros s tok' Hs _. apply other_keyword; [|done].
  eapply matches_other; [|done].
  intros Heq.
  by apply (keyword_classes_disjoint "CARRUSEL" kw ltac:(repeat constructor) Hkw).
Qed.

Lemma argument_tx : stays tx.
Proof.
  intros s Hs. destruct (decide (pos s = j)) as [Hpos|Hne].
  - pose proof (upto_remaining _ _ _ _ Hs Hpos) as Hrem.
    rewrite (drop_two _ _ _ _ Hj Hlp), (drop_S _ _ _ Htok) in Hrem.
    rewrite (tx_not_id s [tokj; lp] tok _ kw Hkw Hrem); [|by repeat constructor|done].
    right. split; [simpl; lia|done].
  - apply (tx_when toks j K Bad ltac:(eauto) ltac:(done) (λ s, pos s ≠ j));
      [|done].
    intros kw' s' tok' _ Hs' HR _ _. by apply off_j.
Qed.
End transaction_argument.
End not_an_identifier.

(** On scanned tokens, a token that is not an identifier at index [k],
  where one is expected, ends the run: nothing after it is read, and if
  the run gets there it raises the syntactic error of [consume("ID")] on
  that token. *)
Lemma not_an_identifier_run toks k tok :
lexed toks → identifier_expected toks k →
toks !! k = Some tok → type tok ≠ ID →
∃ e s', parse toks = (Raise e, s') ∧ expected_error e
  ∧ ((pos s' < k)%nat ∨ (pos s' = k ∧ e = esperaba_ID tok)).
Proof.
intros Hlexed [(j & kw & Hkw & Hat & ->)|(j & kw & Hkw & Hat & ->)] Htok Hty.
- apply tokens_at_cons in Hat as (tokj & Hj & Hmj & _).
  assert (opening tokj) as Hop.
  { eapply matches_opening; [|done]. elem_cases Hkw; repeat constructor. }
  destruct (barrier_run toks j (λ _, True)
              (λ e s, pos s = S j ∧ e = esperaba_ID tok))
    as (e & s' & Hrun & Hexp & Hend); try done.
  + by exists tokj.
  + by eapply name_def_carrusel.
  + by eapply name_tx.
  + exists e, s'. split; [done|]. split; [done|].
    destruct Hend as [?|?]; [left; lia|by right].
- apply tokens_at_cons in Hat as (tokj & Hj & Hmj & Hat).
  apply tokens_at_cons in Hat as (lp & Hlp & Hmlp & _).
  assert (opening tokj) as Hop.
  { eapply matches_opening; [|done]. elem_cases Hkw; repeat constructor. }
  destruct (barrier_run toks j (λ _, True)
              (λ e s, pos s = S (S j) ∧ e = esperaba_ID tok))
    as (e & s' & Hrun & Hexp & Hend); try done.
  + by exists tokj.
  + by eapply argument_def_carrusel.
  + by eapply argument_tx.
  + exists e, s'. split; [done|]. split; [done|].
    destruct Hend as [?|?]; [left; lia|by right].
Qed.


(** ** The head of a definition, case by case *)

Lemma remaining_two s tok1 tok2 :
tokens s !! pos s = Some tok1 → tokens s !! S (pos s) = Some tok2 →
remaining s = [tok1; tok2] ++ drop (S (S (pos s))) (tokens s).
Proof. intros H1 H2. unfold remaining. by rewrite (drop_two _ _ _ _ H1 H2). Qed.

Lemma remaining_one s tok1 :
tokens s !! pos s = Some tok1 →
remaining s = tok1 :: drop (S (pos s)) (tokens s).
Proof. intros H1. unfold remaining. by rewrite (drop_S _ _ _ H1). Qed.

Lemma consume_mismatch s tok ttype val :
tokens s !! pos s = Some tok → matches ttype val tok = false →
consume ttype val s
= (Raise (ParseError (ErrorSintactico (line tok) (col tok)
            (Esperaba ttype val (type tok) (value tok)))), s).
Proof. intros Htok Hm. by rewrite (consume_Some _ _ _ _ Htok), Hm. Qed.

(** How [def_producto] can go, by the two tokens ahead: no keyword, no
  identifier after it, or a head naming some [pid], which is then found
  reserved, found defined, or recorded before the body is parsed. *)
Lemma def_producto_cases s :
(∃ e, def_producto s = (Raise e, s))
∨ (∃ e tok1, def_producto s = (Raise e, jump 1 s)
     ∧ tokens s !! pos s = Some tok1
     ∧ matches KW (Some "PRODUCTO") tok1 = true
     ∧ ∀ tok2, tokens s !! S (pos s) = Some tok2 → type tok2 ≠ ID)
∨ (∃ hd rest pid, remaining s = hd ++ rest
     ∧ shaped [(KW, Some "PRODUCTO"); (ID, Some pid)] hd
     ∧ ((in_RESERVED pid = true
         ∧ def_producto s
           = (Raise (ParseError (ErrorSemantico (ReservadaComoId pid))), jump 2 s))
        ∨ (in_RESERVED pid = false ∧ pid ∈ products_defined s
           ∧ def_producto s
             = (Raise (ParseError (ErrorSemantico (ProductoDuplicado pid))),
                jump 2 s))
        ∨ (in_RESERVED pid = false ∧ (pid ∉ products_defined s)
           ∧ def_producto s
             = producto_body (products_defined_add pid (jump 2 s)).2))).
Proof.
destruct (tokens s !! pos s) as [tok1|] eqn:H1; cycle 1.
{ left. eexists. unfold def_producto.
  by rewrite (bind_Raise _ _ _ _ _ (consume_None _ _ _ H1)). }
destruct (matches KW (Some "PRODUCTO") tok1) eqn:Hm1; cycle 1.
{ left. eexists. unfold def_producto.
  by rewrite (bind_Raise _ _ _ _ _ (consume_mismatch _ _ _ _ H1 Hm1)). }
pose proof (remaining_one _ _ H1) as Hrem1.
destruct (tokens s !! S (pos s)) as [tok2|] eqn:H2; cycle 1.
{ right; left. eexists _, tok1. split; [|by repeat split].
  unfold def_producto. rewrite (bind_Ok _ _ _ _ _ (consume_cons _ _ _ _ _ Hrem1 Hm1)).
  by rewrite (bind_Raise _ _ _ _ _ (consume_None (jump 1 s) _ _ H2)). }
destruct (decide (type tok2 = ID)) as [Hty|Hty]; cycle 1.
{ right; left. eexists _, tok1. split; [|repeat split; [done..|by intros ? [= <-]]].
  pose proof (remaining_two _ _ _ H1 H2) as Hrem.
  by rewrite (def_producto_not_id _ _ _ _ Hrem Hm1 Hty). }
right; right. pose proof (remaining_two _ _ _ H1 H2) as Hrem.
assert (shaped [(KW, Some "PRODUCTO"); (ID, Some (value tok2))] [tok1; tok2]) as Hhd.
{ repeat constructor; [done|]. apply matches_spec. split; [done|]. by intros ? [= <-]. }
eexists _, _, (value tok2). split; [done|]. split; [done|].
destruct (in_RESERVED (value tok2)) eqn:Hres.
- left. split; [done|]. clear Hhd. unfold def_producto.
  rewrite (bind_Ok _ _ _ _ _ (consume_cons _ _ _ _ _ Hrem1 Hm1)).
  pose proof (remaining_jump_1 _ _ _ Hrem) as Hrem2. simpl in Hrem2.
  rewrite (bind_Ok _ _ _ _ _ (consume_cons _ _ _ ID None Hrem2
    ltac:(by rewrite matches_type, bool_decide_eq_true_2))).
  cbv beta zeta. by rewrite Hres, jump_jump.
- right. destruct (decide (value tok2 ∈ products_defined s)) as [Hin|Hnin].
  + left. split; [done|]. split; [done|]. by eapply def_producto_duplicate.
  + right. split; [done|]. split; [done|]. by eapply def_producto_fresh.
Qed.

Lemma def_carrusel_cases s :
(∃ e, def_carrusel s = (Raise e, s))
∨ (∃ e tok1, def_carrusel s = (Raise e, jump 1 s)
     ∧ tokens s !! pos s = Some tok1
     ∧ matches KW (Some "CARRUSEL") tok1 = true
     ∧ ∀ tok2, tokens s !! S (pos s) = Some tok2 → type tok2 ≠ ID)
∨ (∃ hd rest cid, remaining s = hd ++ rest
     ∧ shaped [(KW, Some "CARRUSEL"); (ID, Some cid)] hd
     ∧ ((in_RESERVED cid = true
         ∧ def_carrusel s
           = (Raise (ParseError (ErrorSemantico (ReservadaComoId cid))), jump 2 s))
        ∨ (in_RESERVED cid = false ∧ cid ∈ carousels_defined s
           ∧ def_carrusel s
             = (Raise (ParseError (ErrorSemantico (CarruselDuplicado cid))),
                jump 2 s))
        ∨ (in_RESERVED cid = false ∧ (cid ∉ carousels_defined s)
           ∧ def_carrusel s
             = carrusel_body (carousels_defined_add cid (jump 2 s)).2))).
Proof.
destruct (tokens s !! pos s) as [tok1|] eqn:H1; cycle 1.
{ left. eexists. unfold def_carrusel.
  by rewrite (bind_Raise _ _ _ _ _ (consume_None _ _ _ H1)). }
destruct (matches KW (Some "CARRUSEL") tok1) eqn:Hm1; cycle 1.
{ left. eexists. unfold def_carrusel.
  by rewrite (bind_Raise _ _ _ _ _ (consume_mismatch _ _ _ _ H1 Hm1)). }
pose proof (remaining_one _ _ H1) as Hrem1.
destruct (tokens s !! S (pos s)) as [tok2|] eqn:H2; cycle 1.
{ right; left. eexists _, tok1. split; [|by repeat split].
  unfold def_carrusel. rewrite (bind_Ok _ _ _ _ _ (consume_cons _ _ _ _ _ Hrem1 Hm1)).
  by rewrite (bind_Raise _ _ _ _ _ (consume_None (jump 1 s) _ _ H2)). }
destruct (decide (type tok2 = ID)) as [Hty|Hty]; cycle 1.
{ right; left. eexists _, tok1. split; [|repeat split; [done..|by intros ? [= <-]]].
  pose proof (remaining_two _ _ _ H1 H2) as Hrem.
  by rewrite (def_carrusel_not_id _ _ _ _ Hrem Hm1 Hty). }
right; right. pose proof (remaining_two _ _ _ H1 H2) as Hrem.
assert (shaped [(KW, Some "CARRUSEL"); (ID, Some (value tok2))] [tok1; tok2]) as Hhd.
{ repeat constructor; [done|]. apply matches_spec. split; [done|]. by intros ? [= <-]. }
eexists _, _, (value tok2). split; [done|]. split; [done|].
destruct (in_RESERVED (value tok2)) eqn:Hres.
- left. split; [done|]. clear Hhd. unfold def_carrusel.
  rewrite (bind_Ok _ _ _ _ _ (consume_cons _ _ _ _ _ Hrem1 Hm1)).
  pose proof (remaining_jump_1 _ _ _ Hrem) as Hrem2. simpl in Hrem2.
  rewrite (bind_Ok _ _ _ _ _ (consume_cons _ _ _ ID None Hrem2
    ltac:(by rewrite matches_type, bool_decide_eq_true_2))).
  cbv beta zeta. by rewrite Hres, jump_jump.
- right. destruct (decide (value tok2 ∈ carousels_defined s)) as [Hin|Hnin].
  + left. split; [done|]. split; [done|]. by eapply def_carrusel_duplicate.
  + right. split; [done|]. split; [done|]. by eapply def_carrusel_fresh.
Qed.

(** ** A transaction on a product that no definition above it names *)

Lemma step_other_keyword toks j K s ttype val tok tokj :
(∀ s, K s → K (jump 1 s)) →
toks !! j = Some tokj → matches ttype val tokj = false →
upto toks j K s → toks !! pos s = Some tok →
matches ttype val tok = true → upto toks j K (jump 1 s).
Proof.
intros HK Hj Hmj Hs Htok Hm.
pose proof (upto_lt _ _ _ _ _ _ _ _ Hs Hj Hmj Htok Hm).
destruct Hs as (? & ? & ?). repeat split; simpl; [done|lia|by apply HK].
Qed.

Lemma step_off_j toks j K s :
(∀ s, K s → K (jump 1 s)) →
upto toks j K s → pos s ≠ j → upto toks j K (jump 1 s).
Proof.
intros HK (? & ? & ?) ?. repeat split; simpl; [done|lia|by apply HK].
Qed.

Lemma shaped_app pat1 pat2 toks1 toks2 :
shaped pat1 toks1 → shaped pat2 toks2 → shaped (pat1 ++ pat2) (toks1 ++ toks2).
Proof. apply Forall2_app. Qed.

Lemma declares_at s hd rest kw name :
remaining s = hd ++ rest → shaped [(KW, Some kw); (ID, Some name)] hd →
declares kw (tokens s) (pos s) name.
Proof. intros Hrem Hhd. by exists hd, rest. Qed.

Lemma matches_refl ttype v ln cl val :
(∀ x, val = Some x → v = x) → matches ttype val (mkToken ttype v ln cl) = true.
Proof. intros Hv. by apply matches_spec. Qed.

(** The amount of a transaction is what its INT token spells. *)
Lemma entry_qty kw pid found :
shaped [(KW, Some kw); (LPAREN, None); (ID, Some pid); (COMMA, None);
        (INT, None); (RPAREN, None)] found →
∃ tok, found !! 4%nat = Some tok ∧ type tok = INT
  ∧ shaped [(KW, Some kw); (LPAREN, None); (ID, Some pid); (COMMA, None);
            (INT, Some (value tok)); (RPAREN, None)] found.
Proof.
intros Hshape. shaped_inv Hshape. eexists. split; [reflexivity|]. split; [done|].
repeat constructor; apply matches_refl; (done || by intros ? [= <-]).
Qed.

Lemma tokens_at_elem (toks : list Token) j found rest k tok :
drop j toks = found ++ rest → found !! k = Some tok → toks !! (j + k)%nat = Some tok.
Proof.
intros Hdrop Hk. rewrite <- lookup_drop, Hdrop. by apply lookup_app_l_Some.
Qed.

Section undefined_product.
Variable toks : list Token.
Variables (j n : nat) (pid : string).
Hypothesis Hlexed : lexed toks.
Hypothesis Hentry : transaction_at toks j pid n.
Hypothesis Hundeclared : ∀ k, (k < j)%nat → ¬ declares "PRODUCTO" toks k pid.

Local Abbreviation K := (λ s : Parser, pid ∉ products_defined s).
Local Abbreviation Bad :=
  (λ e (s : Parser),
     pos s = (j + n)%nat
     ∧ e = ParseError (ErrorSemantico (ProductoNoDefinido pid))).
Local Abbreviation stays m :=
  (hoare (upto toks j K) m (λ _, upto toks j K) (ended j Bad)).

Lemma entry_keyword :
  ∃ tokj kw, toks !! j = Some tokj ∧ matches KW (Some kw) tokj = true
    ∧ kw ∈ ["RETIRAR"; "RESURTIR"; "CONTAR"].
Proof.
  destruct Hentry as [(kw & Hkw & Hat & _)|[Hat _]];
    apply tokens_at_cons in Hat as (tokj & Hj & Hm & _);
    exists tokj; eexists; (split; [done|]); (split; [done|]).
  - elem_cases Hkw; repeat constructor.
  - repeat constructor.
Qed.

Lemma entry_opening : ∃ tokj, toks !! j = Some tokj ∧ opening tokj.
Proof.
  destruct entry_keyword as (tokj & kw & Hj & Hm & Hkw). exists tokj.
  split; [done|]. eapply matches_opening; [|done]. elem_cases Hkw; repeat constructor.
Qed.

Lemma entry_not_other kw' tokj :
  kw' ∈ ["CARRUSEL"; "PRODUCTO"] → toks !! j = Some tokj →
  matches KW (Some kw') tokj = false.
Proof.
  intros Hkw' Hj. destruct entry_keyword as (tokj' & kw & Hj' & Hm & Hkw).
  assert (tokj' = tokj) as -> by congruence.
  eapply matches_other; [|done]. intros ->.
  by eapply keyword_classes_disjoint.
Qed.

Lemma K_jump : ∀ s, K s → K (jump 1 s).
Proof. done. Qed.

Lemma undefined_def_producto : stays def_producto.
Proof.
  intros s Hs. pose proof Hs as (Ht & Hpos & HK).
  destruct entry_opening as (tokj & Hj & Hop).
  pose proof (entry_not_other "PRODUCTO" tokj ltac:(repeat constructor) Hj) as Hmj.
  destruct (def_producto_cases s)
    as [[e ->]|[(e & tok1 & -> & H1 & Hm1 & _)|(hd & rest & pid' & Hrem & Hhd & Hcases)]].
  - by left.
  - left. rewrite Ht in H1.
    pose proof (upto_lt _ _ _ _ _ _ _ _ Hs Hj Hmj H1 Hm1). simpl. lia.
  - pose proof (declares_at _ _ _ _ _ Hrem Hhd) as Hdecl. rewrite Ht in Hdecl.
    pose proof Hdecl as (tok1 & H1 & Hm1 & (tok2 & H2 & Hm2 & _)%tokens_at_cons)%tokens_at_cons.
    pose proof (upto_lt _ _ _ _ _ _ _ _ Hs Hj Hmj H1 Hm1) as Hlt.
    assert (S (pos s) ≠ j) as Hne.
    { intros Heq. rewrite Heq in H2. destruct Hop as [Hkw _].
      apply matches_spec in Hm2 as [Hid _]. congruence. }
    destruct Hcases as [[_ ->]|[(_ & _ & ->)|(_ & Hfresh & ->)]].
    + left. simpl. lia.
    + left. simpl. lia.
    + eapply (stays_producto_body toks j K Bad);
        [by eauto|by intros ? ? (_ & _ & ?)|].
      split; [done|]. split; [simpl; lia|]. simpl.
      apply not_elem_of_union. split; [|done].
      intros Heq%elem_of_singleton. apply (Hundeclared (pos s)); [done|].
      by rewrite Heq.
Qed.

Lemma undefined_def_carrusel : stays def_carrusel.
Proof.
  destruct entry_opening as (tokj & Hj & Hop).
  apply (hoare_when _ (λ _, True)); [done|].
  apply (def_carrusel_when toks j K Bad ltac:(eauto)
           ltac:(by intros ? ? (_ & _ & ?)) ltac:(done)
           (λ _, True)); [|apply undefined_def_producto].
  intros s tok' Hs _. eapply step_other_keyword; [done..| |done].
  by apply entry_not_other; [repeat constructor|].
Qed.

Lemma undefined_tx : stays tx.
Proof.
  intros s Hs. destruct (decide (pos s = j)) as [Hpos|Hne].
  - pose proof (upto_remaining _ _ _ _ Hs Hpos) as Hrem.
    pose proof Hs as (_ & _ & HK).
    destruct Hentry as [(kw & Hkw & (found & rest & Hdrop & Hshape) & ->)
                       |[(found & rest & Hdrop & Hshape) ->]].
    + apply entry_qty in Hshape as (tok & H4 & Hty & Hshape).
      destruct (lexed_lookup toks (j + 4) tok Hlexed) as [_ Hlex];
        [by eapply tokens_at_elem|congruence|].
      unfold lexed_token in Hlex. rewrite Hty in Hlex. destruct Hlex as (qty & Hq & _).
      rewrite Hdrop in Hrem.
      assert (tx s = check_tx_semantics pid qty (jump 6 s)) as ->.
      { elem_cases Hkw; [by eapply tx_retirar|by eapply tx_resurtir]. }
      rewrite check_tx_undefined by done.
      right. split; [simpl; lia|done].
    + rewrite Hdrop in Hrem. rewrite (tx_contar _ _ _ _ Hrem Hshape).
      rewrite check_tx_undefined by done.
      right. split; [simpl; lia|done].
  - destruct entry_opening as (tokj & Hj & Hop).
    apply (tx_when toks j K Bad ltac:(eauto)
             ltac:(by intros ? ? (_ & _ & ?)) (λ s, pos s ≠ j)); [|done].
    intros kw' s' tok' _ Hs' HR _ _. by apply step_off_j.
Qed.
End undefined_product.

(** On scanned tokens, a transaction at index [j] on a product that no
  definition before [j] names ends the run: the tokens after it are never
  read, and if the run reaches the transaction it raises the error of
  the undefined product right after its last token. *)
Lemma undefined_product_run toks j n pid :
lexed toks → transaction_at toks j pid n →
(∀ k, (k < j)%nat → ¬ declares "PRODUCTO" toks k pid) →
∃ e s', parse toks = (Raise e, s') ∧ expected_error e
  ∧ ((pos s' ≤ j)%nat
     ∨ (pos s' = (j + n)%nat
        ∧ e = ParseError (ErrorSemantico (ProductoNoDefinido pid)))).
Proof.
intros Hlexed Hentry Hundeclared.
apply (barrier_run toks j (λ s, pid ∉ products_defined s)
         (λ e s, pos s = (j + n)%nat
                 ∧ e = ParseError (ErrorSemantico (ProductoNoDefinido pid))));
  try done.
- by eapply entry_opening.
- by intros ? ? (_ & _ & ?).
- by eapply undefined_def_carrusel.
- by eapply undefined_tx.
Qed.


(** ** Two definitions with the same identifier *)

Lemma declares_tokens kw toks k name :
declares kw toks k name →
∃ tok1 tok2, toks !! k = Some tok1 ∧ matches KW (Some kw) tok1 = true
  ∧ toks !! S k = Some tok2 ∧ type tok2 = ID ∧ value tok2 = name.
Proof.
intros (tok1 & H1 & Hm1 & (tok2 & H2 & Hm2 & _)%tokens_at_cons)%tokens_at_cons.
apply matches_spec in Hm2 as [Hty Hval]. exists tok1, tok2.
repeat split; try done. by apply Hval.
Qed.

Lemma declares_inj kw toks k name name' :
declares kw toks k name → declares kw toks k name' → name = name'.
Proof.
intros (? & tok2 & _ & _ & H2 & _ & <-)%declares_tokens
       (? & tok2' & _ & _ & H2' & _ & <-)%declares_tokens.
congruence.
Qed.

(** The index of an identifier is not the index of a keyword. *)
Lemma declares_apart kw kw' toks i j name name' :
declares kw toks i name → declares kw' toks j name' → S i ≠ j.
Proof.
intros (? & tok2 & _ & _ & H2 & Hty & _)%declares_tokens
       (tok1 & ? & H1 & [Hkw _]%matches_spec & _)%declares_tokens Heq.
rewrite <- Heq in H1. congruence.
Qed.

Lemma declares_not_reserved kw toks k name :
lexed toks → declares kw toks k name → in_RESERVED name = false.
Proof.
intros Hlexed (? & tok2 & _ & _ & H2 & Hty & <-)%declares_tokens.
destruct (lexed_lookup toks (S k) tok2 Hlexed H2) as [_ Hlex]; [congruence|].
unfold lexed_token in Hlex. by rewrite Hty in Hlex.
Qed.

Lemma declares_opening kw toks k name :
kw ∈ ["CARRUSEL"; "PRODUCTO"] → declares kw toks k name →
∃ tok, toks !! k = Some tok ∧ matches KW (Some kw) tok = true ∧ opening tok.
Proof.
intros Hkw (tok1 & ? & H1 & Hm & _)%declares_tokens. exists tok1.
split; [done|]. split; [done|]. eapply matches_opening; [|done].
elem_cases Hkw; repeat constructor.
Qed.

Section duplicate_carrusel.
Variable toks : list Token.
Variables (i j : nat) (name : string).
Hypothesis Hlexed : lexed toks.
Hypothesis Hi : declares "CARRUSEL" toks i name.
Hypothesis Hj : declares "CARRUSEL" toks j name.
Hypothesis Hij : (i < j)%nat.

Local Abbreviation K :=
  (λ s : Parser, (pos s ≤ i)%nat ∨ name ∈ carousels_defined s).
Local Abbreviation Bad :=
  (λ e (s : Parser),
     pos s = (j + 2)%nat
     ∧ e = ParseError (ErrorSemantico (CarruselDuplicado name))).
Local Abbreviation stays m :=
  (hoare (upto toks j K) m (λ _, upto toks j K) (ended j Bad)).

Lemma carrusel_j_opening : ∃ tokj, toks !! j = Some tokj ∧ opening tokj.
Proof.
  destruct (declares_opening "CARRUSEL" toks j name) as (tok & ? & _ & ?);
    [repeat constructor|done|by exists tok].
Qed.

(** Reading a token that is not the keyword at [i] or at [j] keeps the
    run before [j] and the first identifier recorded once read. *)
Lemma carrusel_step s tok ttype val :
  (∀ tok', matches KW (Some "CARRUSEL") tok' = true →
     matches ttype val tok' = false) →
  upto toks j K s → toks !! pos s = Some tok → matches ttype val tok = true →
  upto toks j K (jump 1 s).
Proof.
  intros Hother Hs Htok Hm. pose proof Hs as (Ht & Hpos & HK).
  destruct (declares_opening "CARRUSEL" toks i name) as (toki & Hti & Hmi & _);
    [repeat constructor|done|].
  destruct (declares_opening "CARRUSEL" toks j name) as (tokj & Htj & Hmj & _);
    [repeat constructor|done|].
  pose proof (upto_lt _ _ _ _ _ _ _ _ Hs Htj (Hother _ Hmj) Htok Hm) as Hlt.
  split; [done|]. split; [simpl; lia|]. simpl.
  destruct HK as [Hle|Hin]; [|by right]. left.
  destruct (decide (pos s = i)) as [Heq|]; [|lia].
  rewrite Heq in Htok. assert (toki = tok) as -> by congruence.
  rewrite (Hother _ Hmi) in Hm. done.
Qed.

Lemma carrusel_K_step s tok :
  upto toks j K s → toks !! pos s = Some tok → ¬ opening tok → K (jump 1 s).
Proof.
  intros Hs Htok Hplain. pose proof Hs as (Ht & Hpos & HK). simpl.
  destruct HK as [Hle|Hin]; [|by right]. left.
  destruct (declares_opening "CARRUSEL" toks i name) as (toki & Hti & _ & Hop);
    [repeat constructor|done|].
  destruct (decide (pos s = i)) as [Heq|]; [|lia].
  rewrite Heq in Htok. congruence.
Qed.

Lemma carrusel_K_add s cid : K s → K (carousels_defined_add cid s).2.
Proof. intros [?|?]; simpl; [by left|right; by apply elem_of_union_r]. Qed.

Lemma duplicate_carrusel_def_producto : stays def_producto.
Proof.
  apply (hoare_when _ (λ _, True)); [done|].
  apply (def_producto_when toks j K Bad carrusel_j_opening carrusel_K_step
           (λ _, True)); [|done].
  intros s tok' Hs _. apply carrusel_step; [|done].
  intros tok Hm. by apply (matches_other "CARRUSEL" "PRODUCTO").
Qed.

Lemma duplicate_carrusel_tx : stays tx.
Proof.
  apply (hoare_when _ (λ _, True)); [done|].
  apply (tx_when toks j K Bad carrusel_j_opening carrusel_K_step (λ _, True)).
  intros kw' s tok' Hkw' Hs _. apply carrusel_step; [|done].
  intros tok Hm. eapply matches_other; [|done].
  by apply keyword_classes_disjoint; [repeat constructor|].
Qed.

Lemma duplicate_carrusel_def_carrusel : stays def_carrusel.
Proof.
  intros s Hs. pose proof Hs as (Ht & Hpos & HK).
  pose proof (declares_apart _ _ _ _ _ _ _ Hi Hj) as Hapart.
  destruct (def_carrusel_cases s)
    as [[e ->]|[(e & tok1 & -> & H1 & Hm1 & Hnot)
               |(hd & rest & cid & Hrem & Hhd & Hcases)]].
  - by left.
  - left. simpl. destruct (decide (pos s = j)) as [Heq|]; [|lia].
    apply declares_tokens in Hj as (? & tok2 & _ & _ & H2 & Hty & _).
    rewrite Ht, Heq in Hnot. by specialize (Hnot _ H2).
  - pose proof (declares_at _ _ _ _ _ Hrem Hhd) as Hdecl. rewrite Ht in Hdecl.
    assert (pos s ≠ j → (S (S (pos s)) ≤ j)%nat) as Hbefore.
    { intros Hne. pose proof (declares_apart _ _ _ _ _ _ _ Hdecl Hj). lia. }
    destruct (decide (pos s = j)) as [Heq|Hne].
    + rewrite Heq in Hdecl. pose proof (declares_inj _ _ _ _ _ Hdecl Hj) as ->.
      pose proof (declares_not_reserved _ _ _ _ Hlexed Hj) as Hres.
      destruct HK as [Hle|Hin]; [lia|].
      destruct Hcases as [[Hres' _]|[(_ & _ & ->)|(_ & Hfresh & _)]];
        [congruence| |done].
      right. split; [simpl; lia|done].
    + specialize (Hbefore Hne).
      destruct Hcases as [[_ ->]|[(_ & _ & ->)|(_ & Hfresh & ->)]].
      * left. simpl. lia.
      * left. simpl. lia.
      * eapply (stays_carrusel_body toks j K Bad carrusel_j_opening carrusel_K_step);
          [apply duplicate_carrusel_def_producto|].
        split; [done|]. split; [simpl; lia|]. simpl.
        destruct (decide (pos s = i)) as [Heqi|Hnei].
        { right. rewrite Heqi in Hdecl.
          rewrite (declares_inj _ _ _ _ _ Hdecl Hi).
          apply elem_of_union_l. by apply elem_of_singleton. }
        destruct HK as [Hle|Hin]; [|right; by apply elem_of_union_r].
        left. pose proof (declares_apart _ _ _ _ _ _ _ Hdecl Hi). lia.
Qed.
End duplicate_carrusel.

Section duplicate_producto.
Variable toks : list Token.
Variables (i j : nat) (name : string).
Hypothesis Hlexed : lexed toks.
Hypothesis Hi : declares "PRODUCTO" toks i name.
Hypothesis Hj : declares "PRODUCTO" toks j name.
Hypothesis Hij : (i < j)%nat.

Local Abbreviation K :=
  (λ s : Parser, (pos s ≤ i)%nat ∨ name ∈ products_defined s).
Local Abbreviation Bad :=
  (λ e (s : Parser),
     pos s = (j + 2)%nat
     ∧ e = ParseError (ErrorSemantico (ProductoDuplicado name))).
Local Abbreviation stays m :=
  (hoare (upto toks j K) m (λ _, upto toks j K) (ended j Bad)).

Lemma producto_j_opening : ∃ tokj, toks !! j = Some tokj ∧ opening tokj.
Proof.
  destruct (declares_opening "PRODUCTO" toks j name) as (tok & ? & _ & ?);
    [repeat constructor|done|by exists tok].
Qed.

(** Reading a token that is not the keyword at [i] or at [j] keeps the
    run before [j] and the first identifier recorded once read. *)
Lemma producto_step s tok ttype val :
  (∀ tok', matches KW (Some "PRODUCTO") tok' = true →
     matches ttype val tok' = false) →
  upto toks j K s → toks !! pos s = Some tok → matches ttype val tok = true →
  upto toks j K (jump 1 s).
Proof.
  intros Hother Hs Htok Hm. pose proof Hs as (Ht & Hpos & HK).
  destruct (declares_opening "PRODUCTO" toks i name) as (toki & Hti & Hmi & _);
    [repeat constructor|done|].
  destruct (declares_opening "PRODUCTO" toks j name) as (tokj & Htj & Hmj & _);
    [repeat constructor|done|].
  pose proof (upto_lt _ _ _ _ _ _ _ _ Hs Htj (Hother _ Hmj) Htok Hm) as Hlt.
  split; [done|]. split; [simpl; lia|]. simpl.
  destruct HK as [Hle|Hin]; [|by right]. left.
  destruct (decide (pos s = i)) as [Heq|]; [|lia].
  rewrite Heq in Htok. assert (toki = tok) as -> by congruence.
  rewrite (Hother _ Hmi) in Hm. done.
Qed.

Lemma producto_K_step s tok :
  upto toks j K s → toks !! pos s = Some tok → ¬ opening tok → K (jump 1 s).
Proof.
  intros Hs Htok Hplain. pose proof Hs as (Ht & Hpos & HK). simpl.
  destruct HK as [Hle|Hin]; [|by right]. left.
  destruct (declares_opening "PRODUCTO" toks i name) as (toki & Hti & _ & Hop);
    [repeat constructor|done|].
  destruct (decide (pos s = i)) as [Heq|]; [|lia].
  rewrite Heq in Htok. congruence.
Qed.

Lemma producto_K_add s pid : K s → K (products_defined_add pid s).2.
Proof. intros [?|?]; simpl; [by left|right; by apply elem_of_union_r]. Qed.

Lemma producto_K_carousel s cid : K s → K (carousels_defined_add cid s).2.
Proof. done. Qed.

Lemma duplicate_producto_tx : stays tx.
Proof.
  apply (hoare_when _ (λ _, True)); [done|].
  apply (tx_when toks j K Bad producto_j_opening producto_K_step (λ _, True)).
  intros kw' s tok' Hkw' Hs _. apply producto_step; [|done].
  intros tok Hm. eapply matches_other; [|done].
  by apply keyword_classes_disjoint; [repeat constructor|].
Qed.

Lemma duplicate_producto_def_producto : stays def_producto.
Proof.
  intros s Hs. pose proof Hs as (Ht & Hpos & HK).
  pose proof (declares_apart _ _ _ _ _ _ _ Hi Hj) as Hapart.
  destruct (def_producto_cases s)
    as [[e ->]|[(e & tok1 & -> & H1 & Hm1 & Hnot)
               |(hd & rest & pid & Hrem & Hhd & Hcases)]].
  - by left.
  - left. simpl. destruct (decide (pos s = j)) as [Heq|]; [|lia].
    apply declares_tokens in Hj as (? & tok2 & _ & _ & H2 & Hty & _).
    rewrite Ht, Heq in Hnot. by specialize (Hnot _ H2).
  - pose proof (declares_at _ _ _ _ _ Hrem Hhd) as Hdecl. rewrite Ht in Hdecl.
    assert (pos s ≠ j → (S (S (pos s)) ≤ j)%nat) as Hbefore.
    { intros Hne. pose proof (declares_apart _ _ _ _ _ _ _ Hdecl Hj). lia. }
    destruct (decide (pos s = j)) as [Heq|Hne].
    + rewrite Heq in Hdecl. pose proof (declares_inj _ _ _ _ _ Hdecl Hj) as ->.
      pose proof (declares_not_reserved _ _ _ _ Hlexed Hj) as Hres.
      destruct HK as [Hle|Hin]; [lia|].
      destruct Hcases as [[Hres' _]|[(_ & _ & ->)|(_ & Hfresh & _)]];
        [congruence| |done].
      right. split; [simpl; lia|done].
    + specialize (Hbefore Hne).
      destruct Hcases as [[_ ->]|[(_ & _ & ->)|(_ & Hfresh & ->)]].
      * left. simpl. lia.
      * left. simpl. lia.
      * eapply (stays_producto_body toks j K Bad producto_j_opening producto_K_step).
        split; [done|]. split; [simpl; lia|]. simpl.
        destruct (decide (pos s = i)) as [Heqi|Hnei].
        { right. rewrite Heqi in Hdecl.
          rewrite (declares_inj _ _ _ _ _ Hdecl Hi).
          apply elem_of_union_l. by apply elem_of_singleton. }
        destruct HK as [Hle|Hin]; [|right; by apply elem_of_union_r].
        left. pose proof (declares_apart _ _ _ _ _ _ _ Hdecl Hi). lia.
Qed.

Lemma duplicate_producto_def_carrusel : stays def_carrusel.
Proof.
  apply (hoare_when _ (λ _, True)); [done|].
  apply (def_carrusel_when toks j K Bad producto_j_opening producto_K_step
           producto_K_carousel (λ _, True)); [|apply duplicate_producto_def_producto].
  intros s tok' Hs _. apply producto_step; [|done].
  intros tok Hm. by apply (matches_other "PRODUCTO" "CARRUSEL").
Qed.
End duplicate_producto.

(** On scanned tokens, a second definition of a carousel (or of a product)
  with an identifier already used by an earlier one ends the run: the
  tokens after its identifier are never read, and if the run reaches it,
  it raises the error of the duplicate right after the identifier. *)
Lemma duplicate_run kw toks i j name :
kw ∈ ["CARRUSEL"; "PRODUCTO"] →
lexed toks → declares kw toks i name → declares kw toks j name → (i < j)%nat →
∃ e s', parse toks = (Raise e, s') ∧ expected_error e
  ∧ ((pos s' ≤ j)%nat
     ∨ (pos s' = (j + 2)%nat
        ∧ e = ParseError (ErrorSemantico
                (if bool_decide (kw = "CARRUSEL") then CarruselDuplicado name
                 else ProductoDuplicado name)))).
Proof.
intros Hkw Hlexed Hi Hj Hij. elem_cases Hkw.
- apply (barrier_run toks j
           (λ s, (pos s ≤ i)%nat ∨ name ∈ carousels_defined s)
           (λ e s, pos s = (j + 2)%nat
                   ∧ e = ParseError (ErrorSemantico (CarruselDuplicado name))));
    try done.
  + by eapply carrusel_j_opening.
  + by eapply carrusel_K_step.
  + left. simpl. lia.
  + by eapply duplicate_carrusel_def_carrusel.
  + by eapply duplicate_carrusel_tx.
- apply (barrier_run toks j
           (λ s, (pos s ≤ i)%nat ∨ name ∈ products_defined s)
           (λ e s, pos s = (j + 2)%nat
                   ∧ e = ParseError (ErrorSemantico (ProductoDuplicado name))));
    try done.
  + by eapply producto_j_opening.
  + by eapply producto_K_step.
  + left. simpl. lia.
  + by eapply duplicate_producto_def_carrusel.
  + by eapply duplicate_producto_tx.
Qed.

(** * Tools for the statements on whole texts *)

Lemma tokens_at_take toks k pat :
shaped pat (take (length pat) (drop k toks)) → tokens_at toks k pat.
Proof.
intros Hshape. exists (take (length pat) (drop k toks)), (drop (length pat) (drop k toks)).
split; [|done]. by rewrite take_drop.
Qed.

Lemma tokenize_tokens_of text toks : tokenize text = Ok toks → tokens_of text = toks.
Proof. unfold tokens_of. by intros ->. Qed.

Lemma validate_parse text toks :
tokenize text = Ok toks → validate text = (parse toks).1.
Proof. unfold validate. by intros ->. Qed.

Lemma lexed_reserved_not_ID toks tok :
lexed toks → tok ∈ toks → in_RESERVED (value tok) = true → type tok ≠ ID.
Proof.
intros Hlexed Hin Hres Hty.
assert (lexed_token tok) as Hlex by (apply (lexed_elem toks); [done..|congruence]).
unfold lexed_token in Hlex. rewrite Hty in Hlex. congruence.
Qed.

(** Layouts of concrete token lists. *)
Ltac layout :=
repeat lazymatch goal with
  | |- (_ ⋅ _) _ => eexists _, _; split; [reflexivity|split]
  | |- terminator _ =>
      eexists _, _; split; [reflexivity|];
      split; [first [by left | by right]|repeat constructor]
  | |- newlines _ => repeat constructor
  | |- shaped _ _ => repeat constructor
  end.

(** ** The end of the block of transactions *)

Lemma or_else_SEMI_NL {B} (k : bool → M B) s tok rest :
remaining s = tok :: rest →
bind (or_else (match_ SEMI None) (match_ NL None)) k s
= k (bool_decide (type tok = SEMI) || bool_decide (type tok = NL)) s.
Proof.
intros Hrem. unfold or_else. rewrite bind_assoc.
rewrite (bind_Ok _ _ _ _ _ (match_cons _ _ _ SEMI None Hrem)), matches_type.
destruct (bool_decide (type tok = SEMI)); [done|].
by rewrite (bind_Ok _ _ _ _ _ (match_cons _ _ _ NL None Hrem)), matches_type.
Qed.

Lemma bloque_transacciones_vacio s hd rest :
remaining s = hd ++ rest →
shaped [(KW, Some "TRANSACCIONES"); (COLON, None); (LBRACKET, None);
        (RBRACKET, None)] hd →
bloque_transacciones s
= (term <- or_else (match_ SEMI None) (match_ NL None) ;;
   if term then fin
   else tok <- current ;; syntax_error tok FaltaFinTrasCorchete) (jump 4 s)
∧ remaining (jump 4 s) = rest.
Proof.
intros Hrem Hhd. split.
2: { pose proof (remaining_jump_app _ _ _ Hrem) as Hrest.
     by rewrite (shaped_length _ _ Hhd) in Hrest. }
shaped_inv Hhd. simpl in Hrem. unfold bloque_transacciones.
repeat run_more. cbn [negb].
change (bind (ret ()) ?k ?s) with (k () s).
repeat run_more. by rewrite !jump_jump.
Qed.

(** * The properties of the specification *)

Lemma scan_step_minus text st rest :
  string_drop (sc_i st) text = String "-"%char rest →
  scan_step text st
  = Raise (ParseError (ErrorLexico (sc_line st) (sc_col st) "-"%char)).
Proof. intros Hchunk. unfold scan_step. by rewrite Hchunk. Qed.

(** C1, as stated, fails: with the price written [-1.0] the scenario is not
    rejected with the semantic error on the price. *)
Lemma negative_price_not_semantic :
  validate (programa_ejemplo "-1.0")
  ≠ Raise (ParseError (ErrorSemantico PrecioNegativo)).
Proof. vm_compute. discriminate. Qed.

(** C1, amended: the scenario with price [1.50] is accepted; with the price
    written [-1.0] it is rejected with a lexical error at the minus sign
    (line 5, column 13), because a round of the scanner that meets a minus
    sign raises that error; and no text at all is rejected with the
    semantic error on the price. *)
Theorem negative_price_lexical_error :
  validate (programa_ejemplo "1.50") = Ok ()
  ∧ validate (programa_ejemplo "-1.0")
    = Raise (ParseError (ErrorLexico 5 13 "-"%char))
  ∧ (∀ text st rest,
       string_drop (sc_i st) text = String "-"%char rest →
       scan_step text st
       = Raise (ParseError (ErrorLexico (sc_line st) (sc_col st) "-"%char)))
  ∧ (∀ text, validate text ≠ Raise (ParseError (ErrorSemantico PrecioNegativo))).
Proof.
  split; [by vm_compute|]. split; [by vm_compute|]. split; [apply scan_step_minus|].
  intros text Hval.
  destruct (validate_outcome text) as [Hok|[(? & ? & ? & Herr)|(e & He & Hexp)]];
    rewrite Hval in *; try done.
  injection He as <-. simpl in Hexp. by destruct Hexp.
Qed.

Lemma negative_price_lexical_error_witness :
  scan_step "-1.0" scan_init = Raise (ParseError (ErrorLexico 1 1 "-"%char)).
Proof.
  apply (proj1 (proj2 (proj2 negative_price_lexical_error)) "-1.0" scan_init "1.0").
  reflexivity.
Defined.

(** C2: when the head of a carousel (of a product) names an identifier that
    is already in the set of the carousels (of the products) defined so
    far, the definition raises the error of the duplicate right after the
    identifier, whatever the tokens that follow; a carousel definition
    never removes a product from the set of the products; and on the
    tokens of any text, a second definition with the identifier of an
    earlier one is where the run ends, if not before: nothing after its
    identifier is read. *)
Theorem duplicate_identifier_rejected :
  (∀ s hd rest cid,
     remaining s = hd ++ rest →
     shaped [(KW, Some "CARRUSEL"); (ID, Some cid)] hd →
     in_RESERVED cid = false → cid ∈ carousels_defined s →
     def_carrusel s
     = (Raise (ParseError (ErrorSemantico (CarruselDuplicado cid))), jump 2 s))
  ∧ (∀ s hd rest pid,
       remaining s = hd ++ rest →
       shaped [(KW, Some "PRODUCTO"); (ID, Some pid)] hd →
       in_RESERVED pid = false → pid ∈ products_defined s →
       def_producto s
       = (Raise (ParseError (ErrorSemantico (ProductoDuplicado pid))), jump 2 s))
  ∧ (∀ s, (pos s ≤ length (tokens s))%nat →
       products_defined s ⊆ products_defined (def_carrusel s).2)
  ∧ (∀ text toks kw i j name,
       tokenize text = Ok toks →
       kw ∈ ["CARRUSEL"; "PRODUCTO"] →
       declares kw toks i name → declares kw toks j name → (i < j)%nat →
       ∃ e s', parse toks = (Raise e, s') ∧ validate text = Raise e
         ∧ expected_error e
         ∧ ((pos s' ≤ j)%nat
            ∨ (pos s' = (j + 2)%nat
               ∧ e = ParseError (ErrorSemantico
                       (if bool_decide (kw = "CARRUSEL")
                        then CarruselDuplicado name
                        else ProductoDuplicado name))))).
Proof.
  split; [apply def_carrusel_duplicate|]. split; [apply def_producto_duplicate|].
  split.
  - intros s Hs. by destruct (advances_def_carrusel s Hs) as ((_ & _ & ? & _) & _).
  - intros text toks kw i j name Htok Hkw Hi Hj Hij.
    destruct (duplicate_run kw toks i j name Hkw (tokenize_lexed _ _ Htok) Hi Hj Hij)
      as (e & s' & Hrun & Hexp & Hend).
    exists e, s'. split; [done|]. split; [|done].
    by rewrite (validate_parse _ _ Htok), Hrun.
Qed.

Lemma duplicate_identifier_rejected_witness :
  ∃ e s', parse (tokens_of ejemplo_carrusel_duplicado) = (Raise e, s')
    ∧ validate ejemplo_carrusel_duplicado = Raise e
    ∧ expected_error e
    ∧ ((pos s' ≤ 14)%nat
       ∨ (pos s' = 16%nat
          ∧ e = ParseError (ErrorSemantico (CarruselDuplicado "a")))).
Proof.
  apply (proj2 (proj2 (proj2 duplicate_identifier_rejected))
           ejemplo_carrusel_duplicado (tokens_of ejemplo_carrusel_duplicado)
           "CARRUSEL" 0%nat 14%nat "a").
  - by vm_compute.
  - repeat constructor.
  - apply tokens_at_take. vm_compute. repeat constructor.
  - apply tokens_at_take. vm_compute. repeat constructor.
  - lia.
Defined.

(** C3: a transaction of any of the three forms on a product that is not in
    the set of the products defined so far raises the error of the
    undefined product as soon as its last token is consumed; and on the
    tokens of any text, a transaction on a product that no product
    definition above it names is where the run ends, if not before:
    nothing after the transaction is read. *)
Theorem undefined_product_rejected :
  (∀ s entry rest pid,
     remaining s = entry ++ rest → pid ∉ products_defined s →
     (∀ kw q qty,
        kw ∈ ["RETIRAR"; "RESURTIR"] →
        shaped [(KW, Some kw); (LPAREN, None); (ID, Some pid); (COMMA, None);
                (INT, Some q); (RPAREN, None)] entry →
        py_int q = Some qty →
        tx s = (Raise (ParseError (ErrorSemantico (ProductoNoDefinido pid))),
                jump 6 s))
     ∧ (shaped [(KW, Some "CONTAR"); (LPAREN, None); (ID, Some pid);
                (RPAREN, None)] entry →
        tx s = (Raise (ParseError (ErrorSemantico (ProductoNoDefinido pid))),
                jump 4 s)))
  ∧ (∀ text toks j n pid,
       tokenize text = Ok toks →
       transaction_at toks j pid n →
       (∀ k, (k < j)%nat → ¬ declares "PRODUCTO" toks k pid) →
       ∃ e s', parse toks = (Raise e, s') ∧ validate text = Raise e
         ∧ expected_error e
         ∧ ((pos s' ≤ j)%nat
            ∨ (pos s' = (j + n)%nat
               ∧ e = ParseError (ErrorSemantico (ProductoNoDefinido pid))))).
Proof.
  split.
  - intros s entry rest pid Hrem Hpid. split.
    + intros kw q qty Hkw Hentry Hq.
      assert (tx s = check_tx_semantics pid qty (jump 6 s)) as ->.
      { elem_cases Hkw; [by eapply tx_retirar|by eapply tx_resurtir]. }
      by apply check_tx_undefined.
    + intros Hentry. rewrite (tx_contar _ _ _ _ Hrem Hentry).
      by apply check_tx_undefined.
  - intros text toks j n pid Htok Hentry Hund.
    destruct (undefined_product_run toks j n pid (tokenize_lexed _ _ Htok) Hentry Hund)
      as (e & s' & Hrun & Hexp & Hend).
    exists e, s'. split; [done|]. split; [|done].
    by rewrite (validate_parse _ _ Htok), Hrun.
Qed.

Lemma undefined_product_rejected_witness :
  ∃ e s', parse (tokens_of ejemplo_producto_no_definido) = (Raise e, s')
    ∧ validate ejemplo_producto_no_definido = Raise e
    ∧ expected_error e
    ∧ ((pos s' ≤ 6)%nat
       ∨ (pos s' = 10%nat
          ∧ e = ParseError (ErrorSemantico (ProductoNoDefinido "p2")))).
Proof.
  apply (proj2 undefined_product_rejected
           ejemplo_producto_no_definido (tokens_of ejemplo_producto_no_definido)
           6%nat 4%nat "p2").
  - by vm_compute.
  - right. split; [|reflexivity]. apply tokens_at_take. vm_compute. repeat constructor.
  - intros k Hk (tok1 & tok2 & H1 & Hm1 & _)%declares_tokens.
    do 6 (destruct k as [|k]; [vm_compute in H1; injection H1 as <-; discriminate|]).
    lia.
Defined.

(** C4: in a product definition parsed up to the value of MAXIMO, with the
    value of MINIMO strictly greater, [def_producto] raises the semantic
    error on the bounds there, before any token of the rest is consumed;
    with MINIMO at most MAXIMO (equal included) and the rest of the
    definition well formed, it returns. *)
Theorem minimo_maximo_check :
  ∀ s consumed rest pid d mn mx price minimo maximo,
    remaining s = consumed ++ rest →
    producto_hasta_maximo pid d mn mx consumed →
    in_RESERVED pid = false → pid ∉ products_defined s →
    py_float d = Some price → float_lt_0 price = false →
    py_int mn = Some minimo → py_int mx = Some maximo →
    (minimo > maximo →
     def_producto s
     = (Raise (ParseError (ErrorSemantico MinimoMayorQueMaximo)),
        (products_defined_add pid (jump (length consumed) s)).2))
    ∧ (minimo ≤ maximo →
       ∀ tail rest' crit,
         rest = tail ++ rest' → producto_tras_maximo crit tail →
         crit ∈ ["ALTA"; "MEDIA"; "BAJA"] → next_not_nl rest' →
         def_producto s
         = (Ok (),
            (products_defined_add pid
               (jump (length consumed + length tail) s)).2)).
Proof.
  intros s consumed rest pid d mn mx price minimo maximo
    Hrem Hlayout Hres Hfresh Hd Hprice Hmn Hmx.
  destruct (def_producto_hasta_maximo s consumed rest pid d mn mx price minimo
              maximo Hrem Hlayout Hres Hfresh Hd Hprice Hmn Hmx) as [-> Hrem'].
  split.
  - intros Hgt. apply Z.gtb_gt in Hgt. unfold semantic_error.
    by rewrite (bind_raise_if _ _ _ _ Hgt).
  - intros Hle tail rest' crit -> Htail Hcrit Hnext.
    assert ((minimo >? maximo) = false) as Hb by (rewrite Z.gtb_ltb; lia).
    rewrite (bind_ret_if _ _ _ _ Hb).
    rewrite (producto_tras_maximo_run _ _ _ _ Hrem' Htail Hcrit Hnext).
    f_equal. apply Parser_eq; simpl; (done || lia).
Qed.

Lemma minimo_maximo_check_witness :
  def_producto (Parser_init (ejemplo_hasta_maximo ++ ejemplo_tras_maximo
                             ++ [tok RBRACE "}"]))
  = (Ok (), mkParser (ejemplo_hasta_maximo ++ ejemplo_tras_maximo
                      ++ [tok RBRACE "}"]) 24 {[ "p1" ]} ∅).
Proof.
  assert (producto_hasta_maximo "p1" "1.50" "3" "3" ejemplo_hasta_maximo) as Hhasta.
  { unfold producto_hasta_maximo, ejemplo_hasta_maximo.
    rewrite !app_assoc. layout. }
  assert (producto_tras_maximo "BAJA" ejemplo_tras_maximo) as Htras.
  { unfold producto_tras_maximo, ejemplo_tras_maximo.
    rewrite !app_assoc. layout. }
  pose proof (proj2 (minimo_maximo_check
    (Parser_init (ejemplo_hasta_maximo ++ ejemplo_tras_maximo ++ [tok RBRACE "}"]))
    ejemplo_hasta_maximo (ejemplo_tras_maximo ++ [tok RBRACE "}"])
    "p1" "1.50" "3" "3" (mkDecimal false 150 2) 3 3
    eq_refl Hhasta eq_refl ltac:(apply not_elem_of_empty) eq_refl eq_refl eq_refl eq_refl)
    ltac:(lia) ejemplo_tras_maximo [tok RBRACE "}"] "BAJA" eq_refl Htras
    ltac:(repeat constructor) ltac:(by eexists _, _)) as Hrun.
  rewrite Hrun. reflexivity.
Defined.

(** C6: the scanner never gives the type ID to a reserved word; a method
    that wants an identifier and finds a token of another type raises the
    syntactic error of [consume] on that token; and on the tokens of any
    text, a reserved word at a place where the grammar wants an identifier
    ends the run with a syntactic or a semantic error, at that token if not
    before: the text is not accepted. *)
Theorem reserved_word_as_identifier_rejected :
  (∀ text toks tok,
     tokenize text = Ok toks → tok ∈ toks →
     in_RESERVED (value tok) = true → type tok ≠ ID)
  ∧ (∀ s kw tok rest,
       remaining s = kw :: tok :: rest → type tok ≠ ID →
       (matches KW (Some "CARRUSEL") kw = true →
        def_carrusel s = (Raise (esperaba_ID tok), jump 1 s))
       ∧ (matches KW (Some "PRODUCTO") kw = true →
          def_producto s = (Raise (esperaba_ID tok), jump 1 s)))
  ∧ (∀ s hd tok rest kw,
       kw ∈ ["RETIRAR"; "RESURTIR"; "CONTAR"] →
       remaining s = hd ++ tok :: rest →
       shaped [(KW, Some kw); (LPAREN, None)] hd → type tok ≠ ID →
       tx s = (Raise (esperaba_ID tok), jump 2 s))
  ∧ (∀ text toks k tok,
       tokenize text = Ok toks →
       identifier_expected toks k → toks !! k = Some tok →
       in_RESERVED (value tok) = true →
       ∃ e s', parse toks = (Raise e, s') ∧ validate text = Raise e
         ∧ validate text ≠ Ok ()
         ∧ expected_error e
         ∧ ((pos s' < k)%nat ∨ (pos s' = k ∧ e = esperaba_ID tok))).
Proof.
  split; [|split; [|split]].
  - intros text toks tok Htok. apply lexed_reserved_not_ID. by eapply tokenize_lexed.
  - intros s kw tok rest Hrem Hty. split; intros Hkw.
    + by eapply def_carrusel_not_id.
    + by eapply def_producto_not_id.
  - intros s hd tok rest kw Hkw Hrem Hhd Hty. by eapply tx_not_id.
  - intros text toks k tok Htok Hk Hlook Hres.
    pose proof (tokenize_lexed _ _ Htok) as Hlexed.
    assert (type tok ≠ ID) as Hty.
    { apply (lexed_reserved_not_ID toks); [done| |done].
      by eapply list_elem_of_lookup_2. }
    destruct (not_an_identifier_run toks k tok Hlexed Hk Hlook Hty)
      as (e & s' & Hrun & Hexp & Hend).
    exists e, s'. rewrite (validate_parse _ _ Htok), Hrun. by repeat split.
Qed.

Lemma reserved_word_as_identifier_rejected_witness :
  ∃ e s', parse (tokens_of ejemplo_reservada) = (Raise e, s')
    ∧ validate ejemplo_reservada = Raise e
    ∧ validate ejemplo_reservada ≠ Ok ()
    ∧ expected_error e
    ∧ ((pos s' < 1)%nat
       ∨ (pos s' = 1%nat ∧ e = esperaba_ID (mkToken KW "PRODUCTO" 1 10))).
Proof.
  apply (proj2 (proj2 (proj2 reserved_word_as_identifier_rejected))
           ejemplo_reservada (tokens_of ejemplo_reservada) 1%nat
           (mkToken KW "PRODUCTO" 1 10)).
  - by vm_compute.
  - left. exists 0%nat, "CARRUSEL". split; [repeat constructor|]. split; [|done].
    apply tokens_at_take. vm_compute. repeat constructor.
  - by vm_compute.
  - by vm_compute.
Defined.

(** C9: the tokens of type ID that the scanner returns never hold a
    reserved word, so the token that [consume] returns for ID on scanned
    tokens is no reserved word, the definitions of a carousel and of a
    product never raise the error of the reserved identifier on them, and
    no text is rejected with that error. *)
Theorem reserved_word_check_unreachable :
  (∀ text toks tok,
     tokenize text = Ok toks → tok ∈ toks → type tok = ID →
     in_RESERVED (value tok) = false)
  ∧ (∀ text s tok s',
       tokenize text = Ok (tokens s) →
       consume ID None s = (Ok tok, s') →
       in_RESERVED (value tok) = false)
  ∧ (∀ text s name,
       tokenize text = Ok (tokens s) → (pos s < length (tokens s))%nat →
       (def_carrusel s).1 ≠ Raise (ParseError (ErrorSemantico (ReservadaComoId name)))
       ∧ (def_producto s).1 ≠ Raise (ParseError (ErrorSemantico (ReservadaComoId name))))
  ∧ (∀ text name,
       validate text ≠ Raise (ParseError (ErrorSemantico (ReservadaComoId name)))).
Proof.
  assert (∀ toks tok, lexed toks → tok ∈ toks → type tok = ID →
            in_RESERVED (value tok) = false) as Hid.
  { intros toks tok Hlexed Hin Hty.
    assert (lexed_token tok) as Hlex by (apply (lexed_elem toks); [done..|congruence]).
    unfold lexed_token in Hlex. by rewrite Hty in Hlex. }
  split; [|split; [|split]].
  - intros text toks tok Htok. apply Hid. by eapply tokenize_lexed.
  - intros text s tok s' Htok Hrun. unfold consume in Hrun.
    destruct (tokens s !! pos s) as [tok'|] eqn:Hlook.
    + rewrite (bind_Ok _ _ _ _ _ (current_Some _ _ Hlook)) in Hrun.
      rewrite (bind_Ok _ _ _ _ _ (match_Some _ _ ID None Hlook)) in Hrun.
      rewrite matches_type in Hrun. case_bool_decide as Hty; [|done].
      simpl in Hrun. injection Hrun as <- _.
      apply (Hid (tokens s)); [by eapply tokenize_lexed| |done].
      by eapply list_elem_of_lookup_2.
    + unfold bind, current in Hrun. by rewrite Hlook in Hrun.
  - intros text s name Htok Hpos.
    pose proof (tokenize_lexed _ _ Htok) as Hlexed.
    assert (reading (tokens s) s) as Hs by done.
    pose proof (safe_def_carrusel _ Hlexed s Hs) as Hc.
    pose proof (safe_def_producto _ Hlexed s Hs) as Hp.
    split.
    + destruct (def_carrusel s) as [[?|e|] ?]; simpl; [done| |done].
      intros [= ->]. destruct Hc as [_ Hc]. by apply (Hc name).
    + destruct (def_producto s) as [[?|e|] ?]; simpl; [done| |done].
      intros [= ->]. destruct Hp as [_ Hp]. by apply (Hp name).
  - intros text name Hrun.
    destruct (validate_outcome text) as [Hok|[(? & ? & ? & Hlex)|(e & He & Hexp)]];
      [congruence..|].
    rewrite Hrun in He. injection He as <-. destruct Hexp as [_ Hexp].
    by apply (Hexp name).
Qed.

Lemma reserved_word_check_unreachable_witness :
  in_RESERVED "c1" = false.
Proof.
  apply (proj1 (proj2 reserved_word_check_unreachable) "CARRUSEL c1"
           (jump 1 (Parser_init (tokens_of "CARRUSEL c1")))
           (mkToken ID "c1" 1 10)
           (jump 2 (Parser_init (tokens_of "CARRUSEL c1")))).
  - by vm_compute.
  - by vm_compute.
Defined.

(** C7: where a statement ends, [fin] consumes a semicolon or a newline
    together with the newlines that follow, so the three ways of ending a
    statement leave the same tokens to read and any method that runs next
    returns the same result after each of them; on a token that is neither
    a semicolon nor a newline [fin] raises a syntactic error and consumes
    nothing; the block of transactions, which tests the token after its
    closing bracket itself, ends the same way. *)
Theorem fin_terminators_equivalent :
  (∀ s T rest,
     remaining s = T ++ rest → terminator T → next_not_nl rest →
     fin s = (Ok (), jump (length T) s))
  ∧ (∀ A (k : M A) s1 s2 T1 T2 rest,
       local k →
       remaining s1 = T1 ++ rest → remaining s2 = T2 ++ rest →
       terminator T1 → terminator T2 → next_not_nl rest →
       products_defined s1 = products_defined s2 →
       carousels_defined s1 = carousels_defined s2 →
       ((fin ;; k) s1).1 = ((fin ;; k) s2).1)
  ∧ (∀ s tok rest,
       remaining s = tok :: rest → type tok ≠ SEMI → type tok ≠ NL →
       fin s = (Raise (ParseError (ErrorSintactico (line tok) (col tok) EsperabaFin)), s))
  ∧ (∀ s hd rest,
       remaining s = hd ++ rest →
       shaped [(KW, Some "TRANSACCIONES"); (COLON, None); (LBRACKET, None);
               (RBRACKET, None)] hd →
       (∀ T rest',
          rest = T ++ rest' → terminator T → next_not_nl rest' →
          bloque_transacciones s = (Ok (), jump (4 + length T) s))
       ∧ (∀ tok rest',
            rest = tok :: rest' → type tok ≠ SEMI → type tok ≠ NL →
            bloque_transacciones s
            = (Raise (ParseError (ErrorSintactico (line tok) (col tok)
                        FaltaFinTrasCorchete)), jump 4 s))).
Proof.
  split; [apply fin_run|]. split; [|split; [apply fin_fail|]].
  - intros A k s1 s2 T1 T2 rest Hk Hrem1 Hrem2 HT1 HT2 Hrest Hprod Hcar.
    rewrite (bind_Ok _ _ _ _ _ (fin_run _ _ _ Hrem1 HT1 Hrest)).
    rewrite (bind_Ok _ _ _ _ _ (fin_run _ _ _ Hrem2 HT2 Hrest)).
    apply Hk. split; [|done].
    by rewrite (remaining_jump_app _ _ _ Hrem1), (remaining_jump_app _ _ _ Hrem2).
  - intros s hd rest Hrem Hhd.
    destruct (bloque_transacciones_vacio s hd rest Hrem Hhd) as [-> Hrem4].
    split.
    + intros T rest' -> HT Hrest.
      destruct HT as (tok & nls & -> & Htok & Hnls). simpl in Hrem4.
      rewrite (or_else_SEMI_NL _ _ _ _ Hrem4).
      assert (bool_decide (type tok = SEMI) || bool_decide (type tok = NL) = true) as ->.
      { destruct Htok as [Ht|Ht]; rewrite Ht; by repeat case_bool_decide. }
      rewrite (fin_run (jump 4 s) (tok :: nls) rest'); [|done| |done].
      * by rewrite jump_jump.
      * by exists tok, nls.
    + intros tok rest' -> Hsemi Hnl.
      rewrite (or_else_SEMI_NL _ _ _ _ Hrem4).
      rewrite !bool_decide_eq_false_2 by done. simpl.
      by rewrite (bind_Ok _ _ _ _ _ (current_cons _ _ _ Hrem4)).
Qed.

Lemma fin_terminators_equivalent_witness :
  ((fin ;; consume RBRACE None)
     (Parser_init ([tok SEMI ";"] ++ [tok RBRACE "}"; tok EOF ""]))).1
  = ((fin ;; consume RBRACE None)
       (Parser_init ([tok NL "\n"; tok NL "\n"] ++ [tok RBRACE "}"; tok EOF ""]))).1.
Proof.
  apply (proj1 (proj2 fin_terminators_equivalent) Token (consume RBRACE None)
           (Parser_init ([tok SEMI ";"] ++ [tok RBRACE "}"; tok EOF ""]))
           (Parser_init ([tok NL "\n"; tok NL "\n"] ++ [tok RBRACE "}"; tok EOF ""]))
           [tok SEMI ";"] [tok NL "\n"; tok NL "\n"] [tok RBRACE "}"; tok EOF ""]).
  - apply local_consume.
  - reflexivity.
  - reflexivity.
  - exists (tok SEMI ";"), []. split; [done|]. split; [by left|constructor].
  - exists (tok NL "\n"), [tok NL "\n"]. split; [done|]. split; [by right|].
    repeat constructor.
  - eexists _, _. split; [reflexivity|discriminate].
  - reflexivity.
  - reflexivity.
Defined.

(** C8: a transaction CONTAR runs the check of the transactions with the
    quantity 1, so on a defined product it returns once its four tokens
    are consumed; RETIRAR and RESURTIR with a literal whose value is 0 on
    a defined product raise the semantic error on the quantity, after
    their six tokens. *)
Theorem contar_never_fails_quantity :
  (∀ s entry rest pid,
     remaining s = entry ++ rest →
     shaped [(KW, Some "CONTAR"); (LPAREN, None); (ID, Some pid);
             (RPAREN, None)] entry →
     tx s = check_tx_semantics pid 1 (jump 4 s)
     ∧ (pid ∈ products_defined s → tx s = (Ok (), jump 4 s)))
  ∧ (∀ pid qty s,
       pid ∈ products_defined s →
       check_tx_semantics pid qty s
       = if qty <=? 0
         then (Raise (ParseError (ErrorSemantico CantidadNoPositiva)), s)
         else (Ok (), s))
  ∧ (∀ s entry rest kw pid q,
       kw ∈ ["RETIRAR"; "RESURTIR"] →
       remaining s = entry ++ rest →
       shaped [(KW, Some kw); (LPAREN, None); (ID, Some pid); (COMMA, None);
               (INT, Some q); (RPAREN, None)] entry →
       py_int q = Some 0 →
       pid ∈ products_defined s →
       tx s = (Raise (ParseError (ErrorSemantico CantidadNoPositiva)), jump 6 s)).
Proof.
  split; [|split].
  - intros s entry rest pid Hrem Hentry.
    rewrite (tx_contar _ _ _ _ Hrem Hentry). split; [done|].
    intros Hpid. by rewrite check_tx_defined.
  - intros pid qty s Hpid. by apply check_tx_defined.
  - intros s entry rest kw pid q Hkw Hrem Hentry Hq Hpid.
    assert (tx s = check_tx_semantics pid 0 (jump 6 s)) as ->.
    { elem_cases Hkw; [by eapply tx_retirar|by eapply tx_resurtir]. }
    by rewrite check_tx_defined.
Qed.

Lemma contar_never_fails_quantity_witness :
  tx (ejemplo_tx ejemplo_contar) = (Ok (), jump 4 (ejemplo_tx ejemplo_contar))
  ∧ tx (ejemplo_tx ejemplo_retirar_cero)
    = (Raise (ParseError (ErrorSemantico CantidadNoPositiva)),
       jump 6 (ejemplo_tx ejemplo_retirar_cero)).
Proof.
  split.
  - apply (proj2 (proj1 contar_never_fails_quantity
             (ejemplo_tx ejemplo_contar) ejemplo_contar
             [tok RBRACKET "]"; tok EOF ""] "p1" eq_refl
             ltac:(repeat constructor))).
    change ("p1" ∈ ({[ "p1" ]} : gset string)). by apply elem_of_singleton.
  - apply (proj2 (proj2 contar_never_fails_quantity)
             (ejemplo_tx ejemplo_retirar_cero) ejemplo_retirar_cero
             [tok RBRACKET "]"; tok EOF ""] "RETIRAR" "p1" "0").
    + repeat constructor.
    + reflexivity.
    + repeat constructor.
    + reflexivity.
    + change ("p1" ∈ ({[ "p1" ]} : gset string)). by apply elem_of_singleton.
Defined.

(** * Further properties of the parser *)

Lemma bind_Ok_inv {A B} (m : M A) (k : A → M B) s b s' :
  bind m k s = (Ok b, s') → ∃ a s1, m s = (Ok a, s1) ∧ k a s1 = (Ok b, s').
Proof.
  unfold bind. destruct (m s) as [[a|e|] s1]; [|done..]. intros Hk. by exists a, s1.
Qed.

Lemma consume_Ok_inv ttype val s tok s' :
  consume ttype val s = (Ok tok, s') →
  tokens s !! pos s = Some tok ∧ matches ttype val tok = true ∧ s' = jump 1 s.
Proof.
  intros Hrun. destruct (tokens s !! pos s) as [tok'|] eqn:Hlook.
  - rewrite (consume_Some _ _ _ _ Hlook) in Hrun.
    destruct (matches ttype val tok') eqn:Hm; [|done]. by injection Hrun as <- <-.
  - by rewrite (consume_None _ _ _ Hlook) in Hrun.
Qed.

Lemma wf_Ok {A} (m : M A) s a s' :
  wf m → (pos s ≤ length (tokens s))%nat → m s = (Ok a, s') →
  tokens s' = tokens s ∧ (pos s' ≤ length (tokens s'))%nat.
Proof.
  intros Hm Hs Hrun. destruct (Hm s Hs) as [(Htok & Hpos & _) _].
  rewrite Hrun in *; simpl in *. rewrite Htok. split; [done|lia].
Qed.

(** An accepted run took the keyword SIMULAR from the token list and ended
    on a token of type EOF. *)
Lemma parse_Ok_inv toks s' :
  parse toks = (Ok (), s') →
  ∃ s3 tok3 s5 tok5,
    tokens s3 = toks ∧ toks !! pos s3 = Some tok3
    ∧ matches KW (Some "SIMULAR") tok3 = true
    ∧ tokens s5 = toks ∧ toks !! pos s5 = Some tok5 ∧ type tok5 = EOF
    ∧ s' = jump 1 s5.
Proof.
  unfold parse, programa. intros Hrun.
  apply bind_Ok_inv in Hrun as ([] & s1 & H1 & Hrun).
  apply bind_Ok_inv in Hrun as ([] & s2 & H2 & Hrun).
  apply bind_Ok_inv in Hrun as ([] & s3 & H3 & Hrun).
  apply bind_Ok_inv in Hrun as ([] & s4 & H4 & Hrun).
  apply bind_Ok_inv in Hrun as ([] & s5 & H5 & Hrun).
  apply bind_Ok_inv in Hrun as (tok5 & s6 & H6 & Hrun).
  injection Hrun as <-.
  apply (wf_Ok _ _ _ _ wf_skip_nl) in H1 as [Ht1 Hp1]; [|simpl; lia].
  apply (wf_Ok _ _ _ _ wf_definiciones Hp1) in H2 as [Ht2 Hp2].
  apply (wf_Ok _ _ _ _ wf_skip_nl Hp2) in H3 as [Ht3 Hp3].
  pose proof (wf_Ok _ _ _ _ wf_simulacion Hp3 H4) as [Ht4 Hp4].
  apply (wf_Ok _ _ _ _ wf_skip_nl Hp4) in H5 as [Ht5 Hp5].
  assert (tokens s3 = toks) as Hs3 by (rewrite Ht3, Ht2, Ht1; done).
  assert (tokens s5 = toks) as Hs5 by (rewrite Ht5, Ht4; done).
  unfold simulacion in H4. apply bind_Ok_inv in H4 as (tok3 & ? & H4 & _).
  apply consume_Ok_inv in H4 as (Hl3 & Hm3 & _).
  apply consume_Ok_inv in H6 as (Hl5 & Hm5 & ->).
  exists s3, tok3, s5, tok5. rewrite Hs3 in Hl3. rewrite Hs5 in Hl5.
  rewrite matches_type in Hm5. apply bool_decide_eq_true in Hm5. done.
Qed.

(** The two ends of a run of the runner. *)
Lemma validate_cases text :
  validate text = Ok () ∨ ∃ err, validate text = Raise (ParseError err).
Proof.
  destruct (validate_outcome text) as [Hok|[(ln & cl & ch & Hlex)|(e & He & Hexp)]].
  - by left.
  - right. by eexists.
  - right. destruct e as [err| |]; [by exists err|done..].
Qed.


(** X2: a text is accepted only when the parser has consumed every token
    of it, the end-of-input token included: nothing may follow the closing
    brace of the simulation but newlines. *)
Theorem accepted_consumes_all :
  ∀ text toks s',
    tokenize text = Ok toks → parse toks = (Ok (), s') →
    tokens s' = toks ∧ pos s' = length toks.
Proof.
  intros text toks s' Htok Hrun.
  apply parse_Ok_inv in Hrun as (_ & _ & s5 & tok5 & _ & _ & _ & Hs5 & Hl5 & Hty & ->).
  split; [done|]. simpl.
  by apply (lexed_EOF_last toks (pos s5) tok5 (tokenize_lexed _ _ Htok)).
Qed.

Lemma accepted_consumes_all_witness :
  tokens (parse (tokens_of (programa_ejemplo "1.50"))).2
  = tokens_of (programa_ejemplo "1.50")
  ∧ pos (parse (tokens_of (programa_ejemplo "1.50"))).2
    = length (tokens_of (programa_ejemplo "1.50")).
Proof.
  apply (accepted_consumes_all (programa_ejemplo "1.50")).
  - by vm_compute.
  - by vm_compute.
Defined.

(** X3: a text in which the keyword SIMULAR does not occur as a token is
    never accepted: the simulation block is mandatory. *)
Theorem simular_required :
  ∀ text toks,
    tokenize text = Ok toks →
    (∀ tok, tok ∈ toks → matches KW (Some "SIMULAR") tok = false) →
    ∃ err, validate text = Raise (ParseError err).
Proof.
  intros text toks Htok Hnone.
  destruct (validate_cases text) as [Hok|Herr]; [|done].
  rewrite (validate_parse _ _ Htok) in Hok.
  destruct (parse toks) as [r s'] eqn:Hrun. simpl in Hok. subst r.
  apply parse_Ok_inv in Hrun as (s3 & tok3 & _ & _ & _ & Hl3 & Hm3 & _).
  rewrite (Hnone tok3) in Hm3; [done|]. by eapply list_elem_of_lookup_2.
Qed.

Lemma simular_required_witness :
  ∃ err, validate ejemplo_carrusel_solo = Raise (ParseError err).
Proof.
  apply (simular_required ejemplo_carrusel_solo (tokens_of ejemplo_carrusel_solo)).
  - by vm_compute.
  - intros tok Hin. vm_compute in Hin.
    repeat (apply elem_of_cons in Hin as [->|Hin]; [reflexivity|]).
    by apply elem_of_nil in Hin.
Defined.

(** X4: every method of the parser keeps the token list, moves the cursor
    forward only and not past the end of the tokens, removes nothing from
    the two symbol tables, and its loops end within the bound that
    [while_] computes. *)
Theorem methods_never_backtrack :
  ∀ m s,
    m ∈ [skip_nl; fin; parametros; def_producto; catalogo; def_carrusel;
         definiciones; tx; lista_tx; bloque_transacciones; consulta;
         simulacion; programa] →
    (pos s ≤ length (tokens s))%nat →
    tokens (m s).2 = tokens s
    ∧ (pos s ≤ pos (m s).2 ≤ length (tokens s))%nat
    ∧ products_defined s ⊆ products_defined (m s).2
    ∧ carousels_defined s ⊆ carousels_defined (m s).2
    ∧ (m s).1 ≠ OutOfFuel.
Proof.
  intros m s Hm Hs.
  assert (wf m) as Hwf.
  { repeat (apply elem_of_cons in Hm as [->|Hm]);
      [..|by apply elem_of_nil in Hm];
      first [ solve [eauto with wf] | apply advances_wf; solve [eauto with wf]
            | apply wf_programa ]. }
  destruct (Hwf s Hs) as [(? & ? & ? & ?) ?]. done.
Qed.

Lemma methods_never_backtrack_witness :
  tokens (def_producto (Parser_init ejemplo_hasta_maximo)).2 = ejemplo_hasta_maximo
  ∧ (0 ≤ pos (def_producto (Parser_init ejemplo_hasta_maximo)).2
       ≤ length ejemplo_hasta_maximo)%nat
  ∧ ∅ ⊆ products_defined (def_producto (Parser_init ejemplo_hasta_maximo)).2
  ∧ ∅ ⊆ carousels_defined (def_producto (Parser_init ejemplo_hasta_maximo)).2
  ∧ (def_producto (Parser_init ejemplo_hasta_maximo)).1 ≠ OutOfFuel.
Proof.
  apply (methods_never_backtrack def_producto (Parser_init ejemplo_hasta_maximo)).
  - do 3 apply list_elem_of_further. apply list_elem_of_here.
  - simpl. lia.
Defined.

(** ** The parameters of a carousel *)

Lemma parametros_cases :
  ∀ s esp T1 cap T2 rest e c espacios capacidad,
    remaining s = esp ++ T1 ++ cap ++ T2 ++ rest →
    shaped [(KW, Some "ESPACIOS"); (COLON, None); (INT, Some e)] esp →
    terminator T1 →
    shaped [(KW, Some "CAPACIDAD"); (COLON, None); (INT, Some c)] cap →
    terminator T2 → next_not_nl rest →
    py_int e = Some espacios → py_int c = Some capacidad →
    parametros s
    = if espacios <=? 0
      then (Raise (ParseError (ErrorSemantico EspaciosNoPositivo)), jump 3 s)
      else if capacidad <=? 0
      then (Raise (ParseError (ErrorSemantico CapacidadNoPositiva)),
            jump (3 + length T1 + 3) s)
      else (Ok (), jump (3 + length T1 + 3 + length T2) s).
Proof.
  intros s esp T1 cap T2 rest e c espacios capacidad
    Hrem Hesp HT1 Hcap HT2 Hrest He Hc.
  shaped_inv Hesp. shaped_inv Hcap. simpl in Hrem. unfold parametros.
  do 3 run_more.
  destruct (espacios <=? 0) eqn:Hespacios.
  { cbv [raise_if semantic_error raise bind]. by rewrite !jump_jump. }
  change (bind (raise_if false ?e) ?k ?s) with (k () s).
  do 4 run_more.
  destruct (capacidad <=? 0) eqn:Hcapacidad.
  { cbv [raise_if semantic_error raise bind]. rewrite !jump_jump.
    f_equal; apply Parser_eq; simpl; (done || lia). }
  change (bind (raise_if false ?e) ?k ?s) with (k () s). cbv beta.
  rewrite (fin_run _ T2 rest); [|done..].
  rewrite !jump_jump. f_equal; apply Parser_eq; simpl; (done || lia).
Qed.

(** X5: on the two parameters of a carousel, [parametros] tests each value
    as soon as it is read: a value of ESPACIOS that is not positive raises
    its semantic error before the end of the statement and CAPACIDAD are
    looked at; otherwise a value of CAPACIDAD that is not positive raises
    its own; otherwise the two statements are consumed with their ends. *)
Theorem parametros_positive :
  ∀ s esp T1 cap T2 rest e c espacios capacidad,
    remaining s = esp ++ T1 ++ cap ++ T2 ++ rest →
    shaped [(KW, Some "ESPACIOS"); (COLON, None); (INT, Some e)] esp →
    terminator T1 →
    shaped [(KW, Some "CAPACIDAD"); (COLON, None); (INT, Some c)] cap →
    terminator T2 → next_not_nl rest →
    py_int e = Some espacios → py_int c = Some capacidad →
    parametros s
    = if espacios <=? 0
      then (Raise (ParseError (ErrorSemantico EspaciosNoPositivo)), jump 3 s)
      else if capacidad <=? 0
      then (Raise (ParseError (ErrorSemantico CapacidadNoPositiva)),
            jump (3 + length T1 + 3) s)
      else (Ok (), jump (3 + length T1 + 3 + length T2) s).
Proof. exact parametros_cases. Qed.

Lemma parametros_positive_witness :
  parametros (Parser_init (ejemplo_espacios ++ [tok NL "\n"] ++ ejemplo_capacidad_cero
                           ++ [tok SEMI ";"] ++ [tok RBRACE "}"]))
  = (Raise (ParseError (ErrorSemantico CapacidadNoPositiva)),
     jump (3 + 1 + 3)
       (Parser_init (ejemplo_espacios ++ [tok NL "\n"] ++ ejemplo_capacidad_cero
                     ++ [tok SEMI ";"] ++ [tok RBRACE "}"]))).
Proof.
  apply (parametros_positive _ ejemplo_espacios [tok NL "\n"] ejemplo_capacidad_cero
           [tok SEMI ";"] [tok RBRACE "}"] "4" "0" 4 0).
  - reflexivity.
  - repeat constructor.
  - layout.
  - repeat constructor.
  - layout.
  - eexists _, _. split; [reflexivity|discriminate].
  - reflexivity.
  - reflexivity.
Defined.

(** ** Lists of transactions *)

Lemma valid_entry_first defined entry :
  valid_entry defined entry →
  ∃ tok l, entry = tok :: l ∧ type tok = KW ∧ (0 < length entry)%nat.
Proof.
  intros (pid & _ & [(kw & q & qty & _ & Hentry & _)|Hentry]);
    apply shaped_cons in Hentry as (v & ln & cl & l & -> & _ & _);
    eexists _, _; (split; [reflexivity|]); simpl; split; (done || lia).
Qed.

Lemma tx_valid s entry rest :
  remaining s = entry ++ rest → valid_entry (products_defined s) entry →
  tx s = (Ok (), jump (length entry) s).
Proof.
  intros Hrem (pid & Hpid & [(kw & q & qty & Hkw & Hentry & Hq & Hpos)|Hentry]).
  - rewrite (shaped_length _ _ Hentry). simpl.
    assert (tx s = check_tx_semantics pid qty (jump 6 s)) as ->.
    { elem_cases Hkw; [by eapply tx_retirar|by eapply tx_resurtir]. }
    rewrite check_tx_defined by done.
    by destruct (Z.leb_spec qty 0); [lia|].
  - rewrite (shaped_length _ _ Hentry). simpl.
    rewrite (tx_contar _ _ _ _ Hrem Hentry), check_tx_defined by done. done.
Qed.

Lemma tx_other s tok rest :
  remaining s = tok :: rest → no_tx_keyword tok →
  tx s = (Raise (ParseError (ErrorSintactico (line tok) (col tok) EsperabaTx)), s).
Proof.
  intros Hrem Hno. unfold tx.
  rewrite (bind_Ok _ _ _ _ _ (match_cons _ _ _ KW (Some "RETIRAR") Hrem)).
  rewrite (Hno "RETIRAR") by repeat constructor.
  rewrite (bind_Ok _ _ _ _ _ (match_cons _ _ _ KW (Some "RESURTIR") Hrem)).
  rewrite (Hno "RESURTIR") by repeat constructor.
  rewrite (bind_Ok _ _ _ _ _ (match_cons _ _ _ KW (Some "CONTAR") Hrem)).
  rewrite (Hno "CONTAR") by repeat constructor.
  by rewrite (bind_Ok _ _ _ _ _ (current_cons _ _ _ Hrem)).
Qed.

Lemma while_entry_step fuel s comma nls entry rest :
  remaining s = comma :: nls ++ entry ++ rest →
  type comma = COMMA → newlines nls → valid_entry (products_defined s) entry →
  while_fuel (S fuel) (match_ COMMA None) (consume COMMA None ;; skip_nl ;; tx) s
  = while_fuel fuel (match_ COMMA None) (consume COMMA None ;; skip_nl ;; tx)
      (jump (length entry) (jump (length nls) (jump 1 s))).
Proof.
  intros Hrem Hcomma Hnls Hentry.
  assert (matches COMMA None comma = true) as Hm.
  { by rewrite matches_type, bool_decide_eq_true_2. }
  cbn [while_fuel].
  rewrite (bind_Ok _ _ _ _ _ (match_cons _ _ _ COMMA None Hrem)), Hm.
  rewrite !bind_assoc.
  rewrite (bind_Ok _ _ _ _ _ (consume_cons _ _ _ COMMA None Hrem Hm)). cbv beta.
  rewrite ?bind_assoc.
  pose proof (remaining_jump_1 _ _ _ Hrem) as Hrem1.
  destruct (valid_entry_first _ _ Hentry) as (tok1 & l1 & Hl1 & Hty1 & Hlen1).
  rewrite (bind_Ok _ _ _ _ _ (skip_nl_run _ nls (entry ++ rest) Hrem1 Hnls
    ltac:(rewrite Hl1; eexists _, _; split; [reflexivity|congruence]))). cbv beta.
  pose proof (remaining_jump_app _ _ _ Hrem1) as Hrem2.
  by rewrite (bind_Ok _ _ _ _ _ (tx_valid _ entry rest Hrem2 Hentry)).
Qed.

(** The loop of [lista_tx] over the entries that follow the first one ends
    as it does on what comes after them, with the rounds that are left. *)
Lemma while_more_entries defined s more rest :
  more_entries defined more → products_defined s = defined →
  remaining s = more ++ rest →
  ∃ used, (used ≤ length more)%nat ∧ ∀ fuel, (used ≤ fuel)%nat →
    while_fuel fuel (match_ COMMA None) (consume COMMA None ;; skip_nl ;; tx) s
    = while_fuel (fuel - used) (match_ COMMA None)
        (consume COMMA None ;; skip_nl ;; tx) (jump (length more) s).
Proof.
  intros Hmore. revert s.
  induction Hmore as [|comma nls entry more Hcomma Hnls Hentry Hmore IH];
    intros s Hdef Hrem.
  - exists 0%nat. split; [done|]. intros fuel _. by rewrite Nat.sub_0_r, jump_0.
  - simpl in Hrem. rewrite <- !app_assoc in Hrem.
    pose proof (remaining_jump_1 _ _ _ Hrem) as Hrem1.
    pose proof (remaining_jump_app _ _ _ Hrem1) as Hrem2.
    pose proof (remaining_jump_app _ _ _ Hrem2) as Hrem3.
    destruct (IH (jump (length entry) (jump (length nls) (jump 1 s))) Hdef Hrem3)
      as (used & Hused & Hrun).
    exists (S used). split; [simpl; rewrite !length_app; lia|].
    intros fuel Hfuel. destruct fuel as [|fuel]; [lia|].
    rewrite (while_entry_step _ _ _ _ _ _ Hrem Hcomma Hnls) by by rewrite Hdef.
    rewrite (Hrun fuel) by lia.
    rewrite !jump_jump. simpl. f_equal. apply Parser_eq; simpl; try done.
    rewrite ?length_app. lia.
Qed.

Lemma lista_tx_cases :
  (∀ s entry more rest,
     remaining s = entry ++ more ++ rest →
     valid_entry (products_defined s) entry →
     more_entries (products_defined s) more →
     (∃ tok rest', rest = tok :: rest' ∧ type tok ≠ COMMA) →
     lista_tx s = (Ok (), jump (length entry + length more) s))
  ∧ (∀ s tok rest,
       remaining s = tok :: rest → no_tx_keyword tok →
       lista_tx s
       = (Raise (ParseError (ErrorSintactico (line tok) (col tok) EsperabaTx)), s))
  ∧ (∀ s entry more comma nls tok rest,
       remaining s = entry ++ more ++ comma :: nls ++ tok :: rest →
       valid_entry (products_defined s) entry →
       more_entries (products_defined s) more →
       type comma = COMMA → newlines nls → type tok ≠ NL → no_tx_keyword tok →
       lista_tx s
       = (Raise (ParseError (ErrorSintactico (line tok) (col tok) EsperabaTx)),
          jump (length entry + length more + 1 + length nls) s)).
Proof.
  split; [|split].
  - intros s entry more rest Hrem Hentry Hmore (tok & rest' & -> & Hty).
    unfold lista_tx.
    rewrite (bind_Ok _ _ _ _ _ (tx_valid _ _ _ Hrem Hentry)).
    pose proof (remaining_jump_app _ _ _ Hrem) as Hrem1.
    pose proof (remaining_jump_app _ _ _ Hrem1) as Hrem2.
    destruct (while_more_entries (products_defined s) (jump (length entry) s)
                more (tok :: rest') Hmore eq_refl Hrem1) as (used & Hused & Hrun).
    pose proof (remaining_length (jump (length entry) s)) as Hlen.
    rewrite Hrem1, length_app in Hlen. cbn [length] in Hlen.
    unfold while_. rewrite Hrun by lia.
    destruct (S (length (tokens (jump (length entry) s))
                 - pos (jump (length entry) s)) - used)%nat
      as [|fuel] eqn:Hfuel; [lia|].
    cbn [while_fuel].
    rewrite (bind_Ok _ _ _ _ _ (match_cons _ _ _ COMMA None Hrem2)).
    rewrite matches_type, bool_decide_eq_false_2 by done.
    by rewrite jump_jump.
  - intros s tok rest Hrem Hno. unfold lista_tx.
    by rewrite (bind_Raise _ _ _ _ _ (tx_other _ _ _ Hrem Hno)).
  - intros s entry more comma nls tok rest Hrem Hentry Hmore Hcomma Hnls Hnl Hno.
    unfold lista_tx.
    rewrite (bind_Ok _ _ _ _ _ (tx_valid _ _ _ Hrem Hentry)).
    pose proof (remaining_jump_app _ _ _ Hrem) as Hrem1.
    pose proof (remaining_jump_app _ _ _ Hrem1) as Hrem2.
    destruct (while_more_entries (products_defined s) (jump (length entry) s)
                more (comma :: nls ++ tok :: rest) Hmore eq_refl Hrem1)
      as (used & Hused & Hrun).
    pose proof (remaining_length (jump (length entry) s)) as Hlen.
    rewrite Hrem1, length_app in Hlen. cbn [length] in Hlen.
    unfold while_. rewrite Hrun by lia.
    destruct (S (length (tokens (jump (length entry) s))
                 - pos (jump (length entry) s)) - used)%nat
      as [|fuel] eqn:Hfuel; [lia|].
    assert (matches COMMA None comma = true) as Hm.
    { by rewrite matches_type, bool_decide_eq_true_2. }
    cbn [while_fuel].
    rewrite (bind_Ok _ _ _ _ _ (match_cons _ _ _ COMMA None Hrem2)), Hm.
    rewrite !bind_assoc.
    rewrite (bind_Ok _ _ _ _ _ (consume_cons _ _ _ COMMA None Hrem2 Hm)). cbv beta.
    rewrite ?bind_assoc.
    pose proof (remaining_jump_1 _ _ _ Hrem2) as Hrem3.
    rewrite (bind_Ok _ _ _ _ _ (skip_nl_run _ nls (tok :: rest) Hrem3 Hnls
      ltac:(by apply next_not_nl_cons))). cbv beta.
    pose proof (remaining_jump_app _ _ _ Hrem3) as Hrem4.
    rewrite (bind_Raise _ _ _ _ _ (tx_other _ _ _ Hrem4 Hno)).
    rewrite !jump_jump. f_equal; apply Parser_eq; simpl; (done || lia).
Qed.

(** X6: [lista_tx] consumes a whole list of transactions that pass the
    semantic check, separated by commas, with newlines allowed after a
    comma, and stops at the first token that is not a comma; where a
    transaction is expected, after a comma too, a token that opens none
    raises the syntactic error of the missing transaction at that token. *)
Theorem lista_tx_run :
  (∀ s entry more rest,
     remaining s = entry ++ more ++ rest →
     valid_entry (products_defined s) entry →
     more_entries (products_defined s) more →
     (∃ tok rest', rest = tok :: rest' ∧ type tok ≠ COMMA) →
     lista_tx s = (Ok (), jump (length entry + length more) s))
  ∧ (∀ s tok rest,
       remaining s = tok :: rest → no_tx_keyword tok →
       lista_tx s
       = (Raise (ParseError (ErrorSintactico (line tok) (col tok) EsperabaTx)), s))
  ∧ (∀ s entry more comma nls tok rest,
       remaining s = entry ++ more ++ comma :: nls ++ tok :: rest →
       valid_entry (products_defined s) entry →
       more_entries (products_defined s) more →
       type comma = COMMA → newlines nls → type tok ≠ NL → no_tx_keyword tok →
       lista_tx s
       = (Raise (ParseError (ErrorSintactico (line tok) (col tok) EsperabaTx)),
          jump (length entry + length more + 1 + length nls) s)).
Proof. exact lista_tx_cases. Qed.

Lemma lista_tx_run_witness :
  lista_tx (ejemplo_tx (ejemplo_retirar ++ tok COMMA "," :: [tok NL "\n"]
                        ++ ejemplo_contar ++ []))
  = (Ok (), jump (6 + 6)
              (ejemplo_tx (ejemplo_retirar ++ tok COMMA "," :: [tok NL "\n"]
                           ++ ejemplo_contar ++ []))).
Proof.
  assert ("p1" ∈ ({[ "p1" ]} : gset string)) as Hp1 by by apply elem_of_singleton.
  apply (proj1 lista_tx_run
           (ejemplo_tx (ejemplo_retirar ++ tok COMMA "," :: [tok NL "\n"]
                        ++ ejemplo_contar ++ []))
           ejemplo_retirar (tok COMMA "," :: [tok NL "\n"] ++ ejemplo_contar ++ [])
           [tok RBRACKET "]"; tok EOF ""]).
  - reflexivity.
  - exists "p1". split; [exact Hp1|]. left. exists "RETIRAR", "2", 2.
    split; [repeat constructor|]. split; [repeat constructor|]. split; [reflexivity|lia].
  - apply more_entries_cons; [reflexivity|repeat constructor| |constructor].
    exists "p1". split; [exact Hp1|]. right. repeat constructor.
  - eexists _, _. split; [reflexivity|discriminate].
Defined.

(** * Further properties of the scanner *)

Lemma append_assoc (a b c : string) : (a +:+ b) +:+ c = a +:+ (b +:+ c).
Proof. induction a as [|x a IH]; [done|]. rewrite !append_cons. by rewrite IH. Qed.

Lemma append_nil_r (a : string) : a +:+ "" = a.
Proof. induction a as [|x a IH]; [done|]. rewrite append_cons. by rewrite IH. Qed.

Lemma count_newlines_app a b :
  count_newlines (a +:+ b) = count_newlines a + count_newlines b.
Proof.
  induction a as [|x a IH]; [done|]. rewrite append_cons. simpl. rewrite IH. lia.
Qed.

Lemma count_newlines_none s : all_chars not_newline s → count_newlines s = 0.
Proof.
  induction s as [|x s IH]; [done|]. intros [Hx Hs]%all_chars_cons. simpl.
  unfold not_newline in Hx. apply negb_true_iff in Hx. rewrite Hx. rewrite IH; done.
Qed.

Lemma string_drop_add a b s : string_drop (a + b) s = string_drop b (string_drop a s).
Proof.
  revert s. induction a as [|a IH]; intros s; [done|].
  destruct s as [|x s]; simpl; [by destruct b|]. apply IH.
Qed.

Lemma string_drop_split pre chunk :
  string_drop (String.length pre) (pre +:+ chunk) = chunk.
Proof. apply string_drop_app. Qed.

(** ** Line and column *)

Lemma position_after_char pre ln cl c :
  position_after pre ln cl →
  position_after (pre +:+ String c "")
    (advance_char c (ln, cl)).1 (advance_char c (ln, cl)).2.
Proof.
  intros (lines & last & -> & Hlines & Hlast & -> & ->). unfold advance_char; simpl.
  case_bool_decide as Hc.
  - subst c. exists ((lines +:+ last) +:+ String ch_newline ""), "".
    split; [by rewrite append_nil_r|]. split; [right; by exists (lines +:+ last)|].
    split; [constructor|]. simpl.
    rewrite !count_newlines_app, (count_newlines_none last Hlast). simpl.
    split; [lia|done].
  - exists lines, (last +:+ String c ""). split; [by rewrite append_assoc|].
    split; [done|]. split.
    + apply all_chars_app; [done|]. apply all_chars_cons. split; [|constructor].
      unfold not_newline. by rewrite bool_decide_eq_false_2.
    + split; [done|]. rewrite string_app_length; simpl. lia.
Qed.

Lemma position_after_advance m pre ln cl :
  position_after pre ln cl →
  position_after (pre +:+ m) (advance_chars m (ln, cl)).1 (advance_chars m (ln, cl)).2.
Proof.
  revert pre ln cl. induction m as [|c m IH]; intros pre ln cl Hpre.
  - simpl. by rewrite append_nil_r.
  - replace (pre +:+ String c m) with ((pre +:+ String c "") +:+ m)
      by by rewrite append_assoc.
    simpl. pose proof (position_after_char pre ln cl c Hpre) as Hc.
    destruct (advance_char c (ln, cl)) as [ln' cl']. by apply IH.
Qed.

Lemma position_after_start : position_after "" 1 1.
Proof. exists "", "". repeat split; (done || by left || constructor). Qed.

(** ** What each pattern matches *)

Lemma plus_class_prefix p s m : plus_class p s = Some m → ∃ rest, s = m +:+ rest.
Proof.
  intros (-> & _)%plus_class_Some. eexists. symmetry. apply take_while_drop.
Qed.

Lemma plus_class_None p c s : plus_class p (String c s) = None → p c = false.
Proof. unfold plus_class; simpl. by destruct (p c). Qed.

Lemma plus_class_false p c s : p c = false → plus_class p (String c s) = None.
Proof. unfold plus_class; simpl. by intros ->. Qed.

Lemma string_body_prefix s m :
  string_body s = Some m →
  ∃ body rest, m = body +:+ String ch_quote "" ∧ s = m +:+ rest.
Proof.
  revert m. remember (String.length s) as n eqn:Hn. revert s Hn.
  induction n as [n IH] using lt_wf_ind. intros s -> m.
  destruct s as [|c s]; simpl; [done|].
  case_bool_decide as Hq; [intros [= <-]; subst c; by exists "", s|].
  case_bool_decide.
  - destruct s as [|d s]; [done|]. case_bool_decide; [done|].
    destruct (string_body s) as [m'|] eqn:Hm'; [|done].
    intros [= <-].
    destruct (IH (String.length s) ltac:(simpl; lia) s eq_refl _ Hm')
      as (body & rest & -> & Hs).
    exists (String c (String d body)), rest. split; [done|].
    rewrite !append_cons. by rewrite <- Hs.
  - destruct (string_body s) as [m'|] eqn:Hm'; [|done].
    intros [= <-].
    destruct (IH (String.length s) ltac:(simpl; lia) s eq_refl _ Hm')
      as (body & rest & -> & Hs).
    exists (String c body), rest. split; [done|].
    rewrite !append_cons. by rewrite <- Hs.
Qed.

Lemma RE_DECIMAL_prefix chunk m : RE_DECIMAL chunk = Some m → ∃ rest, chunk = m +:+ rest.
Proof.
  unfold RE_DECIMAL.
  destruct (plus_class is_digit chunk) as [ent|] eqn:Hent; [|done].
  apply plus_class_Some in Hent as (Hent & _).
  destruct (string_drop (String.length ent) chunk) as [|c s'] eqn:Hdrop; [done|].
  case_bool_decide as Hc; [subst c|done].
  destruct (plus_class is_digit s') as [frac|] eqn:Hfrac; [|done].
  apply plus_class_prefix in Hfrac as (rest & ->).
  intros [= <-]. exists rest.
  rewrite append_assoc, append_cons, <- Hdrop, Hent. symmetry. apply take_while_drop.
Qed.

Lemma SYMBOLS_well_typed ch ttype ln cl :
  SYMBOLS ch = Some ttype →
  well_typed (mkToken ttype (String ch "") ln cl) ∧ ttype ≠ NL.
Proof.
  intros Hsym. pose proof Hsym as Hsym'. unfold SYMBOLS in Hsym'.
  unfold well_typed; cbn [type value].
  repeat (case_bool_decide; [injection Hsym' as <-; split; [by exists ch|done]|]).
  done.
Qed.

(** A round that returns has read a non-empty lexeme at the cursor and
    appended at most one token, with the position of the cursor and the
    shape of its type. *)
Lemma scan_step_Ok text st st' :
  scan_step text st = Ok st' →
  ∃ m rest new,
    string_drop (sc_i st) text = m +:+ rest ∧ m ≠ ""
    ∧ sc_i st' = (sc_i st + String.length m)%nat
    ∧ (sc_line st', sc_col st') = advance_chars m (sc_line st, sc_col st)
    ∧ sc_tokens st' = sc_tokens st ++ new
    ∧ (new = []
       ∨ ∃ tok, new = [tok] ∧ line tok = sc_line st ∧ col tok = sc_col st
           ∧ well_typed tok
           ∧ if bool_decide (type tok = NL) then m = String ch_newline ""
             else m = value tok).
Proof.
  unfold scan_step. set (chunk := string_drop (sc_i st) text).
  assert (∀ m rest tok, chunk = m +:+ rest → m ≠ "" →
    line tok = sc_line st → col tok = sc_col st → well_typed tok →
    (if bool_decide (type tok = NL) then m = String ch_newline "" else m = value tok) →
    ∀ st0, sc_i st0 = (sc_i st + String.length m)%nat →
      (sc_line st0, sc_col st0) = advance_chars m (sc_line st, sc_col st) →
      sc_tokens st0 = sc_tokens st ++ [tok] →
      Ok st0 = Ok st' →
      ∃ m rest new, chunk = m +:+ rest ∧ m ≠ ""
        ∧ sc_i st' = (sc_i st + String.length m)%nat
        ∧ (sc_line st', sc_col st') = advance_chars m (sc_line st, sc_col st)
        ∧ sc_tokens st' = sc_tokens st ++ new
        ∧ (new = []
           ∨ ∃ tok, new = [tok] ∧ line tok = sc_line st ∧ col tok = sc_col st
               ∧ well_typed tok
               ∧ if bool_decide (type tok = NL) then m = String ch_newline ""
                 else m = value tok)) as Hemit.
  { intros m rest tok Hm Hne Hln Hcl Hwt Hval st0 Hi Hlc Htoks [= <-].
    exists m, rest, [tok]. repeat split; try done. right. by exists tok. }
  assert (∀ m rest, chunk = m +:+ rest → m ≠ "" →
    Ok (advance m st) = Ok st' →
    ∃ m rest new, chunk = m +:+ rest ∧ m ≠ ""
      ∧ sc_i st' = (sc_i st + String.length m)%nat
      ∧ (sc_line st', sc_col st') = advance_chars m (sc_line st, sc_col st)
      ∧ sc_tokens st' = sc_tokens st ++ new
      ∧ (new = []
         ∨ ∃ tok, new = [tok] ∧ line tok = sc_line st ∧ col tok = sc_col st
             ∧ well_typed tok
             ∧ if bool_decide (type tok = NL) then m = String ch_newline ""
               else m = value tok)) as Hskip.
  { intros m rest Hm Hne [= <-]. exists m, rest, []. rewrite app_nil_r.
    repeat split; try done; [|by left].
    simpl. by destruct (advance_chars m (sc_line st, sc_col st)). }
  assert (∀ m ttype val, (sc_line (advance m (emit ttype val st)),
                          sc_col (advance m (emit ttype val st)))
                         = advance_chars m (sc_line st, sc_col st)) as Hlc.
  { intros m ttype val. simpl. by destruct (advance_chars m (sc_line st, sc_col st)). }
  destruct (RE_NEWLINE chunk) as [m|] eqn:Hnl.
  { destruct chunk as [|c s] eqn:Hchunk; [done|]. simpl in Hnl.
    case_bool_decide as Hc; [|done]. injection Hnl as <-. subst c.
    apply (Hemit (String ch_newline "") s (mkToken NL "\n" (sc_line st) (sc_col st))
             eq_refl ltac:(done) eq_refl eq_refl eq_refl eq_refl
             (advance (String ch_newline "") (emit NL "\n" st)));
      first [done | apply Hlc]. }
  destruct (RE_WHITESPACE chunk) as [m|] eqn:Hws.
  { pose proof (RE_WHITESPACE_length _ _ Hws) as Hlen.
    apply plus_class_prefix in Hws as (rest & Hrest).
    apply (Hskip m rest); [done|]. intros ->; simpl in Hlen; lia. }
  destruct (RE_COMMENT chunk) as [m|] eqn:Hcm.
  { destruct chunk as [|c s] eqn:Hchunk; [done|]. simpl in Hcm.
    case_bool_decide as Hc; [|done]. injection Hcm as <-.
    apply (Hskip (String c (take_while not_newline s))
             (string_drop (String.length (take_while not_newline s)) s)); [|done].
    by rewrite append_cons, take_while_drop. }
  destruct chunk as [|ch s] eqn:Hchunk; [done|].
  destruct (SYMBOLS ch) as [ttype|] eqn:Hsym.
  { destruct (SYMBOLS_well_typed ch ttype (sc_line st) (sc_col st) Hsym) as [Hwt Hty].
    apply (Hemit (String ch "") s (mkToken ttype (String ch "") (sc_line st) (sc_col st))
             eq_refl ltac:(done) eq_refl eq_refl Hwt
             ltac:(cbn [type value]; by rewrite bool_decide_eq_false_2)
             (advance (String ch "") (emit ttype (String ch "") st)));
      first [done | apply Hlc]. }
  destruct (RE_STRING (String ch s)) as [m|] eqn:Hstr.
  { simpl in Hstr. case_bool_decide as Hq; [subst ch|done].
    destruct (string_body s) as [m'|] eqn:Hm'; [|done]. injection Hstr as <-.
    apply string_body_prefix in Hm' as (body & rest & -> & Hs).
    apply (Hemit (String ch_quote (body +:+ String ch_quote "")) rest
             (mkToken STRING (String ch_quote (body +:+ String ch_quote ""))
                (sc_line st) (sc_col st))
             ltac:(by rewrite append_cons, <- Hs) ltac:(done) eq_refl eq_refl
             ltac:(by exists body) eq_refl
             (advance (String ch_quote (body +:+ String ch_quote ""))
                (emit STRING (String ch_quote (body +:+ String ch_quote "")) st)));
      first [done | apply Hlc]. }
  destruct (RE_DECIMAL (String ch s)) as [m|] eqn:Hdec.
  { pose proof (RE_DECIMAL_length _ _ Hdec) as Hlen.
    destruct (RE_DECIMAL_prefix _ _ Hdec) as (rest & Hrest).
    apply RE_DECIMAL_Some in Hdec as (ent & frac & -> & _ & ? & ? & ? & ? & _).
    apply (Hemit (ent +:+ String "."%char frac) rest
             (mkToken DECIMAL (ent +:+ String "."%char frac) (sc_line st) (sc_col st))
             Hrest ltac:(intros Heq; rewrite Heq in Hlen; simpl in Hlen; lia)
             eq_refl eq_refl ltac:(by exists ent, frac) eq_refl
             (advance (ent +:+ String "."%char frac)
                (emit DECIMAL (ent +:+ String "."%char frac) st)));
      first [done | apply Hlc]. }
  destruct (RE_INT (String ch s)) as [m|] eqn:Hint.
  { destruct (plus_class_prefix _ _ _ Hint) as (rest & Hrest).
    apply plus_class_Some in Hint as (_ & Hlen & Hall).
    assert (m ≠ "") as Hne by (intros ->; simpl in Hlen; lia).
    apply (Hemit m rest (mkToken INT m (sc_line st) (sc_col st))
             Hrest Hne eq_refl eq_refl ltac:(done) eq_refl
             (advance m (emit INT m st)));
      first [done | apply Hlc]. }
  destruct (RE_ID (String ch s)) as [m|] eqn:Hid; [|done].
  simpl in Hid. destruct (is_alpha ch) eqn:Halpha; [|done]. injection Hid as <-.
  assert (well_typed (mkToken (if in_RESERVED (String ch (take_while is_id_char s))
                               then KW else ID)
                        (String ch (take_while is_id_char s)) (sc_line st) (sc_col st)))
    as Hwt.
  { unfold well_typed; cbn [type value].
    destruct (in_RESERVED (String ch (take_while is_id_char s))) eqn:Hres;
      (split; [eexists _, _; split; [done|]; split; [done|apply take_while_all]
              |done]). }
  apply (Hemit (String ch (take_while is_id_char s))
           (string_drop (String.length (take_while is_id_char s)) s)
           (mkToken (if in_RESERVED (String ch (take_while is_id_char s))
                     then KW else ID)
              (String ch (take_while is_id_char s)) (sc_line st) (sc_col st))
           ltac:(by rewrite append_cons, take_while_drop) ltac:(done)
           eq_refl eq_refl Hwt
           ltac:(cbn [type value]; by destruct (in_RESERVED _))
           (advance (String ch (take_while is_id_char s))
              (emit (if in_RESERVED (String ch (take_while is_id_char s))
                     then KW else ID)
                 (String ch (take_while is_id_char s)) st)));
    first [done | apply Hlc].
Qed.

(** ** The rounds that raise *)

Lemma scan_step_Raise text st e :
  scan_step text st = Raise e ↔
  (string_drop (sc_i st) text = "" ∧ e = IndexError)
  ∨ ∃ ch rest, string_drop (sc_i st) text = String ch rest ∧ invalid_start ch rest
      ∧ e = ParseError (ErrorLexico (sc_line st) (sc_col st) ch).
Proof.
  unfold scan_step, invalid_start.
  destruct (string_drop (sc_i st) text) as [|ch s] eqn:Hchunk.
  { simpl. split; [intros [= <-]; by left|].
    intros [[_ ->]|(? & ? & ? & _)]; done. }
  unfold RE_NEWLINE, RE_WHITESPACE, RE_COMMENT, RE_STRING, RE_INT, RE_ID.
  destruct (bool_decide (ch = ch_newline)) eqn:Hnl.
  { apply bool_decide_eq_true in Hnl. split; [done|].
    intros [[? _]|(? & ? & [= <- <-] & (? & _) & _)]; done. }
  apply bool_decide_eq_false in Hnl.
  destruct (plus_class is_blank (String ch s)) as [m|] eqn:Hws.
  { split; [done|]. intros [[? _]|(? & ? & [= <- <-] & (_ & Hb & _) & _)]; [done|].
    by rewrite (plus_class_false _ _ _ Hb) in Hws. }
  apply plus_class_None in Hws.
  destruct (bool_decide (ch = "#"%char)) eqn:Hcm.
  { apply bool_decide_eq_true in Hcm. split; [done|].
    intros [[? _]|(? & ? & [= <- <-] & (_ & _ & ? & _) & _)]; done. }
  apply bool_decide_eq_false in Hcm.
  destruct (SYMBOLS ch) as [ttype|] eqn:Hsym.
  { split; [done|].
    intros [[? _]|(? & ? & [= <- <-] & (_ & _ & _ & Hs & _) & _)]; [done|].
    congruence. }
  assert ((if bool_decide (ch = ch_quote)
           then match string_body s with
                | Some m => Some (String ch m)
                | None => None
                end
           else None) = None ↔ (ch = ch_quote → string_body s = None)) as Hstr.
  { case_bool_decide as Hq; [|done].
    destruct (string_body s); split; intros H; try done.
    by specialize (H Hq). }
  destruct (if bool_decide (ch = ch_quote) then _ else None) as [m|] eqn:Hre.
  { split; [done|].
    intros [[? _]|(? & ? & [= <- <-] & (_ & _ & _ & _ & _ & _ & Hq) & _)]; [done|].
    by apply Hstr in Hq. }
  destruct (is_digit ch) eqn:Hdigit.
  { split.
    - destruct (RE_DECIMAL (String ch s)); [done|].
      unfold plus_class; simpl. by rewrite Hdigit.
    - intros [[? _]|(? & ? & [= <- <-] & (_ & _ & _ & _ & Hd & _) & _)]; [done|].
      congruence. }
  assert (RE_DECIMAL (String ch s) = None) as ->.
  { unfold RE_DECIMAL. by rewrite (plus_class_false _ _ _ Hdigit). }
  rewrite (plus_class_false _ _ _ Hdigit).
  destruct (is_alpha ch) eqn:Halpha.
  { split; [done|].
    intros [[? _]|(? & ? & [= <- <-] & (_ & _ & _ & _ & _ & Ha & _) & _)]; [done|].
    congruence. }
  split.
  - intros [= <-]. right. exists ch, s. split; [done|]. split; [|done].
    repeat split; try done. by apply Hstr.
  - intros [[? _]|(? & ? & [= <- <-] & _ & ->)]; done.
Qed.

(** ** The invariant of the loop *)

Lemma scanner_inv_init text : scanner_inv text scan_init.
Proof.
  exists "". split; [done|]. split; [done|].
  split; [apply position_after_start|constructor].
Qed.

Lemma scanner_inv_step text st st' :
  scanner_inv text st → scan_step text st = Ok st' → scanner_inv text st'.
Proof.
  intros (pre & Htext & Hlen & Hpos & Htoks) Hstep.
  apply scan_step_Ok in Hstep
    as (m & rest & new & Hchunk & Hne & Hi & Hlc & Hnew & Hshape).
  assert (text = (pre +:+ m) +:+ rest) as Htext'.
  { by rewrite append_assoc, <- Hchunk. }
  pose proof (position_after_advance m pre _ _ Hpos) as Hpos'.
  rewrite <- Hlc in Hpos'. simpl in Hpos'.
  exists (pre +:+ m). split; [|split; [|split]].
  - rewrite Hi, string_drop_add, Hchunk, string_drop_app. done.
  - rewrite string_app_length. lia.
  - done.
  - rewrite Hnew. apply Forall_app. split; [done|].
    destruct Hshape as [->|(tok & -> & Hln & Hcl & Hwt & Hval)]; [constructor|].
    constructor; [|constructor]. split; [|done].
    exists pre, m, rest. rewrite Hln, Hcl. split; [by rewrite <- append_assoc|].
    by repeat split.
Qed.

Lemma scan_loop_inv fuel text st :
  scanner_inv text st →
  match scan_loop fuel text st with
  | Ok st' => scanner_inv text st' ∧ (String.length text ≤ sc_i st')%nat
  | Raise e =>
      ∃ pre ch post ln cl,
        text = pre +:+ String ch post ∧ position_after pre ln cl
        ∧ invalid_start ch post ∧ e = ParseError (ErrorLexico ln cl ch)
  | OutOfFuel => True
  end.
Proof.
  revert st. induction fuel as [|fuel IH]; intros st Hinv; simpl.
  - destruct (Nat.ltb_spec (sc_i st) (String.length text)); [done|by split].
  - destruct (Nat.ltb_spec (sc_i st) (String.length text)) as [Hi|Hi]; [|by split].
    destruct (scan_step text st) as [st'|e|] eqn:Hstep; [| |done].
    + apply IH. by eapply scanner_inv_step.
    + destruct Hinv as (pre & Htext & Hlen & Hpos & _).
      apply scan_step_Raise in Hstep as [[Hnil _]|(ch & post & Hchunk & Hbad & ->)].
      { pose proof (string_drop_length (sc_i st) text) as Hd.
        rewrite Hnil in Hd. simpl in Hd. lia. }
      exists pre, ch, post, (sc_line st), (sc_col st). by rewrite <- Hchunk.
Qed.

Lemma scanner_inv_end text st :
  scanner_inv text st → (String.length text ≤ sc_i st)%nat →
  position_after text (sc_line st) (sc_col st).
Proof.
  intros (pre & Htext & Hlen & Hpos & _) Hi.
  pose proof (string_drop_length (sc_i st) text) as Hd.
  destruct (string_drop (sc_i st) text) as [|c s]; [|simpl in Hd; lia].
  rewrite append_nil_r in Htext. by subst pre.
Qed.

(** X7: every token that [tokenize] returns stands in the text at the line
    and the column it records: the text is a prefix, the lexeme of the
    token and a rest, the line is one more than the number of newlines of
    the prefix and the column one more than the number of characters of
    the prefix after its last newline.  The last token is the one of type
    EOF, with the position that follows the whole text. *)
Theorem token_positions :
  ∀ text toks,
    tokenize text = Ok toks →
    ∃ body eof,
      toks = body ++ [eof] ∧ Forall (located text) body
      ∧ type eof = EOF ∧ position_after text (line eof) (col eof).
Proof.
  intros text toks. unfold tokenize, tokenize_fuel.
  pose proof (scan_loop_inv (String.length text) text scan_init
                (scanner_inv_init text)) as Hloop.
  destruct (scan_loop (String.length text) text scan_init) as [st| |]; [|done..].
  intros [= <-]. destruct Hloop as [Hinv Hend].
  exists (sc_tokens st), (mkToken EOF "" (sc_line st) (sc_col st)).
  split; [done|]. split; [|split; [done|by apply scanner_inv_end]].
  destruct Hinv as (_ & _ & _ & _ & Htoks).
  eapply Forall_impl; [exact Htoks|]. by intros tok [? _].
Qed.

Lemma token_positions_witness :
  ∃ body eof,
    tokens_of ejemplo_reservada = body ++ [eof]
    ∧ Forall (located ejemplo_reservada) body
    ∧ type eof = EOF ∧ position_after ejemplo_reservada (line eof) (col eof).
Proof.
  apply (token_positions ejemplo_reservada (tokens_of ejemplo_reservada)).
  by vm_compute.
Defined.

(** X8: the lexeme of every token that [tokenize] returns has the shape
    of its type: digits for INT, digits around a dot for DECIMAL, a letter
    and then letters, digits and underscores for ID and KW, of which the
    reserved words are the KW and the others the ID, a text between two
    quotes for STRING, the one character of the table for a symbol, the
    escape for NL and nothing for EOF. *)
Theorem token_lexemes :
  ∀ text toks, tokenize text = Ok toks → Forall well_typed toks.
Proof.
  intros text toks. unfold tokenize, tokenize_fuel.
  pose proof (scan_loop_inv (String.length text) text scan_init
                (scanner_inv_init text)) as Hloop.
  destruct (scan_loop (String.length text) text scan_init) as [st| |]; [|done..].
  intros [= <-]. destruct Hloop as [(_ & _ & _ & _ & Htoks) _]. simpl.
  apply Forall_app. split; [|by repeat constructor].
  eapply Forall_impl; [exact Htoks|]. by intros tok [_ ?].
Qed.

Lemma token_lexemes_witness : Forall well_typed (tokens_of ejemplo_reservada).
Proof.
  apply (token_lexemes ejemplo_reservada (tokens_of ejemplo_reservada)).
  by vm_compute.
Defined.

(** X9: a round of the scanner on an offset inside the text raises exactly
    when the character there starts no pattern: it is no newline, blank,
    hash sign, symbol of the table, digit or letter, and if it is a quote
    the string it opens is not closed; the error then carries the line and
    the column of the scanner and that character.  So [tokenize] raises
    only an error whose character stands in the text at the position the
    error gives. *)
Theorem lexical_error_characters :
  (∀ text st ch rest,
     string_drop (sc_i st) text = String ch rest →
     (invalid_start ch rest ↔
      scan_step text st
      = Raise (ParseError (ErrorLexico (sc_line st) (sc_col st) ch)))
     ∧ (¬ invalid_start ch rest → ∃ st', scan_step text st = Ok st'))
  ∧ (∀ text ln cl ch,
       tokenize text = Raise (ParseError (ErrorLexico ln cl ch)) →
       ∃ pre post,
         text = pre +:+ String ch post ∧ position_after pre ln cl
         ∧ invalid_start ch post).
Proof.
  split.
  - intros text st ch rest Hchunk. split; [split|].
    + intros Hbad. apply scan_step_Raise. right. by exists ch, rest.
    + intros [[Hnil _]|(ch' & rest' & Hchunk' & Hbad & _)]%scan_step_Raise.
      * by rewrite Hnil in Hchunk.
      * rewrite Hchunk in Hchunk'. by injection Hchunk' as <- <-.
    + intros Hok. destruct (scan_step text st) as [st'|e|] eqn:Hstep.
      * by exists st'.
      * apply scan_step_Raise in Hstep
          as [[Hnil _]|(ch' & rest' & Hchunk' & Hbad & _)].
        { by rewrite Hnil in Hchunk. }
        rewrite Hchunk in Hchunk'. injection Hchunk' as <- <-. done.
      * exfalso. revert Hstep. unfold scan_step.
        repeat (match goal with
                | |- context [match ?x with _ => _ end] => destruct x
                end; try done).
  - intros text ln cl ch. unfold tokenize, tokenize_fuel.
    pose proof (scan_loop_inv (String.length text) text scan_init
                  (scanner_inv_init text)) as Hloop.
    destruct (scan_loop (String.length text) text scan_init) as [st|e|]; [done| |done].
    intros [= ->]. destruct Hloop as (pre & ch' & post & ln' & cl' & ? & ? & ? & [= -> -> ->]).
    by exists pre, post.
Qed.

Lemma lexical_error_characters_witness :
  ∃ pre post,
    programa_ejemplo "-1.0" = pre +:+ String "-"%char post
    ∧ position_after pre 5 13 ∧ invalid_start "-"%char post.
Proof.
  apply (proj2 lexical_error_characters (programa_ejemplo "-1.0") 5 13 "-"%char).
  by vm_compute.
Defined.

(** ** Blanks and comments *)

Lemma advance_chars_line m ln cl :
  all_chars not_newline m →
  advance_chars m (ln, cl) = (ln, cl + Z.of_nat (String.length m)).
Proof.
  revert cl. induction m as [|c m IH]; intros cl Hm; simpl.
  - f_equal. lia.
  - apply all_chars_cons in Hm as [Hc Hm]. unfold advance_char. simpl.
    unfold not_newline in Hc. apply negb_true_iff in Hc. rewrite Hc.
    rewrite IH by done. f_equal. lia.
Qed.

Lemma take_while_stop p s :
  string_drop (String.length (take_while p s)) s = ""
  ∨ ∃ c r, string_drop (String.length (take_while p s)) s = String c r ∧ p c = false.
Proof.
  induction s as [|c s IH]; simpl; [by left|].
  destruct (p c) eqn:Hc; simpl; [done|]. right. by exists c, s.
Qed.

Lemma all_chars_impl (p q : ascii → bool) s :
  (∀ c, p c = true → q c = true) → all_chars p s → all_chars q s.
Proof.
  intros Hpq Hs. unfold all_chars in *. eapply Forall_impl; [exact Hs|].
  intros c. apply Hpq.
Qed.

Lemma is_blank_not_newline c : is_blank c = true → not_newline c = true.
Proof.
  unfold is_blank, not_newline. intros [Hc|Hc]%orb_true_iff;
    apply bool_decide_eq_true in Hc; by subst c.
Qed.

(** X10: blanks and comments give no token.  On a blank, a round of the
    scanner steps over the whole run of blanks; on a hash sign, over the
    rest of the line, and stops at the end of the text or in front of the
    newline, which the next round turns into a token.  In both cases the
    tokens and the line are unchanged and the column grows by the number
    of characters stepped over. *)
Theorem blanks_and_comments_skipped :
  ∀ text st c rest,
    string_drop (sc_i st) text = String c rest →
    (is_blank c = true →
     scan_step text st
     = Ok {| sc_i := sc_i st + String.length (take_while is_blank (String c rest));
             sc_line := sc_line st;
             sc_col := sc_col st
                       + Z.of_nat (String.length (take_while is_blank (String c rest)));
             sc_tokens := sc_tokens st |})
    ∧ (c = "#"%char →
       scan_step text st
       = Ok {| sc_i := sc_i st + S (String.length (take_while not_newline rest));
               sc_line := sc_line st;
               sc_col := sc_col st
                         + Z.of_nat (S (String.length (take_while not_newline rest)));
               sc_tokens := sc_tokens st |}
       ∧ (string_drop (sc_i st + S (String.length (take_while not_newline rest))) text
          = ""
          ∨ ∃ r, string_drop (sc_i st + S (String.length (take_while not_newline rest)))
                   text
                 = String ch_newline r)).
Proof.
  intros text st c rest Hchunk. split.
  - intros Hblank. unfold scan_step. rewrite Hchunk.
    pose proof (is_blank_not_newline c Hblank) as Hnl.
    unfold not_newline in Hnl. apply negb_true_iff in Hnl.
    unfold RE_NEWLINE. rewrite Hnl.
    unfold RE_WHITESPACE, plus_class.
    pose proof (take_while_all is_blank (String c rest)) as Hall.
    destruct (take_while is_blank (String c rest)) as [|d m] eqn:Hm.
    { simpl in Hm. by rewrite Hblank in Hm. }
    unfold advance. f_equal.
    rewrite advance_chars_line; [done|].
    eapply all_chars_impl; [apply is_blank_not_newline|done].
  - intros ->. split.
    + unfold scan_step. rewrite Hchunk.
      unfold RE_NEWLINE, RE_WHITESPACE, plus_class, RE_COMMENT. simpl.
      unfold advance. f_equal.
      rewrite advance_chars_line; [done|].
      apply all_chars_cons. split; [done|]. apply take_while_all.
    + rewrite string_drop_add, Hchunk. simpl.
      destruct (take_while_stop not_newline rest) as [->|(d & r & -> & Hd)];
        [by left|right].
      exists r. unfold not_newline in Hd. apply negb_false_iff in Hd.
      apply bool_decide_eq_true in Hd. by subst d.
Qed.

Lemma blanks_and_comments_skipped_witness :
  scan_step "a  b" (mkScanner 1 1 2 [mkToken ID "a" 1 1])
  = Ok (mkScanner 3 1 4 [mkToken ID "a" 1 1]).
Proof.
  apply (proj1 (blanks_and_comments_skipped "a  b"
                  (mkScanner 1 1 2 [mkToken ID "a" 1 1]) " "%char " b" eq_refl)).
  reflexivity.
Defined.

(** * The error of the invalid query *)

Lemma hoare_while_guard (Inv G : Parser → Prop) cond body
    (Q : unit → Parser → Prop) E :
  hoare Inv cond (λ (c : bool) s, if c then G s else Q () s) E →
  hoare G body (λ _, Inv) E →
  hoare Inv (while_ cond body) Q E.
Proof.
  intros Hcond Hbody s Hs. unfold while_.
  generalize (S (length (tokens s) - pos s)). intros fuel. revert s Hs.
  change (hoare Inv (while_fuel fuel cond body) Q E).
  induction fuel as [|fuel IH]; simpl.
  - apply (hoare_bind _ _ _ _ _ _ Hcond). intros c; destruct c;
      [intros ? ?; exact I|by apply hoare_ret].
  - apply (hoare_bind _ _ _ _ _ _ Hcond). intros c; destruct c;
      [|by apply hoare_ret].
    apply (hoare_bind _ _ _ _ _ _ Hbody). intros _. exact IH.
Qed.

Create HintDb quiet.

(** The errors of a run, for any property [E] of an error and of the state
    it is raised in that holds of every error that is not syntactic and of
    every syntactic error, but that of the invalid query, raised on the
    token under the cursor. *)
Section quiet.
Variable E : Exn → Parser → Prop.
Hypothesis E_other :
  ∀ e s, (∀ ln cl msg, e ≠ ParseError (ErrorSintactico ln cl msg)) → E e s.
Hypothesis E_at :
  ∀ s tok msg, tokens s !! pos s = Some tok → msg ≠ ConsultaInvalida →
    E (ParseError (ErrorSintactico (line tok) (col tok) msg)) s.

Local Abbreviation Any := (λ _ : Parser, True).
Local Abbreviation quiet m := (hoare Any m (λ _, Any) E).

Lemma quiet_ret {A} (a : A) : quiet (ret a).
Proof. by apply hoare_ret. Qed.

Lemma quiet_raise {A} e :
  (∀ ln cl msg, e ≠ ParseError (ErrorSintactico ln cl msg)) → quiet (@raise A e).
Proof. intros He. apply hoare_raise. intros s _. by apply E_other. Qed.

Lemma quiet_bind {A B} (m : M A) (k : A → M B) :
  quiet m → (∀ a, quiet (k a)) → quiet (bind m k).
Proof. intros Hm Hk. eapply hoare_bind; [exact Hm|]. intros a. apply Hk. Qed.

Lemma quiet_semantic_error {A} msg : quiet (@semantic_error A msg).
Proof. by apply quiet_raise. Qed.

Lemma quiet_current : quiet current.
Proof.
  intros s _. unfold current. destruct (tokens s !! pos s); [done|].
  by apply E_other.
Qed.

Lemma quiet_current_syntax_error {A} msg :
  msg ≠ ConsultaInvalida → quiet (tok <- current ;; @syntax_error A tok msg).
Proof.
  intros Hmsg s _. destruct (tokens s !! pos s) as [tok|] eqn:Hlook.
  - rewrite (bind_Ok _ _ _ _ _ (current_Some _ _ Hlook)). by apply E_at.
  - rewrite (bind_Raise _ _ _ _ _ (current_None _ Hlook)). by apply E_other.
Qed.

Lemma quiet_match_ ttype val : quiet (match_ ttype val).
Proof.
  intros s _. destruct (tokens s !! pos s) as [tok|] eqn:Hlook.
  - by rewrite (match_Some _ _ _ _ Hlook).
  - rewrite (match_None _ _ _ Hlook). by apply E_other.
Qed.

Lemma quiet_consume ttype val : quiet (consume ttype val).
Proof.
  intros s _. destruct (tokens s !! pos s) as [tok|] eqn:Hlook.
  - rewrite (consume_Some _ _ _ _ Hlook). destruct (matches ttype val tok); [done|].
    by apply E_at.
  - rewrite (consume_None _ _ _ Hlook). by apply E_other.
Qed.

Lemma quiet_step_pos : quiet step_pos.
Proof. by intros s _. Qed.

Lemma quiet_in_carousels_defined cid : quiet (in_carousels_defined cid).
Proof. by intros s _. Qed.

Lemma quiet_in_products_defined pid : quiet (in_products_defined pid).
Proof. by intros s _. Qed.

Lemma quiet_carousels_defined_add cid : quiet (carousels_defined_add cid).
Proof. by intros s _. Qed.

Lemma quiet_products_defined_add pid : quiet (products_defined_add pid).
Proof. by intros s _. Qed.

Lemma quiet_raise_if b err : quiet err → quiet (raise_if b err).
Proof. intros Herr. destruct b; [exact Herr|apply quiet_ret]. Qed.

Lemma quiet_or_else a b : quiet a → quiet b → quiet (or_else a b).
Proof.
  intros Ha Hb. unfold or_else. apply quiet_bind; [done|].
  intros []; [apply quiet_ret|done].
Qed.

Lemma quiet_while cond body : quiet cond → quiet body → quiet (while_ cond body).
Proof.
  intros Hcond Hbody. apply hoare_while; [|done].
  eapply hoare_conseq; [exact Hcond|done| |done]. by intros [] ? ?.
Qed.

#[local] Hint Resolve quiet_ret quiet_semantic_error quiet_current quiet_match_
  quiet_consume quiet_step_pos quiet_in_carousels_defined quiet_in_products_defined
  quiet_carousels_defined_add quiet_products_defined_add : quiet.

Ltac quiet_method :=
  repeat first
    [ solve [eauto with quiet]
    | lazymatch goal with
      | |- hoare _ (bind current _) _ _ =>
          apply quiet_current_syntax_error; discriminate
      | |- hoare _ (bind _ _) _ _ => apply quiet_bind; [|intros ?]
      | |- hoare _ (if ?b then _ else _) _ _ => destruct b
      | |- hoare _ (match ?o with Some _ => _ | None => _ end) _ _ => destruct o
      | |- hoare _ (raise_if _ _) _ _ => apply quiet_raise_if
      | |- hoare _ (or_else _ _) _ _ => apply quiet_or_else
      | |- hoare _ (while_ _ _) _ _ => apply quiet_while
      | |- hoare _ (raise _) _ _ => apply quiet_raise; discriminate
      end ].

Lemma quiet_skip_nl : quiet skip_nl.
Proof. unfold skip_nl. quiet_method. Qed.
#[local] Hint Resolve quiet_skip_nl : quiet.

Lemma quiet_fin : quiet fin.
Proof. unfold fin. quiet_method. Qed.
#[local] Hint Resolve quiet_fin : quiet.

Lemma quiet_consume_int : quiet consume_int.
Proof. unfold consume_int. quiet_method. Qed.

Lemma quiet_consume_float : quiet consume_float.
Proof. unfold consume_float. quiet_method. Qed.
#[local] Hint Resolve quiet_consume_int quiet_consume_float : quiet.

Lemma quiet_parametros : quiet parametros.
Proof. unfold parametros. quiet_method. Qed.
#[local] Hint Resolve quiet_parametros : quiet.

Lemma quiet_def_producto : quiet def_producto.
Proof. unfold def_producto. quiet_method. Qed.
#[local] Hint Resolve quiet_def_producto : quiet.

Lemma quiet_catalogo : quiet catalogo.
Proof. unfold catalogo. quiet_method. Qed.
#[local] Hint Resolve quiet_catalogo : quiet.

Lemma quiet_def_carrusel : quiet def_carrusel.
Proof. unfold def_carrusel. quiet_method. Qed.
#[local] Hint Resolve quiet_def_carrusel : quiet.

Lemma quiet_definiciones : quiet definiciones.
Proof. unfold definiciones. quiet_method. Qed.

Lemma quiet_check_tx_semantics pid qty : quiet (check_tx_semantics pid qty).
Proof. unfold check_tx_semantics. quiet_method. Qed.
#[local] Hint Resolve quiet_definiciones quiet_check_tx_semantics : quiet.

Lemma quiet_tx : quiet tx.
Proof. unfold tx. quiet_method. Qed.
#[local] Hint Resolve quiet_tx : quiet.

Lemma quiet_lista_tx : quiet lista_tx.
Proof. unfold lista_tx. quiet_method. Qed.
#[local] Hint Resolve quiet_lista_tx : quiet.

Lemma quiet_bloque_transacciones : quiet bloque_transacciones.
Proof. unfold bloque_transacciones. quiet_method. Qed.
#[local] Hint Resolve quiet_bloque_transacciones : quiet.

(** The test of the loop of [simulacion] lets a round start only on a
    token that opens a query. *)
Lemma guard_consulta :
  hoare Any
    (or_else (match_ KW (Some "ESTADO"))
       (or_else (match_ KW (Some "ESTADISTICAS")) (match_ KW (Some "REPORTE"))))
    (λ (c : bool) s,
       if c then ∃ tok, tokens s !! pos s = Some tok ∧ opens_consulta tok else True)
    E.
Proof.
  intros s _. unfold or_else. destruct (tokens s !! pos s) as [tok|] eqn:Hlook.
  - rewrite (bind_Ok _ _ _ _ _ (match_Some _ _ KW (Some "ESTADO") Hlook)).
    destruct (matches KW (Some "ESTADO") tok) eqn:H1.
    { exists tok. split; [done|]. by left. }
    rewrite (bind_Ok _ _ _ _ _ (match_Some _ _ KW (Some "ESTADISTICAS") Hlook)).
    destruct (matches KW (Some "ESTADISTICAS") tok) eqn:H2.
    { exists tok. split; [done|]. right. by left. }
    rewrite (match_Some _ _ KW (Some "REPORTE") Hlook).
    destruct (matches KW (Some "REPORTE") tok) eqn:H3; [|done].
    exists tok. split; [done|]. right. by right.
  - rewrite (bind_Raise _ _ _ _ _ (match_None _ _ _ Hlook)). by apply E_other.
Qed.

(** On such a token [consulta] takes one of its three branches. *)
Lemma consulta_guarded :
  hoare (λ s, ∃ tok, tokens s !! pos s = Some tok ∧ opens_consulta tok)
    consulta (λ _, Any) E.
Proof.
  intros s (tok & Hlook & Hopen). unfold consulta.
  rewrite (bind_Ok _ _ _ _ _ (match_Some _ _ KW (Some "ESTADO") Hlook)).
  destruct (matches KW (Some "ESTADO") tok) eqn:H1.
  { assert (quiet (consume KW (Some "ESTADO") ;; ret ())) as Hq by quiet_method.
    by apply Hq. }
  rewrite (bind_Ok _ _ _ _ _ (match_Some _ _ KW (Some "ESTADISTICAS") Hlook)).
  destruct (matches KW (Some "ESTADISTICAS") tok) eqn:H2.
  { assert (quiet (consume KW (Some "ESTADISTICAS") ;; ret ())) as Hq by quiet_method.
    by apply Hq. }
  rewrite (bind_Ok _ _ _ _ _ (match_Some _ _ KW (Some "REPORTE") Hlook)).
  destruct (matches KW (Some "REPORTE") tok) eqn:H3.
  { assert (quiet (consume KW (Some "REPORTE") ;; consume LPAREN None ;;
                   consume STRING None ;; consume RPAREN None ;; ret ())) as Hq
      by quiet_method.
    by apply Hq. }
  destruct Hopen as [?|[?|?]]; congruence.
Qed.

Lemma quiet_simulacion : quiet simulacion.
Proof.
  unfold simulacion.
  do 6 (apply quiet_bind; [solve [eauto with quiet]|intros ?]).
  apply quiet_bind; [|intros ?; quiet_method].
  eapply hoare_while_guard; [apply guard_consulta|].
  eapply hoare_bind; [apply consulta_guarded|]. intros ?. quiet_method.
Qed.
#[local] Hint Resolve quiet_simulacion : quiet.

Lemma quiet_programa : quiet programa.
Proof. unfold programa. quiet_method. Qed.
End quiet.

(** X11: [consulta] raises the error of the invalid query on any token
    that opens no query, and consumes nothing; but [simulacion] calls it
    only after it has seen one of the three keywords, so no run of the
    parser, and no text, ends with that error. *)
Theorem consulta_invalida_unreachable :
  (∀ s tok rest,
     remaining s = tok :: rest → ¬ opens_consulta tok →
     consulta s
     = (Raise (ParseError (ErrorSintactico (line tok) (col tok) ConsultaInvalida)), s))
  ∧ (∀ toks, ¬ ∃ e, (parse toks).1 = Raise e ∧ consulta_invalida e)
  ∧ (∀ text ln cl,
       validate text ≠ Raise (ParseError (ErrorSintactico ln cl ConsultaInvalida))).
Proof.
  assert (∀ toks e, (parse toks).1 = Raise e → ¬ consulta_invalida e) as Hparse.
  { intros toks e Hrun.
    pose proof (quiet_programa (λ e _, ¬ consulta_invalida e)
                  ltac:(intros e0 s0 He (ln & cl & ->); by eapply He)
                  ltac:(intros s0 tok0 msg _ Hmsg (ln & cl & [= _ _ ?]); done)
                  (Parser_init toks) I) as Hq.
    unfold parse in Hrun. destruct (programa (Parser_init toks)) as [r s'].
    simpl in Hrun. by subst r. }
  split; [|split].
  - intros s tok rest Hrem Hno. unfold consulta.
    assert (∀ kw, kw ∈ ["ESTADO"; "ESTADISTICAS"; "REPORTE"] →
              matches KW (Some kw) tok = false) as Hm.
    { intros kw Hkw. destruct (matches KW (Some kw) tok) eqn:Hkwm; [|done].
      exfalso. apply Hno. unfold opens_consulta. elem_cases Hkw; auto. }
    rewrite (bind_Ok _ _ _ _ _ (match_cons _ _ _ KW (Some "ESTADO") Hrem)).
    rewrite (Hm "ESTADO") by repeat constructor.
    rewrite (bind_Ok _ _ _ _ _ (match_cons _ _ _ KW (Some "ESTADISTICAS") Hrem)).
    rewrite (Hm "ESTADISTICAS") by repeat constructor.
    rewrite (bind_Ok _ _ _ _ _ (match_cons _ _ _ KW (Some "REPORTE") Hrem)).
    rewrite (Hm "REPORTE") by repeat constructor.
    by rewrite (bind_Ok _ _ _ _ _ (current_cons _ _ _ Hrem)).
  - intros toks (e & Hrun & Hbad). by apply (Hparse toks e).
  - intros text ln cl Hval. unfold validate in Hval.
    destruct (tokenize text) as [toks|e|] eqn:Htok; [| |done].
    + apply (Hparse toks _ Hval). by exists ln, cl.
    + injection Hval as ->.
      destruct (tokenize_spec text) as [(? & ? & ? & Herr)|(? & ? & ? & Hok & _)];
        congruence.
Qed.

Lemma consulta_invalida_unreachable_witness :
  consulta (Parser_init [tok RBRACE "}"; tok EOF ""])
  = (Raise (ParseError (ErrorSintactico 0 0 ConsultaInvalida)),
     Parser_init [tok RBRACE "}"; tok EOF ""]).
Proof.
  apply (proj1 consulta_invalida_unreachable
           (Parser_init [tok RBRACE "}"; tok EOF ""]) (tok RBRACE "}") [tok EOF ""]).
  - reflexivity.
  - intros [H|[H|H]]; discriminate H.
Defined.

(** X12: a syntactic error of the parser names the line and the column of
    the token under the cursor when it is raised, which is the first token
    that the run has not consumed. *)
Theorem syntax_error_at_cursor :
  ∀ toks ln cl msg s',
    parse toks = (Raise (ParseError (ErrorSintactico ln cl msg)), s') →
    tokens s' = toks
    ∧ ∃ tok, toks !! pos s' = Some tok ∧ line tok = ln ∧ col tok = cl.
Proof.
  intros toks ln cl msg s' Hrun.
  pose proof (quiet_programa
    (λ e s, ∀ ln cl msg, e = ParseError (ErrorSintactico ln cl msg) →
              ∃ tok, tokens s !! pos s = Some tok ∧ line tok = ln ∧ col tok = cl)
    ltac:(intros e0 s0 He ln0 cl0 msg0 ->; by edestruct He)
    ltac:(intros s0 tok0 msg0 Hl _ ln0 cl0 msg1 [= <- <- _]; by exists tok0)
    (Parser_init toks) I) as Hq.
  destruct (wf_programa (Parser_init toks) ltac:(simpl; lia)) as [(Htok & _) _].
  unfold parse in Hrun. rewrite Hrun in Hq, Htok. simpl in Htok.
  split; [done|]. rewrite <- Htok. by apply (Hq ln cl msg).
Qed.

Lemma syntax_error_at_cursor_witness :
  tokens (parse (tokens_of ejemplo_reservada)).2 = tokens_of ejemplo_reservada
  ∧ ∃ tok, tokens_of ejemplo_reservada !! pos (parse (tokens_of ejemplo_reservada)).2
           = Some tok
      ∧ line tok = 1 ∧ col tok = 10.
Proof.
  apply (syntax_error_at_cursor (tokens_of ejemplo_reservada) 1 10
           (Esperaba ID None KW "PRODUCTO")).
  by vm_compute.
Defined.

(** * What an accepted text guarantees *)

Lemma tokens_at_shaped toks k pat :
  tokens_at toks k pat ↔ shaped pat (take (length pat) (drop k toks)).
Proof.
  split; [|apply tokens_at_take].
  intros (found & rest & -> & Hshape).
  rewrite <- (shaped_length _ _ Hshape), take_app_length. done.
Qed.

Lemma tokens_at_dec toks k pat : tokens_at toks k pat ∨ ¬ tokens_at toks k pat.
Proof.
  destruct (decide (Forall2 (λ (p : TokenType * option string) tok,
                               matches p.1 p.2 tok = true)
                      pat (take (length pat) (drop k toks)))) as [Hyes|Hno].
  - left. by apply tokens_at_shaped.
  - right. intros H. by apply tokens_at_shaped in H.
Qed.

Lemma bounded_search (P : nat → Prop) j :
  (∀ k, P k ∨ ¬ P k) →
  (∃ k, (k < j)%nat ∧ P k) ∨ (∀ k, (k < j)%nat → ¬ P k).
Proof.
  intros Hdec. induction j as [|j [(k & Hk & HP)|Hnone]].
  - right. intros k Hk. lia.
  - left. exists k. split; [lia|done].
  - destruct (Hdec j) as [HP|HP].
    + left. exists j. split; [lia|done].
    + right. intros k Hk. destruct (decide (k = j)) as [->|Hne]; [done|].
      apply Hnone. lia.
Qed.

(** X13: in a text that is accepted, every transaction is on a product
    that a product definition above it names, no two definitions of
    carousels and no two definitions of products have the same
    identifier, and every token where the grammar wants an identifier has
    the type ID. *)
Theorem accepted_names_resolved :
  ∀ text toks,
    tokenize text = Ok toks → validate text = Ok () →
    (∀ j n pid, transaction_at toks j pid n →
       ∃ k, (k < j)%nat ∧ declares "PRODUCTO" toks k pid)
    ∧ (∀ kw i j name,
         kw ∈ ["CARRUSEL"; "PRODUCTO"] →
         declares kw toks i name → declares kw toks j name → i = j)
    ∧ (∀ k tok, identifier_expected toks k → toks !! k = Some tok → type tok = ID).
Proof.
  intros text toks Htok Hok.
  pose proof (tokenize_lexed _ _ Htok) as Hlexed.
  rewrite (validate_parse _ _ Htok) in Hok.
  assert (∀ e s', parse toks = (Raise e, s') → False) as Hno.
  { intros e s' Hrun. by rewrite Hrun in Hok. }
  split; [|split].
  - intros j n pid Hentry.
    destruct (bounded_search (λ k, declares "PRODUCTO" toks k pid) j) as [?|Hnone];
      [intros k; apply tokens_at_dec|done|].
    destruct (undefined_product_run toks j n pid Hlexed Hentry Hnone)
      as (e & s' & Hrun & _). by destruct (Hno e s').
  - intros kw i j name Hkw Hi Hj.
    destruct (Nat.lt_trichotomy i j) as [Hlt|[?|Hlt]]; [|done|].
    + destruct (duplicate_run kw toks i j name Hkw Hlexed Hi Hj Hlt)
        as (e & s' & Hrun & _). by destruct (Hno e s').
    + destruct (duplicate_run kw toks j i name Hkw Hlexed Hj Hi Hlt)
        as (e & s' & Hrun & _). by destruct (Hno e s').
  - intros k tok Hk Hlook.
    destruct (decide (type tok = ID)) as [?|Hty]; [done|].
    destruct (not_an_identifier_run toks k tok Hlexed Hk Hlook Hty)
      as (e & s' & Hrun & _). by destruct (Hno e s').
Qed.

Lemma accepted_names_resolved_witness :
  (∀ j n pid, transaction_at (tokens_of (programa_ejemplo "1.50")) j pid n →
     ∃ k, (k < j)%nat ∧ declares "PRODUCTO" (tokens_of (programa_ejemplo "1.50")) k pid)
  ∧ (∀ kw i j name,
       kw ∈ ["CARRUSEL"; "PRODUCTO"] →
       declares kw (tokens_of (programa_ejemplo "1.50")) i name →
       declares kw (tokens_of (programa_ejemplo "1.50")) j name → i = j)
  ∧ (∀ k tok, identifier_expected (tokens_of (programa_ejemplo "1.50")) k →
       tokens_of (programa_ejemplo "1.50") !! k = Some tok → type tok = ID).
Proof.
  apply (accepted_names_resolved (programa_ejemplo "1.50")).
  - by vm_compute.
  - by vm_compute.
Defined.

(** * Texts that are accepted *)

(** ** Products and catalogues *)

Lemma followed_by_first (P Q : list Token → Prop) toks :
  (P ⋅ Q) toks → (∀ l, P l → ∃ tok l', l = tok :: l') →
  ∃ a b tok l', toks = (tok :: l') ++ b ∧ a = tok :: l' ∧ P a ∧ Q b.
Proof.
  intros (a & b & -> & Ha & Hb) HP. destruct (HP a Ha) as (tok & l' & ->).
  by exists (tok :: l'), b, tok, l'.
Qed.

Lemma valid_producto_first pid prod :
  valid_producto pid prod →
  ∃ tok l, prod = tok :: l ∧ matches KW (Some "PRODUCTO") tok = true.
Proof.
  intros (d & mn & mx & crit & price & minimo & maximo & hasta & tras & -> & Hhasta & _).
  destruct Hhasta as (? & maxi & -> & (? & T2 & -> & (? & mini & -> &
    (? & T1 & -> & (? & prec & -> & (? & nls2 & -> & (? & lb & -> &
    (hd & nls1 & -> & Hhd & Hnls1) & Hlb) & Hnls2) & Hprec) & HT1) & Hmini)
    & HT2) & Hmaxi).
  shaped_inv Hhd. simpl. eexists _, _. split; [reflexivity|]. done.
Qed.

Lemma def_producto_run s prod rest pid :
  remaining s = prod ++ rest → valid_producto pid prod →
  pid ∉ products_defined s → next_not_nl rest →
  def_producto s = (Ok (), (products_defined_add pid (jump (length prod) s)).2).
Proof.
  intros Hrem (d & mn & mx & crit & price & minimo & maximo & hasta & tras & -> &
    Hhasta & Htras & Hres & Hd & Hprice & Hmn & Hmx & Hle & Hcrit) Hfresh Hnext.
  rewrite <- app_assoc in Hrem.
  destruct (def_producto_hasta_maximo s hasta (tras ++ rest) pid d mn mx price minimo
              maximo Hrem Hhasta Hres Hfresh Hd Hprice Hmn Hmx) as [-> Hrem'].
  assert ((minimo >? maximo) = false) as Hb by (rewrite Z.gtb_ltb; lia).
  rewrite (bind_ret_if _ _ _ _ Hb).
  rewrite (producto_tras_maximo_run _ _ _ _ Hrem' Htras Hcrit Hnext).
  f_equal. apply Parser_eq; simpl; try done. rewrite length_app. lia.
Qed.

Lemma ends_loop_next kw rest : ends_loop kw rest → next_not_nl rest.
Proof. intros (tok & rest' & -> & Hnl & _). by exists tok, rest'. Qed.

Lemma valid_catalogo_next D prods D' rest :
  valid_catalogo D prods D' → next_not_nl rest → next_not_nl (prods ++ rest).
Proof.
  intros [D0|D0 pid prod prods' D0' Hprod _ _] Hrest; [done|].
  destruct (valid_producto_first _ _ Hprod) as (tok & l & -> & Hkw).
  eexists _, _. split; [reflexivity|]. apply matches_spec in Hkw as [-> _]. done.
Qed.

Lemma while_catalogo D prods D' :
  valid_catalogo D prods D' →
  ∀ fuel s rest,
    products_defined s = D → remaining s = prods ++ rest →
    ends_loop "PRODUCTO" rest → (length prods < fuel)%nat →
    while_fuel fuel (match_ KW (Some "PRODUCTO")) (def_producto ;; skip_nl) s
    = (Ok (), {| tokens := tokens s; pos := length prods + pos s;
                 products_defined := D';
                 carousels_defined := carousels_defined s |}).
Proof.
  induction 1 as [D|D pid prod prods D' Hprod Hfresh Hprods IH];
    intros fuel s rest Hdef Hrem Hend Hfuel.
  - destruct Hend as (tok & rest' & -> & Hnl & Hkw). simpl in Hrem.
    destruct fuel as [|fuel]; [lia|]. cbn [while_fuel].
    rewrite (bind_Ok _ _ _ _ _ (match_cons _ _ _ KW (Some "PRODUCTO") Hrem)), Hkw.
    simpl. unfold ret. f_equal. destruct s; simpl in *. by subst.
  - destruct fuel as [|fuel]; [lia|]. rewrite <- app_assoc in Hrem.
    destruct (valid_producto_first _ _ Hprod) as (tok & l & Hl & Hkw).
    assert (next_not_nl (prods ++ rest)) as Hnext.
    { eapply valid_catalogo_next; [done|]. by eapply ends_loop_next. }
    cbn [while_fuel].
    assert (remaining s = tok :: l ++ prods ++ rest) as Hrem0 by by rewrite Hrem, Hl.
    rewrite (bind_Ok _ _ _ _ _ (match_cons _ _ _ KW (Some "PRODUCTO") Hrem0)), Hkw.
    rewrite bind_assoc.
    rewrite (bind_Ok _ _ _ _ _ (def_producto_run _ _ _ _ Hrem Hprod
               ltac:(by rewrite Hdef) Hnext)). cbv beta.
    pose proof (remaining_jump_app _ _ _ Hrem) as Hrem1.
    rewrite (bind_Ok _ _ _ _ _ (skip_nl_none _ _
               (eq_trans (remaining_add_product pid _) Hrem1) Hnext)). cbv beta.
    rewrite (IH fuel _ rest); simpl; try done.
    + f_equal. f_equal. rewrite length_app. lia.
    + by rewrite Hdef.
    + rewrite length_app, Hl in Hfuel. simpl in Hfuel. lia.
Qed.

Lemma catalogo_run s prods rest D' :
  remaining s = prods ++ rest → valid_catalogo (products_defined s) prods D' →
  ends_loop "PRODUCTO" rest →
  catalogo s
  = (Ok (), {| tokens := tokens s; pos := length prods + pos s;
               products_defined := D';
               carousels_defined := carousels_defined s |}).
Proof.
  intros Hrem Hprods Hend. unfold catalogo, while_.
  apply (while_catalogo _ _ _ Hprods _ _ rest); try done.
  pose proof (remaining_length s) as Hlen.
  rewrite Hrem, length_app in Hlen. lia.
Qed.

(** ** Carousels *)

Lemma valid_carrusel_first cid D car D' :
  valid_carrusel cid D car D' →
  ∃ tok l, car = tok :: l ∧ matches KW (Some "CARRUSEL") tok = true.
Proof.
  intros (e & c & espacios & capacidad & head & prods & close & -> & Hhead & _).
  destruct Hhead as (? & T2 & -> & (? & cap & -> & (? & T1 & -> & (? & esp & -> &
    (? & nls2 & -> & (? & lb & -> & (hd & nls1 & -> & Hhd & Hnls1) & Hlb) & Hnls2)
    & Hesp) & HT1) & Hcap) & HT2).
  shaped_inv Hhd. simpl. eexists _, _. split; [reflexivity|]. done.
Qed.

Lemma remaining_record s k D C :
  remaining {| tokens := tokens s; pos := k + pos s;
               products_defined := D; carousels_defined := C |}
  = drop k (remaining s).
Proof. exact (remaining_jump k s). Qed.

Lemma parametros_run s esp T1 cap T2 rest e c espacios capacidad :
  remaining s = esp ++ T1 ++ cap ++ T2 ++ rest →
  shaped [(KW, Some "ESPACIOS"); (COLON, None); (INT, Some e)] esp →
  terminator T1 →
  shaped [(KW, Some "CAPACIDAD"); (COLON, None); (INT, Some c)] cap →
  terminator T2 → next_not_nl rest →
  py_int e = Some espacios → py_int c = Some capacidad →
  0 < espacios → 0 < capacidad →
  parametros s = (Ok (), jump (3 + length T1 + 3 + length T2) s).
Proof.
  intros Hrem Hesp HT1 Hcap HT2 Hrest He Hc Hespacios Hcapacidad.
  rewrite (parametros_cases s esp T1 cap T2 rest e c espacios capacidad) by done.
  destruct (Z.leb_spec espacios 0); [lia|].
  by destruct (Z.leb_spec capacidad 0); [lia|].
Qed.

Lemma def_carrusel_run s car rest cid D' :
  remaining s = car ++ rest → valid_carrusel cid (products_defined s) car D' →
  cid ∉ carousels_defined s → next_not_nl rest →
  def_carrusel s
  = (Ok (), {| tokens := tokens s; pos := length car + pos s;
               products_defined := D';
               carousels_defined := {[ cid ]} ∪ carousels_defined s |}).
Proof.
  intros Hrem (e & c & espacios & capacidad & head & prods & close & -> & Hhead &
    Hprods & Hclose & Hres & He & Hespacios & Hc & Hcapacidad) Hfresh Hnext.
  destruct Hhead as (? & T2 & -> & (? & cap & -> & (? & T1 & -> & (? & esp & -> &
    (? & nls2 & -> & (? & lb & -> & (hd & nls1 & -> & Hhd & Hnls1) & Hlb) & Hnls2)
    & Hesp) & HT1) & Hcap) & HT2).
  destruct Hclose as (rb & nlsc & -> & Hrb & Hnlsc).
  pose proof Hesp as Hesp0. pose proof Hcap as Hcap0.
  pose proof (shaped_length _ _ Hhd) as Lhd. pose proof (shaped_length _ _ Hlb) as Llb.
  pose proof (shaped_length _ _ Hesp) as Lesp.
  pose proof (shaped_length _ _ Hcap) as Lcap.
  pose proof (shaped_length _ _ Hrb) as Lrb.
  assert (length ((((((((hd ++ nls1) ++ lb) ++ nls2) ++ esp) ++ T1) ++ cap) ++ T2)
                  ++ prods ++ rb ++ nlsc)
          = (2 + length nls1 + 1 + length nls2 + 3 + length T1 + 3 + length T2
             + length prods + 1 + length nlsc)%nat) as Hlen.
  { rewrite !length_app, Lhd, Llb, Lesp, Lcap, Lrb. simpl. lia. }
  rewrite Hlen. clear Hlen Lhd Llb Lesp Lcap Lrb.
  rewrite <- !app_assoc in Hrem.
  rewrite (def_carrusel_fresh s hd _ cid Hrem Hhd Hres Hfresh).
  pose proof (remaining_jump_app _ _ _ Hrem) as Hrem0.
  rewrite (shaped_length _ _ Hhd) in Hrem0. simpl in Hrem0.
  shaped_inv Hlb. shaped_inv Hesp. shaped_inv Hcap. shaped_inv Hrb.
  simpl in Hrem0.
  assert (remaining (carousels_defined_add cid (jump 2 s)).2
          = nls1 ++ mkToken LBRACE v ln cl
              :: nls2 ++ [mkToken KW "ESPACIOS" ln0 cl0; mkToken COLON v0 ln1 cl1;
                          mkToken INT e ln2 cl2]
              ++ T1 ++ [mkToken KW "CAPACIDAD" ln3 cl3; mkToken COLON v1 ln4 cl4;
                        mkToken INT c ln5 cl5]
              ++ T2 ++ prods ++ mkToken RBRACE v2 ln6 cl6 :: nlsc ++ rest) as Hrem1
    by exact Hrem0.
  clear Hrem Hrem0.
  set (s1 := (carousels_defined_add cid (jump 2 s)).2) in *.
  do 3 run_more.
  assert (ends_loop "PRODUCTO" (mkToken RBRACE v2 ln6 cl6 :: nlsc ++ rest)) as Hend.
  { eexists _, _. split; [reflexivity|]. by split. }
  assert (next_not_nl (prods ++ mkToken RBRACE v2 ln6 cl6 :: nlsc ++ rest)) as Hnext'.
  { eapply valid_catalogo_next; [done|]. by apply next_not_nl_cons. }
  rewrite (bind_Ok _ _ _ _ _
             (parametros_run _ _ T1 _ T2 _ e c espacios capacidad
                Hrem2 Hesp0 HT1 Hcap0 HT2 Hnext' He Hc Hespacios Hcapacidad)).
  cbv beta.
  assert (remaining (jump (3 + length T1 + 3 + length T2)
                       (jump (length nls2) (jump 1 (jump (length nls1) s1))))
          = prods ++ mkToken RBRACE v2 ln6 cl6 :: nlsc ++ rest) as Hrem3.
  { rewrite remaining_jump, Hrem2, <- !drop_drop. simpl.
    rewrite drop_0, drop_app_length. simpl. by rewrite drop_0, drop_app_length. }
  rewrite (bind_Ok _ _ _ _ _ (skip_nl_none _ _ Hrem3 Hnext')). cbv beta.
  rewrite (bind_Ok _ _ _ _ _ (catalogo_run _ prods _ D' Hrem3 Hprods Hend)). cbv beta.
  match goal with |- bind skip_nl _ ?st = _ => set (s5 := st) end.
  assert (remaining s5 = mkToken RBRACE v2 ln6 cl6 :: nlsc ++ rest) as Hrem5.
  { unfold s5. rewrite remaining_record, Hrem3. by rewrite drop_app_length. }
  do 2 run_more.
  lazymatch goal with
  | H : remaining (jump 1 s5) = _ |- _ =>
      rewrite (skip_nl_run _ nlsc rest H Hnlsc Hnext)
  end.
  f_equal. apply Parser_eq; simpl; try done. lia.
Qed.

Lemma valid_definiciones_next C D cars C' D' rest :
  valid_definiciones C D cars C' D' → next_not_nl rest → next_not_nl (cars ++ rest).
Proof.
  intros [C0 D0|C0 D0 cid car D1 cars' C0' D0' Hcar _ _] Hrest; [done|].
  destruct (valid_carrusel_first _ _ _ _ Hcar) as (tok & l & -> & Hkw).
  eexists _, _. split; [reflexivity|]. apply matches_spec in Hkw as [-> _]. done.
Qed.

Lemma while_definiciones C D cars C' D' :
  valid_definiciones C D cars C' D' →
  ∀ fuel s rest,
    carousels_defined s = C → products_defined s = D →
    remaining s = cars ++ rest →
    ends_loop "CARRUSEL" rest → (length cars < fuel)%nat →
    while_fuel fuel (match_ KW (Some "CARRUSEL")) (def_carrusel ;; skip_nl) s
    = (Ok (), {| tokens := tokens s; pos := length cars + pos s;
                 products_defined := D'; carousels_defined := C' |}).
Proof.
  induction 1 as [C D|C D cid car D1 cars C' D' Hcar Hfresh Hcars IH];
    intros fuel s rest HC HD Hrem Hend Hfuel.
  - destruct Hend as (tok & rest' & -> & Hnl & Hkw). simpl in Hrem.
    destruct fuel as [|fuel]; [lia|]. cbn [while_fuel].
    rewrite (bind_Ok _ _ _ _ _ (match_cons _ _ _ KW (Some "CARRUSEL") Hrem)), Hkw.
    simpl. unfold ret. f_equal. destruct s; simpl in *. by subst.
  - destruct fuel as [|fuel]; [lia|]. rewrite <- app_assoc in Hrem.
    destruct (valid_carrusel_first _ _ _ _ Hcar) as (tok & l & Hl & Hkw).
    assert (next_not_nl (cars ++ rest)) as Hnext.
    { eapply valid_definiciones_next; [done|]. by eapply ends_loop_next. }
    cbn [while_fuel].
    assert (remaining s = tok :: l ++ cars ++ rest) as Hrem0 by by rewrite Hrem, Hl.
    rewrite (bind_Ok _ _ _ _ _ (match_cons _ _ _ KW (Some "CARRUSEL") Hrem0)), Hkw.
    rewrite bind_assoc.
    rewrite (bind_Ok _ _ _ _ _ (def_carrusel_run _ _ _ cid D1 Hrem
               ltac:(by rewrite HD) ltac:(by rewrite HC) Hnext)). cbv beta.
    match goal with |- bind skip_nl _ ?st = _ => set (s1 := st) end.
    assert (remaining s1 = cars ++ rest) as Hrem1.
    { unfold s1. rewrite remaining_record, Hrem. by rewrite drop_app_length. }
    rewrite (bind_Ok _ _ _ _ _ (skip_nl_none _ _ Hrem1 Hnext)). cbv beta.
    rewrite (IH fuel s1 rest); try done.
    + unfold s1; simpl. f_equal. f_equal. rewrite length_app. lia.
    + unfold s1; simpl. by rewrite HC.
    + rewrite length_app, Hl in Hfuel. simpl in Hfuel. lia.
Qed.

Lemma definiciones_run s cars rest C' D' :
  remaining s = cars ++ rest →
  valid_definiciones (carousels_defined s) (products_defined s) cars C' D' →
  ends_loop "CARRUSEL" rest →
  definiciones s
  = (Ok (), {| tokens := tokens s; pos := length cars + pos s;
               products_defined := D'; carousels_defined := C' |}).
Proof.
  intros Hrem Hcars Hend. unfold definiciones, while_.
  apply (while_definiciones _ _ _ _ _ Hcars _ _ rest); try done.
  pose proof (remaining_length s) as Hlen.
  rewrite Hrem, length_app in Hlen. lia.
Qed.

(** ** Queries and the simulation *)

Lemma valid_consulta_first q :
  valid_consulta q →
  ∃ tok l, q = tok :: l ∧ type tok = KW ∧ opens_consulta tok.
Proof.
  unfold opens_consulta.
  intros [Hq|[Hq|Hq]]; apply shaped_cons in Hq as (v & ln & cl & l & -> & Hv & _);
    rewrite (Hv _ eq_refl); eexists _, _; (split; [reflexivity|]);
    (split; [done|]); auto.
Qed.

Lemma consulta_run s q rest :
  remaining s = q ++ rest → valid_consulta q →
  consulta s = (Ok (), jump (length q) s).
Proof.
  intros Hrem [Hq|[Hq|Hq]]; shaped_inv Hq; simpl in Hrem; unfold consulta;
    repeat run_step; by rewrite ?jump_jump.
Qed.

Lemma guard_consulta_run {B} (k : bool → M B) s tok rest :
  remaining s = tok :: rest →
  bind (or_else (match_ KW (Some "ESTADO"))
          (or_else (match_ KW (Some "ESTADISTICAS")) (match_ KW (Some "REPORTE")))) k s
  = k (matches KW (Some "ESTADO") tok || matches KW (Some "ESTADISTICAS") tok
       || matches KW (Some "REPORTE") tok) s.
Proof.
  intros Hrem. unfold or_else. rewrite !bind_assoc.
  rewrite (bind_Ok _ _ _ _ _ (match_cons _ _ _ KW (Some "ESTADO") Hrem)).
  destruct (matches KW (Some "ESTADO") tok); [done|]. cbv beta iota.
  rewrite !bind_assoc.
  rewrite (bind_Ok _ _ _ _ _ (match_cons _ _ _ KW (Some "ESTADISTICAS") Hrem)).
  destruct (matches KW (Some "ESTADISTICAS") tok); [done|]. cbv beta iota.
  by rewrite (bind_Ok _ _ _ _ _ (match_cons _ _ _ KW (Some "REPORTE") Hrem)).
Qed.

Lemma valid_consultas_next qs rest :
  valid_consultas qs → next_not_nl rest → next_not_nl (qs ++ rest).
Proof.
  intros [|q T qs' Hq _ _] Hrest; [done|].
  destruct (valid_consulta_first _ Hq) as (tok & l & -> & Hty & _).
  eexists _, _. split; [reflexivity|]. congruence.
Qed.

Lemma while_consultas qs :
  valid_consultas qs →
  ∀ fuel s tok rest,
    remaining s = qs ++ tok :: rest →
    type tok ≠ NL → ¬ opens_consulta tok → (length qs < fuel)%nat →
    while_fuel fuel
      (or_else (match_ KW (Some "ESTADO"))
         (or_else (match_ KW (Some "ESTADISTICAS")) (match_ KW (Some "REPORTE"))))
      (consulta ;; fin ;; skip_nl) s
    = (Ok (), jump (length qs) s).
Proof.
  induction 1 as [|q T qs Hq HT Hqs IH]; intros fuel s tok rest Hrem Hnl Hno Hfuel.
  - simpl in Hrem. destruct fuel as [|fuel]; [lia|]. cbn [while_fuel].
    rewrite (guard_consulta_run _ _ _ _ Hrem).
    assert (matches KW (Some "ESTADO") tok || matches KW (Some "ESTADISTICAS") tok
            || matches KW (Some "REPORTE") tok = false) as ->.
    { unfold opens_consulta in Hno.
      destruct (matches KW (Some "ESTADO") tok); [tauto|].
      destruct (matches KW (Some "ESTADISTICAS") tok); [tauto|].
      destruct (matches KW (Some "REPORTE") tok); [tauto|done]. }
    by rewrite jump_0.
  - destruct fuel as [|fuel]; [lia|]. rewrite <- !app_assoc in Hrem.
    destruct (valid_consulta_first _ Hq) as (tok1 & l & Hl & Hty & Hopen).
    assert (next_not_nl (qs ++ tok :: rest)) as Hnext.
    { apply valid_consultas_next; [done|]. by apply next_not_nl_cons. }
    cbn [while_fuel].
    assert (remaining s = tok1 :: l ++ T ++ qs ++ tok :: rest) as Hrem0
      by by rewrite Hrem, Hl.
    rewrite (guard_consulta_run _ _ _ _ Hrem0).
    assert (matches KW (Some "ESTADO") tok1 || matches KW (Some "ESTADISTICAS") tok1
            || matches KW (Some "REPORTE") tok1 = true) as ->.
    { destruct Hopen as [Ho|[Ho|Ho]]; rewrite Ho; by rewrite ?orb_true_r. }
    rewrite !bind_assoc.
    rewrite (bind_Ok _ _ _ _ _ (consulta_run _ _ _ Hrem Hq)). cbv beta.
    pose proof (remaining_jump_app _ _ _ Hrem) as Hrem1.
    rewrite ?bind_assoc.
    rewrite (bind_Ok _ _ _ _ _ (fin_run _ _ _ Hrem1 HT Hnext)). cbv beta.
    pose proof (remaining_jump_app _ _ _ Hrem1) as Hrem2.
    rewrite (bind_Ok _ _ _ _ _ (skip_nl_none _ _ Hrem2 Hnext)). cbv beta.
    rewrite (IH fuel _ tok rest Hrem2 Hnl Hno).
    + rewrite !jump_jump. f_equal. apply Parser_eq; simpl; try done.
      rewrite !length_app. lia.
    + rewrite !length_app, Hl in Hfuel. simpl in Hfuel. lia.
Qed.

Lemma newlines_or_not_comma nls tok rest :
  newlines nls → type tok ≠ COMMA → type tok ≠ NL →
  ∃ tok' rest', nls ++ tok :: rest = tok' :: rest' ∧ type tok' ≠ COMMA.
Proof.
  intros Hnls Hcomma _. destruct Hnls as [|nl nls Hnl _]; simpl.
  - by exists tok, rest.
  - exists nl, (nls ++ tok :: rest). split; [done|]. unfold is_nl in Hnl. congruence.
Qed.

Lemma bloque_transacciones_run s hd nls1 lista nls2 rb T rest :
  remaining s = hd ++ nls1 ++ lista ++ nls2 ++ rb ++ T ++ rest →
  shaped [(KW, Some "TRANSACCIONES"); (COLON, None); (LBRACKET, None)] hd →
  newlines nls1 → valid_lista (products_defined s) lista → newlines nls2 →
  shaped [(RBRACKET, None)] rb → terminator T → next_not_nl rest →
  bloque_transacciones s
  = (Ok (), jump (3 + length nls1 + length lista + length nls2 + 1 + length T) s).
Proof.
  intros Hrem Hhd Hnls1 Hlista Hnls2 Hrb HT Hrest.
  shaped_inv Hhd. shaped_inv Hrb. simpl in Hrem.
  pose proof HT as (tokT & nlsT & HTeq & HtokT & HnlsT).
  unfold bloque_transacciones. do 3 run_more.
  lazymatch goal with
  | H : remaining (jump 1 (jump 1 (jump 1 s))) = _ |- _ => rename H into Hafter
  end.
  assert (∀ s' nls, remaining s' = nls ++ mkToken RBRACKET v1 ln2 cl2 :: T ++ rest →
            newlines nls →
            (skip_nl ;; consume RBRACKET None ;;
             term <- or_else (match_ SEMI None) (match_ NL None) ;;
             if term then fin
             else tok <- current ;; syntax_error tok FaltaFinTrasCorchete) s'
            = (Ok (), jump (length nls + 1 + length T) s')) as Hclose.
  { intros s' nls Hrem' Hnls. do 2 run_more.
    lazymatch goal with
    | H : remaining (jump 1 (jump (length nls) s')) = _ |- _ =>
        pose proof H as HremT; rewrite HTeq in H; simpl in H;
        rewrite (or_else_SEMI_NL _ _ _ _ H)
    end.
    assert (bool_decide (type tokT = SEMI) || bool_decide (type tokT = NL) = true)
      as ->.
    { destruct HtokT as [Ht|Ht]; rewrite Ht; by repeat case_bool_decide. }
    rewrite (fin_run _ T rest HremT HT Hrest). rewrite !jump_jump.
    f_equal. apply Parser_eq; simpl; try done. lia. }
  destruct Hlista as [->|(entry & more & -> & Hentry & Hmore)].
  - simpl in Hafter.
    assert (remaining (jump 1 (jump 1 (jump 1 s)))
            = (nls1 ++ nls2) ++ mkToken RBRACKET v1 ln2 cl2 :: T ++ rest) as R2
      by by rewrite Hafter, <- app_assoc.
    rewrite (bind_Ok _ _ _ _ _
               (skip_nl_run _ (nls1 ++ nls2) _ R2
                  ltac:(by apply Forall_app) ltac:(by apply next_not_nl_cons))).
    cbv beta. pose proof (remaining_jump_app _ _ _ R2) as R3.
    run_more. cbn [negb].
    change (bind (ret ()) ?k ?s) with (k () s). cbv beta.
    rewrite (Hclose _ [] R3 ltac:(constructor)). rewrite !jump_jump. f_equal.
    apply Parser_eq; simpl; try done. rewrite length_app. lia.
  - destruct (valid_entry_first _ _ Hentry) as (tok1 & l1 & Hl1 & Hty1 & _).
    rewrite <- !app_assoc in Hafter.
    rewrite (bind_Ok _ _ _ _ _
               (skip_nl_run _ nls1 _ Hafter Hnls1
                  ltac:(rewrite Hl1; eexists _, _; split; [reflexivity|congruence]))).
    cbv beta. pose proof (remaining_jump_app _ _ _ Hafter) as R2.
    assert (match_ RBRACKET None (jump (length nls1) (jump 1 (jump 1 (jump 1 s))))
            = (Ok false, jump (length nls1) (jump 1 (jump 1 (jump 1 s))))) as Hm.
    { rewrite Hl1 in R2. simpl in R2.
      rewrite (match_cons _ _ _ RBRACKET None R2), matches_type.
      by rewrite bool_decide_eq_false_2 by congruence. }
    rewrite (bind_Ok _ _ _ _ _ Hm). cbn [negb]. cbv beta iota.
    destruct (newlines_or_not_comma nls2 (mkToken RBRACKET v1 ln2 cl2) (T ++ rest) Hnls2)
      as (tok' & rest' & Heq & Hcomma); [done..|].
    rewrite ?bind_assoc.
    rewrite (bind_Ok _ _ _ _ _
               (proj1 lista_tx_cases _ entry more _ R2 Hentry Hmore
                  ltac:(exists tok', rest'; by split))).
    cbv beta.
    pose proof (remaining_jump_app _ _ _ R2) as R3.
    pose proof (remaining_jump_app _ _ _ R3) as R4.
    rewrite jump_jump in R4.
    rewrite (Hclose _ nls2 R4 Hnls2). rewrite !jump_jump. f_equal.
    apply Parser_eq; simpl; try done. rewrite !length_app. lia.
Qed.

Lemma valid_simulacion_first D sim :
  valid_simulacion D sim →
  ∃ ln cl l, sim = mkToken KW "SIMULAR" ln cl :: l.
Proof.
  intros (? & rbrace & -> & (? & qs & -> & (? & T & -> & (? & rb & -> &
    (? & nls4 & -> & (? & lista & -> & (? & nls3 & -> & (? & hd3 & -> &
    (? & nls2 & -> & (? & lb & -> & (sim0 & nls1 & -> & Hsim & Hnls1) & Hlb)
    & Hnls2) & Hhd3) & Hnls3) & Hlista) & Hnls4) & Hrb) & HT) & Hqs) & Hrbrace).
  shaped_inv Hsim. simpl. by eexists _, _, _.
Qed.

Lemma simulacion_run s sim rest :
  remaining s = sim ++ rest → valid_simulacion (products_defined s) sim →
  simulacion s = (Ok (), jump (length sim) s).
Proof.
  intros Hrem (? & rbrace & -> & (? & qs & -> & (? & T & -> & (? & rb & -> &
    (? & nls4 & -> & (? & lista & -> & (? & nls3 & -> & (? & hd3 & -> &
    (? & nls2 & -> & (? & lb & -> & (sim0 & nls1 & -> & Hsim & Hnls1) & Hlb)
    & Hnls2) & Hhd3) & Hnls3) & Hlista) & Hnls4) & Hrb) & HT) & Hqs) & Hrbrace).
  pose proof Hhd3 as Hhd3'. pose proof Hrb as Hrb'.
  pose proof (shaped_length _ _ Hhd3) as Lhd3.
  pose proof (shaped_length _ _ Hrb) as Lrb.
  shaped_inv Hsim. shaped_inv Hlb. shaped_inv Hrbrace.
  rewrite !length_app. cbn [length]. rewrite Lhd3, Lrb. cbn [length].
  rewrite <- !app_assoc in Hrem. simpl in Hrem.
  unfold simulacion. do 3 run_more.
  assert (∃ tok1 l1, hd3 = tok1 :: l1 ∧ type tok1 ≠ NL) as (tok1 & l1 & Hl1 & Hty1).
  { apply shaped_cons in Hhd3 as (? & ? & ? & ? & -> & _). by eexists _, _. }
  lazymatch goal with
  | H : remaining ?st = nls2 ++ _ |- bind skip_nl _ ?st = _ =>
      rewrite (bind_Ok _ _ _ _ _
                 (skip_nl_run _ nls2 _ H Hnls2
                    ltac:(rewrite Hl1; by apply next_not_nl_cons)));
      pose proof (remaining_jump_app _ _ _ H) as Hbloque
  end.
  cbv beta.
  assert (next_not_nl (qs ++ mkToken RBRACE v0 ln1 cl1 :: rest)) as Hnext.
  { apply valid_consultas_next; [done|]. by apply next_not_nl_cons. }
  rewrite (bind_Ok _ _ _ _ _
             (bloque_transacciones_run _ hd3 nls3 lista nls4 rb T _
                Hbloque Hhd3' Hnls3 Hlista Hnls4 Hrb' HT Hnext)).
  cbv beta.
  match goal with |- bind skip_nl _ ?st = _ => set (s4 := st) end.
  assert (remaining s4 = qs ++ mkToken RBRACE v0 ln1 cl1 :: rest) as Hrem4.
  { unfold s4. rewrite remaining_jump, Hbloque, <- !drop_drop.
    rewrite Hl1 in Lhd3. rewrite Hl1. simpl.
    destruct l1 as [|t2 [|t3 [|]]]; simpl in Lhd3; try lia.
    simpl. rewrite drop_0, drop_app_length, drop_app_length, drop_app_length.
    apply shaped_cons in Hrb' as (? & ? & ? & ? & -> & _ & ->%shaped_nil).
    simpl. by rewrite drop_0, drop_app_length. }
  rewrite (bind_Ok _ _ _ _ _ (skip_nl_none _ _ Hrem4 Hnext)). cbv beta.
  assert (while_
            (or_else (match_ KW (Some "ESTADO"))
               (or_else (match_ KW (Some "ESTADISTICAS")) (match_ KW (Some "REPORTE"))))
            (consulta ;; fin ;; skip_nl) s4
          = (Ok (), jump (length qs) s4)) as Hloop.
  { unfold while_. apply (while_consultas _ Hqs _ _ _ _ Hrem4); [done| |].
    - intros [H|[H|H]]; discriminate H.
    - pose proof (remaining_length s4) as Hlen.
      rewrite Hrem4, length_app in Hlen. lia. }
  rewrite (bind_Ok _ _ _ _ _ Hloop). cbv beta.
  pose proof (remaining_jump_app _ _ _ Hrem4) as Hrem5.
  run_more. unfold s4. rewrite !jump_jump. unfold ret. f_equal.
  apply Parser_eq; simpl; try done. lia.
Qed.

Lemma programa_run toks nls defs sim nls' eof C D :
  toks = nls ++ defs ++ sim ++ nls' ++ [eof] →
  newlines nls → valid_definiciones ∅ ∅ defs C D → valid_simulacion D sim →
  newlines nls' → type eof = EOF →
  parse toks
  = (Ok (), {| tokens := toks; pos := length toks;
               products_defined := D; carousels_defined := C |}).
Proof.
  intros -> Hnls Hdefs Hsim Hnls' Heof.
  destruct (valid_simulacion_first _ _ Hsim) as (ln & cl & l & Hl).
  assert (ends_loop "CARRUSEL" (sim ++ nls' ++ [eof])) as Hend.
  { rewrite Hl. eexists _, _. split; [reflexivity|]. by split. }
  assert (next_not_nl (defs ++ sim ++ nls' ++ [eof])) as Hnext.
  { eapply valid_definiciones_next; [done|]. by eapply ends_loop_next. }
  set (toks := nls ++ defs ++ sim ++ nls' ++ [eof]).
  assert (remaining (Parser_init toks) = toks) as Hrem by apply drop_0.
  unfold parse, programa.
  rewrite (bind_Ok _ _ _ _ _ (skip_nl_run _ nls _ Hrem Hnls Hnext)). cbv beta.
  pose proof (remaining_jump_app _ _ _ Hrem) as Hrem1.
  rewrite (bind_Ok _ _ _ _ _ (definiciones_run _ defs _ C D Hrem1 Hdefs Hend)).
  cbv beta.
  match goal with |- bind skip_nl _ ?st = _ => set (s2 := st) end.
  assert (remaining s2 = sim ++ nls' ++ [eof]) as Hrem2.
  { unfold s2. rewrite remaining_record, Hrem1. by rewrite drop_app_length. }
  rewrite (bind_Ok _ _ _ _ _ (skip_nl_none _ _ Hrem2 (ends_loop_next _ _ Hend))).
  cbv beta.
  rewrite (bind_Ok _ _ _ _ _ (simulacion_run s2 sim _ Hrem2 Hsim)). cbv beta.
  pose proof (remaining_jump_app _ _ _ Hrem2) as Hrem3.
  rewrite (bind_Ok _ _ _ _ _
             (skip_nl_run _ nls' [eof] Hrem3 Hnls'
                ltac:(apply next_not_nl_cons; congruence))).
  cbv beta. pose proof (remaining_jump_app _ _ _ Hrem3) as Hrem4.
  rewrite (bind_Ok _ _ _ _ _
             (consume_cons _ eof [] EOF None Hrem4
                ltac:(by rewrite matches_type, bool_decide_eq_true_2))).
  cbv beta. unfold ret. f_equal. apply Parser_eq; simpl; try done.
  unfold toks. rewrite !length_app. simpl. lia.
Qed.

(** ** The layouts are accepted *)

Lemma ejemplo_producto_valid : valid_producto "p1" ejemplo_producto.
Proof.
  exists "1.50", "3", "3", "BAJA", (mkDecimal false 150 2), 3, 3,
    ejemplo_hasta_maximo, ejemplo_tras_maximo.
  split; [done|]. split.
  { unfold producto_hasta_maximo, ejemplo_hasta_maximo. rewrite !app_assoc. layout. }
  split.
  { unfold producto_tras_maximo, ejemplo_tras_maximo. rewrite !app_assoc. layout. }
  repeat split; try done. repeat constructor.
Qed.

Lemma ejemplo_catalogo_valid :
  valid_catalogo ∅ (ejemplo_producto ++ []) ({[ "p1" ]} ∪ ∅).
Proof.
  apply (valid_catalogo_cons ∅ "p1");
    [apply ejemplo_producto_valid|apply not_elem_of_empty|constructor].
Qed.

Lemma ejemplo_carrusel_valid :
  valid_carrusel "c1" ∅ ejemplo_carrusel ({[ "p1" ]} ∪ ∅).
Proof.
  exists "5", "20", 5, 20. eexists _, _, _. split; [reflexivity|].
  split; [unfold carrusel_hasta_catalogo; rewrite !app_assoc; layout|].
  split; [apply ejemplo_catalogo_valid|]. split; [layout|]. done.
Qed.

Lemma ejemplo_definiciones_valid :
  valid_definiciones ∅ ∅ (ejemplo_carrusel ++ []) ({[ "c1" ]} ∪ ∅) ({[ "p1" ]} ∪ ∅).
Proof.
  apply (valid_definiciones_cons ∅ ∅ "c1" _ ({[ "p1" ]} ∪ ∅));
    [apply ejemplo_carrusel_valid|apply not_elem_of_empty|constructor].
Qed.

(** Splitting a concrete token list [k] tokens before its end. *)
Ltac compute_list :=
  lazymatch goal with
  | |- ?P ?l => let l' := eval vm_compute in l in change (P l')
  end.

Ltac split_last k :=
  compute_list;
  lazymatch goal with
  | |- followed_by _ _ ?l =>
      let n := eval vm_compute in (length l - k)%nat in
      exists (take n l), (drop n l); split; [reflexivity|split]
  end.

Ltac piece := compute_list; first [ layout | repeat constructor ].

Lemma ejemplo_simulacion_valid :
  valid_simulacion ({[ "p1" ]} ∪ ∅) ejemplo_simulacion.
Proof.
  assert ("p1" ∈ ({[ "p1" ]} ∪ ∅ : gset string)) as Hp1.
  { apply elem_of_union_l. by apply elem_of_singleton. }
  unfold valid_simulacion.
  split_last 1%nat; [|piece].
  split_last 3%nat.
  2: { apply (valid_consultas_cons [tok KW "ESTADO"] [tok SEMI ";"; tok NL "\n"] []).
       - left. repeat constructor.
       - eexists _, _. split; [reflexivity|]. split; [by left|repeat constructor].
       - constructor. }
  split_last 1%nat; [|compute_list; eexists _, _; split; [reflexivity|];
                      split; [by right|constructor]].
  split_last 1%nat; [|piece].
  split_last 0%nat; [|piece].
  split_last 12%nat.
  2: { right.
       exists ejemplo_retirar, (tok COMMA "," :: [tok NL "\n"] ++ ejemplo_contar ++ []).
       split; [reflexivity|]. split.
       - exists "p1". split; [done|]. left. exists "RETIRAR", "2", 2.
         split; [repeat constructor|]. split; [repeat constructor|]. done.
       - apply more_entries_cons; [done|repeat constructor| |constructor].
         exists "p1". split; [done|]. right. repeat constructor. }
  split_last 0%nat; [|piece].
  split_last 3%nat; [|piece].
  split_last 1%nat; [|piece].
  split_last 1%nat; [|piece].
  split_last 0%nat; [|piece].
  piece.
Qed.

(** X14: [catalogo] returns on any sequence of product definitions that
    pass the checks and have identifiers not yet defined, and leaves the
    products of all of them defined; [definiciones] does so on any
    sequence of such carousels with new identifiers, whatever the number
    of carousels and of products. *)
Theorem definiciones_accepts :
  (∀ s prods rest D',
     remaining s = prods ++ rest →
     valid_catalogo (products_defined s) prods D' →
     ends_loop "PRODUCTO" rest →
     catalogo s
     = (Ok (), {| tokens := tokens s; pos := length prods + pos s;
                  products_defined := D';
                  carousels_defined := carousels_defined s |}))
  ∧ (∀ s cars rest C' D',
       remaining s = cars ++ rest →
       valid_definiciones (carousels_defined s) (products_defined s) cars C' D' →
       ends_loop "CARRUSEL" rest →
       definiciones s
       = (Ok (), {| tokens := tokens s; pos := length cars + pos s;
                    products_defined := D'; carousels_defined := C' |})).
Proof. split; [apply catalogo_run|apply definiciones_run]. Qed.

Lemma definiciones_accepts_witness :
  definiciones (Parser_init ((ejemplo_carrusel ++ []) ++ [tok KW "SIMULAR"]))
  = (Ok (), {| tokens := (ejemplo_carrusel ++ []) ++ [tok KW "SIMULAR"];
               pos := length (ejemplo_carrusel ++ []) + 0;
               products_defined := {[ "p1" ]} ∪ ∅;
               carousels_defined := {[ "c1" ]} ∪ ∅ |}).
Proof.
  apply (proj2 definiciones_accepts
           (Parser_init ((ejemplo_carrusel ++ []) ++ [tok KW "SIMULAR"]))
           (ejemplo_carrusel ++ []) [tok KW "SIMULAR"]).
  - reflexivity.
  - apply ejemplo_definiciones_valid.
  - eexists _, _. split; [reflexivity|]. by split.
Defined.

(** X15: [simulacion] returns on any simulation block of the layout of the
    grammar whose transactions pass the semantic check: an empty list of
    transactions or any number of them, newlines around them, and any
    number of queries, each with the end of its statement. *)
Theorem simulacion_accepts :
  ∀ s sim rest,
    remaining s = sim ++ rest → valid_simulacion (products_defined s) sim →
    simulacion s = (Ok (), jump (length sim) s).
Proof. apply simulacion_run. Qed.

Lemma simulacion_accepts_witness :
  simulacion (mkParser (ejemplo_simulacion ++ [tok EOF ""]) 0 ({[ "p1" ]} ∪ ∅) ∅)
  = (Ok (), jump (length ejemplo_simulacion)
              (mkParser (ejemplo_simulacion ++ [tok EOF ""]) 0 ({[ "p1" ]} ∪ ∅) ∅)).
Proof.
  apply (simulacion_accepts
           (mkParser (ejemplo_simulacion ++ [tok EOF ""]) 0 ({[ "p1" ]} ∪ ∅) ∅)
           ejemplo_simulacion [tok EOF ""]).
  - reflexivity.
  - apply ejemplo_simulacion_valid.
Defined.

(** X16: every token list of the layout of the grammar that passes the
    checks is accepted, with all its tokens consumed and the identifiers
    of its carousels and products in the two tables; so is every text
    whose tokens are such a list. *)
Theorem valid_programa_accepted :
  (∀ toks nls defs sim nls' eof C D,
     toks = nls ++ defs ++ sim ++ nls' ++ [eof] →
     newlines nls → valid_definiciones ∅ ∅ defs C D → valid_simulacion D sim →
     newlines nls' → type eof = EOF →
     parse toks
     = (Ok (), {| tokens := toks; pos := length toks;
                  products_defined := D; carousels_defined := C |}))
  ∧ (∀ text toks,
       tokenize text = Ok toks → valid_programa toks → validate text = Ok ()).
Proof.
  split; [apply programa_run|].
  intros text toks Htok (nls & defs & sim & nls' & eof & C & D & Heq & Hnls & Hdefs &
    Hsim & Hnls' & Heof).
  rewrite (validate_parse _ _ Htok).
  by rewrite (programa_run toks nls defs sim nls' eof C D).
Qed.

Lemma valid_programa_accepted_witness :
  parse ejemplo_programa
  = (Ok (), {| tokens := ejemplo_programa; pos := length ejemplo_programa;
               products_defined := {[ "p1" ]} ∪ ∅;
               carousels_defined := {[ "c1" ]} ∪ ∅ |}).
Proof.
  apply (proj1 valid_programa_accepted ejemplo_programa
           [] (ejemplo_carrusel ++ []) ejemplo_simulacion [tok NL "\n"] (tok EOF "")).
  - reflexivity.
  - constructor.
  - apply ejemplo_definiciones_valid.
  - apply ejemplo_simulacion_valid.
  - repeat constructor.
  - reflexivity.
Defined.
